(** * agent-kernel: the executable extensions, embedded and verified

    The repository's executable surface is a handful of TypeScript
    extensions: the GitHub identity resolver ([identity.ts]), the
    [gh_agent] command gate, the concept-marker loader
    ([collaboration.ts]), the tmux workspace launcher and the [github]
    tool with its confirmation modal.  Each is embedded below as Rocq
    definitions that follow the source function by function.

    Strings are sequences of 8-bit code units read as Latin-1
    (U+0000..U+00FF); the regular expressions of the source have no [u]
    flag, so they work code unit by code unit as the model does. *)

From Stdlib Require Import Bool Arith Lia List Ascii String NArith ZArith DecimalString.
Import ListNotations.
Open Scope string_scope.
Open Scope list_scope.

(* ------------------------------------------------------------------ *)
(** ** JavaScript string and array primitives used by the source *)

Module JS.

Definition code (c : ascii) : N := N_of_ascii c.

Definition in_range (lo hi : N) (c : ascii) : bool :=
  ((lo <=? code c) && (code c <=? hi))%N.

(** WhiteSpace and LineTerminator code units below 0x100:
    TAB, LF, VT, FF, CR, SP and NBSP.  This is both what [\s] matches
    and what [String.prototype.trim] strips. *)
Definition isWhiteSpace (c : ascii) : bool :=
  (in_range 9 13 c || (code c =? 32) || (code c =? 160))%N.

(** LineTerminator code units below 0x100 (what [.] refuses). *)
Definition isLineTerminator (c : ascii) : bool :=
  ((code c =? 10) || (code c =? 13))%N.

(** [\w]: the class [A-Za-z0-9_]. *)
Definition isWordChar (c : ascii) : bool :=
  in_range 65 90 c || in_range 97 122 c || in_range 48 57 c
  || (code c =? 95)%N.

Fixpoint trimStart (s : string) : string :=
  match s with
  | String c s' => if isWhiteSpace c then trimStart s' else s
  | EmptyString => EmptyString
  end.

Fixpoint trimEnd (s : string) : string :=
  match s with
  | EmptyString => EmptyString
  | String c s' =>
      match trimEnd s' with
      | EmptyString => if isWhiteSpace c then EmptyString else String c EmptyString
      | t => String c t
      end
  end.

(** [s.trim()] *)
Definition trim (s : string) : string := trimEnd (trimStart s).

(** [s.startsWith(p)] *)
Definition startsWith (s p : string) : bool := prefix p s.

(** [s.slice(n)] for [0 <= n]. *)
Fixpoint slice (s : string) (n : nat) : string :=
  match n, s with
  | 0, _ => s
  | S n', String _ s' => slice s' n'
  | S _, EmptyString => EmptyString
  end.

(** [s.includes(sub)] *)
Fixpoint includes (s sub : string) : bool :=
  prefix sub s ||
  match s with
  | String _ s' => includes s' sub
  | EmptyString => false
  end.

(** [s.split(sep)] for a one-character separator string: the pieces
    between the separators, ["" ] splitting to one empty piece. *)
Fixpoint splitChar (sep : ascii) (s : string) : list string :=
  match s with
  | EmptyString => [EmptyString]
  | String c s' =>
      if Ascii.eqb c sep then EmptyString :: splitChar sep s'
      else match splitChar sep s' with
           | p :: ps => String c p :: ps
           | [] => [String c EmptyString]
           end
  end.

(** [arr.join(sep)] *)
Definition join (sep : string) (arr : list string) : string :=
  String.concat sep arr.

(** [arr.indexOf(x)], with [None] for JavaScript's [-1]. *)
Fixpoint indexOf (arr : list string) (x : string) : option nat :=
  match arr with
  | [] => None
  | y :: arr' =>
      if String.eqb y x then Some 0
      else option_map S (indexOf arr' x)
  end.

(** Upper-casing of one code unit: exact on ASCII and on the Latin-1
    letters whose capital is again below 0x100.  The three units whose
    capital leaves the range (U+00B5, U+00DF, U+00FF) are kept as they
    are; none of their capitals spells a method name compared below. *)
Definition upperChar (c : ascii) : ascii :=
  if in_range 97 122 c
     || (in_range 224 254 c && negb (code c =? 247)%N)
  then ascii_of_N (code c - 32)
  else c.

Fixpoint toUpperCase (s : string) : string :=
  match s with
  | EmptyString => EmptyString
  | String c s' => String (upperChar c) (toUpperCase s')
  end.

(** [arr[i]], [None] standing for [undefined]. *)
Definition at_ (arr : list string) (i : nat) : option string := nth_error arr i.

End JS.

(* ------------------------------------------------------------------ *)
(** ** Regular expressions

    A backtracking matcher with the priority order of ECMAScript's
    [RegExp]: every construct returns the list of its possible
    continuations, most preferred first, and the first element of the
    list at the leftmost start position is the match. *)

Module RegExp.

Inductive re : Type :=
| Lit (l : string)               (* literal text *)
| Cls (f : ascii -> bool)        (* one code unit of a class *)
| Seq (a b : re)
| Alt (a b : re)                 (* a|b *)
| Star (a : re)                  (* a*, greedy *)
| Cap (n : nat) (a : re)         (* n-th capturing group *)
| NotAhead (a : re)              (* (?!a) *)
| Bol                            (* ^ (no m flag) *)
| WordB.                         (* \b *)

(** [a+] *)
Definition Plus (a : re) : re := Seq a (Star a).
(** [.] *)
Definition Dot : re := Cls (fun c => negb (JS.isLineTerminator c)).
(** [\s] *)
Definition Space : re := Cls JS.isWhiteSpace.

(** A matcher state: the code unit before the current position
    ([None] at the start of the input), the input still ahead, and
    the captures made so far. *)
Record MState : Type := mkM {
  prev : option ascii;
  rest : string;
  caps : list (nat * string)
}.

Fixpoint lit_step (l : string) (p : option ascii) (s : string)
  : option (option ascii * string) :=
  match l with
  | EmptyString => Some (p, s)
  | String c l' =>
      match s with
      | String d s' => if Ascii.eqb c d then lit_step l' (Some d) s' else None
      | EmptyString => None
      end
  end.

(** The first [n] code units of [s]. *)
Fixpoint take (n : nat) (s : string) : string :=
  match n, s with
  | S n', String c s' => String c (take n' s')
  | _, _ => EmptyString
  end.

(** What was consumed between two states of one run. *)
Definition consumed (before after : MState) : string :=
  take (String.length (rest before) - String.length (rest after)) (rest before).

Definition is_word (o : option ascii) : bool :=
  match o with Some c => JS.isWordChar c | None => false end.

Definition next (s : string) : option ascii :=
  match s with String c _ => Some c | EmptyString => None end.

Fixpoint rmatch (r : re) (st : MState) : list MState :=
  match r with
  | Lit l =>
      match lit_step l (prev st) (rest st) with
      | Some (p, s) => [mkM p s (caps st)]
      | None => []
      end
  | Cls f =>
      match rest st with
      | String c s => if f c then [mkM (Some c) s (caps st)] else []
      | EmptyString => []
      end
  | Seq a b => flat_map (rmatch b) (rmatch a st)
  | Alt a b => rmatch a st ++ rmatch b st
  | Star a =>
      (fix star (fuel : nat) (st : MState) {struct fuel} : list MState :=
         match fuel with
         | 0 => [st]
         | S fuel' =>
             flat_map
               (fun st' =>
                  if Nat.ltb (String.length (rest st')) (String.length (rest st))
                  then star fuel' st' else [])
               (rmatch a st)
             ++ [st]
         end) (String.length (rest st)) st
  | Cap n a =>
      map (fun st' => mkM (prev st') (rest st') ((n, consumed st st') :: caps st'))
          (rmatch a st)
  | NotAhead a =>
      match rmatch a st with
      | [] => [st]
      | _ :: _ => []
      end
  | Bol =>
      match prev st with
      | None => [st]
      | Some _ => []
      end
  | WordB =>
      if xorb (is_word (prev st)) (is_word (next (rest st))) then [st] else []
  end.

(** The result of a successful match. *)
Record Match : Type := mkMatch {
  index : nat;             (* where the match starts *)
  text : string;           (* match[0] *)
  final : MState           (* position and captures after the match *)
}.

Fixpoint lookup (n : nat) (l : list (nat * string)) : option string :=
  match l with
  | [] => None
  | (k, v) :: l' => if Nat.eqb k n then Some v else lookup n l'
  end.

(** [match[n]] for [n >= 1] *)
Definition group (n : nat) (m : Match) : option string :=
  lookup n (caps (final m)).

(** [re.exec(s)] from a position: the leftmost start at which the
    matcher has a continuation, with its most preferred one. *)
Fixpoint exec_from (r : re) (p : option ascii) (s : string) (i : nat)
  : option Match :=
  let st := mkM p s [] in
  match rmatch r st with
  | st' :: _ => Some (mkMatch i (consumed st st') st')
  | [] =>
      match s with
      | String c s' => exec_from r (Some c) s' (S i)
      | EmptyString => None
      end
  end.

(** [s.match(re)] / [re.exec(s)] without the [g] flag. *)
Definition exec (r : re) (s : string) : option Match := exec_from r None s 0.

(** [re.test(s)] *)
Definition test (r : re) (s : string) : bool :=
  match exec r s with Some _ => true | None => false end.

(** [s.matchAll(re)] with the [g] flag: successive matches, each search
    resuming where the previous match ended (one unit further after an
    empty match).  [index] is relative to the resumption point. *)
Fixpoint matchAll_from (fuel : nat) (r : re) (p : option ascii) (s : string)
  : list Match :=
  match fuel with
  | 0 => []
  | S fuel' =>
      match exec_from r p s 0 with
      | None => []
      | Some m =>
          m ::
          match text m, rest (final m) with
          | EmptyString, String c s' => matchAll_from fuel' r (Some c) s'
          | EmptyString, EmptyString => []
          | String _ _, s' => matchAll_from fuel' r (prev (final m)) s'
          end
      end
  end.

Definition matchAll (r : re) (s : string) : list Match :=
  matchAll_from (S (String.length s)) r None s.

(** [s.split(re)] for a pattern without capturing groups
    (ECMAScript's Symbol.split, unlimited).  [piece] is the text since
    the last separator, [p = q] tells whether the scan position is
    still at the end of the last separator. *)
Fixpoint split_from (fuel : nat) (r : re) (piece : string) (fresh : bool)
    (p : option ascii) (s : string) : list string :=
  match fuel with
  | 0 => [(piece ++ s)%string]
  | S fuel' =>
      match s with
      | EmptyString => [piece]
      | String c s' =>
          match rmatch r (mkM p s []) with
          | [] => split_from fuel' r (piece ++ String c EmptyString)%string false (Some c) s'
          | st' :: _ =>
              if Nat.eqb (String.length (rest st')) (String.length s) && fresh
              then split_from fuel' r (piece ++ String c EmptyString)%string false (Some c) s'
              else if Nat.eqb (String.length (rest st')) (String.length s)
              then piece :: split_from fuel' r (String c EmptyString) false (Some c) s'
              else piece :: split_from fuel' r EmptyString true (prev st') (rest st')
          end
      end
  end.

Definition split (r : re) (s : string) : list string :=
  match s with
  | EmptyString =>
      match rmatch r (mkM None EmptyString []) with
      | [] => [EmptyString]
      | _ :: _ => []
      end
  | _ => split_from (String.length s) r EmptyString true None s
  end.

(** [s.replace(re, f)] with the [g] flag: every successive match is
    replaced by [f match], the text between matches is kept. *)
Fixpoint replaceAll_from (fuel : nat) (r : re) (f : Match -> string)
    (p : option ascii) (s : string) : string :=
  match fuel with
  | 0 => s
  | S fuel' =>
      match exec_from r p s 0 with
      | None => s
      | Some m =>
          (take (index m) s ++ f m ++
           match text m, rest (final m) with
           | EmptyString, String c s' =>
               String c (replaceAll_from fuel' r f (Some c) s')
           | EmptyString, EmptyString => EmptyString
           | String _ _, s' => replaceAll_from fuel' r f (prev (final m)) s'
           end)%string
      end
  end.

Definition replaceAll (r : re) (f : Match -> string) (s : string) : string :=
  replaceAll_from (S (String.length s)) r f None s.

End RegExp.

(* ------------------------------------------------------------------ *)
(** ** identity.ts: which account acts for which repository *)

Module Identity.

(** The two GitHub accounts used for identity switching. *)
Record Accounts : Type := mkAccounts {
  agent : string;
  personal : string
}.

(** [ACCOUNTS] *)
Definition ACCOUNTS : Accounts := mkAccounts "john-agent" "dyreby".

(** [getAccountForRepo(repoOwner: string | null)] *)
Definition getAccountForRepo (repoOwner : option string) : string :=
  match repoOwner with
  | Some o => if String.eqb o "dyreby" then agent ACCOUNTS else personal ACCOUNTS
  | None => personal ACCOUNTS
  end.

Definition notSlash (c : ascii) : bool := negb (Ascii.eqb c "/").

(** [/git@github\.com:([^/]+)\//] *)
Definition SSH_RE : RegExp.re :=
  RegExp.Seq (RegExp.Lit "git@github.com:")
    (RegExp.Seq (RegExp.Cap 1 (RegExp.Plus (RegExp.Cls notSlash)))
                (RegExp.Lit "/")).

(** [/https:\/\/github\.com\/([^/]+)\//] *)
Definition HTTPS_RE : RegExp.re :=
  RegExp.Seq (RegExp.Lit "https://github.com/")
    (RegExp.Seq (RegExp.Cap 1 (RegExp.Plus (RegExp.Cls notSlash)))
                (RegExp.Lit "/")).

(** [parseRepoOwner(remoteUrl)] *)
Definition parseRepoOwner (remoteUrl : string) : option string :=
  match RegExp.exec SSH_RE remoteUrl with
  | Some sshMatch => RegExp.group 1 sshMatch
  | None =>
      match RegExp.exec HTTPS_RE remoteUrl with
      | Some httpsMatch => RegExp.group 1 httpsMatch
      | None => None
      end
  end.

End Identity.

(* ------------------------------------------------------------------ *)
(** ** The gh_agent extension: the command gate *)

Module GhAgent.

(** [ALLOWED_COMMANDS] *)
Definition ALLOWED_COMMANDS : list string :=
  [ "issue create"; "issue comment"; "issue view"; "issue list"; "issue edit";
    "pr create"; "pr comment"; "pr view"; "pr list"; "pr diff"; "pr review";
    "pr edit";
    "api repos/*/pulls/*/comments/*/replies";
    "api repos/*/issues/comments/*";
    "api repos/*/pulls/comments/*" ].

(** The result object [{ allowed, reason? }]. *)
Record Verdict : Type := mkVerdict {
  allowed : bool;
  reason : option string
}.

(** The loop of [matchesPattern] from index [i] on: [pp] and [ep] are
    what is left of [patternParts] and [endpointParts]. *)
Fixpoint matchesParts (pp ep : list string) : bool :=
  match pp, ep with
  | [], _ => true
  | p :: pp', e :: ep' =>
      if String.eqb p "*" then matchesParts pp' ep'
      else if negb (String.eqb p e) then false
      else matchesParts pp' ep'
  | p :: pp', [] =>
      (* unreachable after the length test; [endpointParts[i]] is undefined *)
      if String.eqb p "*" then matchesParts pp' [] else false
  end.

(** [matchesPattern(endpoint, pattern)] *)
Definition matchesPattern (endpoint pattern : string) : bool :=
  let endpointParts := JS.splitChar "/" endpoint in
  let patternParts := JS.splitChar "/" pattern in
  if negb (Nat.eqb (List.length endpointParts) (List.length patternParts))
  then false
  else matchesParts patternParts endpointParts.

Definition eqOpt (m : option string) (v : string) : bool :=
  match m with Some x => String.eqb x v | None => false end.

(** The body of the API loop once [matchesPattern] holds: the method
    restrictions. *)
Definition checkMethod (parts : list string) (endpoint pattern : string) : Verdict :=
  let methodArg := JS.indexOf parts "-X" in
  let method :=
    match methodArg with
    | Some k => option_map JS.toUpperCase (JS.at_ parts (k + 1))
    | None => Some "GET"
    end in
  if JS.includes pattern "/replies" && negb (eqOpt method "POST")
  then mkVerdict false
         (Some ("API endpoint " ++ endpoint ++ " only allows POST method")%string)
  else if (JS.includes pattern "/issues/comments/" || JS.includes pattern "/pulls/comments/")
          && negb (JS.includes pattern "/replies")
          && negb (eqOpt method "PATCH") && negb (eqOpt method "GET")
  then mkVerdict false
         (Some ("API endpoint " ++ endpoint ++ " only allows GET or PATCH method")%string)
  else mkVerdict true None.

(** The second [for] loop: the first allow-list entry whose pattern
    matches decides. *)
Fixpoint apiLoop (entries : list string) (parts : list string) (endpoint : string)
  : option Verdict :=
  match entries with
  | [] => None
  | allowed :: entries' =>
      if JS.startsWith allowed "api "
      then
        let pattern := JS.slice allowed 4 in
        if matchesPattern endpoint pattern
        then Some (checkMethod parts endpoint pattern)
        else apiLoop entries' parts endpoint
      else apiLoop entries' parts endpoint
  end.

(** [isCommandAllowed(command)] *)
Definition isCommandAllowed (command : string) : Verdict :=
  let trimmed := JS.trim command in
  let parts := RegExp.split (RegExp.Plus RegExp.Space) trimmed in
  if Nat.ltb (List.length parts) 2
  then mkVerdict false (Some "Command requires at least: gh_agent <command> <subcommand>")
  else
    let p0 := nth 0 parts EmptyString in
    let p1 := nth 1 parts EmptyString in
    let cmdSubcmd := (p0 ++ " " ++ p1)%string in
    if existsb (fun allowed =>
                  negb (JS.startsWith allowed "api ") && String.eqb cmdSubcmd allowed)
               ALLOWED_COMMANDS
    then mkVerdict true None
    else
      match (if String.eqb p0 "api" then apiLoop ALLOWED_COMMANDS parts p1 else None) with
      | Some v => v
      | None =>
          mkVerdict false
            (Some ("Command not in allow list: " ++ cmdSubcmd ++ ". Allowed: "
                   ++ JS.join ", "
                        (filter (fun c => negb (JS.startsWith c "api ")) ALLOWED_COMMANDS))%string)
      end.

End GhAgent.

(* ------------------------------------------------------------------ *)
(** ** JavaScript's [Map] and [Set] with string keys

    Both iterate in insertion order, and [set] on a key that is present
    keeps its place; association lists render that. *)

Module JsMap.
Section WithValue.
Context {V : Type}.

Fixpoint get (m : list (string * V)) (k : string) : option V :=
  match m with
  | [] => None
  | (k', v) :: m' => if String.eqb k' k then Some v else get m' k
  end.

Definition has (m : list (string * V)) (k : string) : bool :=
  match get m k with Some _ => true | None => false end.

Fixpoint set (m : list (string * V)) (k : string) (v : V) : list (string * V) :=
  match m with
  | [] => [(k, v)]
  | (k', v') :: m' =>
      if String.eqb k' k then (k', v) :: m' else (k', v') :: set m' k v
  end.

Definition keys (m : list (string * V)) : list string := map fst m.

(** [m.delete(k)] *)
Fixpoint delete (m : list (string * V)) (k : string) : list (string * V) :=
  match m with
  | [] => []
  | (k', v) :: m' => if String.eqb k' k then m' else (k', v) :: delete m' k
  end.
End WithValue.

(** [m.get(k) ?? 0] *)
Definition getOr0 (m : list (string * nat)) (k : string) : nat :=
  match get m k with Some v => v | None => 0 end.
End JsMap.

Module JsSet.
Fixpoint has (s : list string) (k : string) : bool :=
  match s with
  | [] => false
  | k' :: s' => String.eqb k' k || has s' k
  end.

Definition add (s : list string) (k : string) : list string :=
  if has s k then s else s ++ [k].
End JsSet.

(* ------------------------------------------------------------------ *)
(** ** collaboration.ts: concept markers and their recursive loading *)

Module Collaboration.

(** The class [[a-zA-Z0-9_-]]. *)
Definition markerChar (c : ascii) : bool :=
  JS.in_range 97 122 c || JS.in_range 65 90 c || JS.in_range 48 57 c
  || Ascii.eqb c "_" || Ascii.eqb c "-".

(** [CONCEPT_MARKER_REGEX = /`cf:([a-zA-Z0-9_-]+)`/g] *)
Definition CONCEPT_MARKER_REGEX : RegExp.re :=
  RegExp.Seq (RegExp.Lit "`cf:")
    (RegExp.Seq (RegExp.Cap 1 (RegExp.Plus (RegExp.Cls markerChar)))
                (RegExp.Lit "`")).

(** [match[1]] of one marker match. *)
Definition markerName (m : RegExp.Match) : string :=
  match RegExp.group 1 m with Some n => n | None => EmptyString end.

(** The names of the successive matches of [text.matchAll(...)]. *)
Definition markerNames (text : string) : list string :=
  map markerName (RegExp.matchAll CONCEPT_MARKER_REGEX text).

(** The body of the [for] loop of [parseConceptMarkers]. *)
Definition tally (counts : list (string * nat)) (name : string) : list (string * nat) :=
  JsMap.set counts name (JsMap.getOr0 counts name + 1).

(** [parseConceptMarkers(text)] *)
Definition parseConceptMarkers (text : string) : list (string * nat) :=
  fold_left tally (markerNames text) [].

(** The concept documents on disk: [(name, content)] for every
    readable file [concepts/<name>.md]. *)
Definition FileSystem : Type := list (string * string).

(** [loadConceptFile(name)]: the content, or [None] for [null] when
    the file does not exist or cannot be read. *)
Definition loadConceptFile (fs : FileSystem) (name : string) : option string :=
  JsMap.get fs name.

(** The three accumulators that [loadConceptsRecursively] threads
    through its recursion and finally returns. *)
Record Acc : Type := mkAcc {
  loaded : list (string * string);
  counts : list (string * nat);
  missing : list string
}.

Definition emptyAcc : Acc := mkAcc [] [] [].

(** One turn of the [for (const [name, count] of markers)] loop; [rec]
    is the recursive call. *)
Definition visit (rec : string -> Acc -> option Acc) (fs : FileSystem)
    (acc : Acc) (entry : string * nat) : option Acc :=
  let '(name, count) := entry in
  let counts' := JsMap.set (counts acc) name (JsMap.getOr0 (counts acc) name + count) in
  if JsMap.has (loaded acc) name || JsSet.has (missing acc) name
  then Some (mkAcc (loaded acc) counts' (missing acc))
  else
    match loadConceptFile fs name with
    | None => Some (mkAcc (loaded acc) counts' (JsSet.add (missing acc) name))
    | Some content =>
        rec content (mkAcc (JsMap.set (loaded acc) name content) counts' (missing acc))
    end.

Fixpoint loop (rec : string -> Acc -> option Acc) (fs : FileSystem)
    (markers : list (string * nat)) (acc : Acc) : option Acc :=
  match markers with
  | [] => Some acc
  | entry :: markers' =>
      match visit rec fs acc entry with
      | Some acc' => loop rec fs markers' acc'
      | None => None
      end
  end.

(** [loadConceptsRecursively] on a call stack that holds [depth]
    nested calls of it; [None] when the stack is exhausted.  What the
    engine does then (a RangeError, which the [catch] of
    [loadConceptFile] can turn into a missing file) is not modelled. *)
Fixpoint load (depth : nat) (fs : FileSystem) (text : string) (acc : Acc)
  : option Acc :=
  match depth with
  | 0 => None
  | S depth' => loop (load depth' fs) fs (parseConceptMarkers text) acc
  end.

(** [loadConceptsRecursively(text, loaded, counts, missing)] on a call
    stack that holds one call per document on disk and one more, which
    the recursion never exceeds ([load_total] below).  The run on a
    shallower stack is [load]. *)
Definition loadConceptsRecursively (fs : FileSystem) (text : string) (acc : Acc)
  : option Acc :=
  load (S (List.length fs)) fs text acc.

End Collaboration.

(* ------------------------------------------------------------------ *)
(** ** Shared shapes of the tool boundary *)

Definition dquote : string := String (ascii_of_nat 34) EmptyString.
Definition newline : string := String (ascii_of_nat 10) EmptyString.

(** What [pi.exec] resolves to. *)
Record ExecResult : Type := mkExec {
  code : Z;
  stdout : string;
  stderr : string
}.

(** JavaScript truthiness of [string | null | undefined]. *)
Definition truthy (o : option string) : bool :=
  match o with
  | Some (String _ _) => true
  | _ => false
  end.

(* ------------------------------------------------------------------ *)
(** ** The workspace tool *)

Module Workspace.

(** The tool result: the text of its single content item and the
    optional [isError]. *)
Record ToolResult : Type := mkResult {
  text : string;
  isError : option bool
}.

Record Params : Type := mkParams {
  repo : string;
  model : string;
  thinking : string;
  context : option string;
  prompt : option string;
  orient : option bool
}.

(** The calls by which [execute] touches the outside: each
    constructor is one call, the last argument what follows it.
    [await mkdir(..)] and [await writeFile(..)] stand outside any
    [try]: what follows them runs when the promise resolves, and when
    it rejects [execute] rejects with the same error ([run] below). *)
Inductive Prog (A : Type) : Type :=
| Ret (a : A)
| ExistsSync (path : string) (k : bool -> Prog A)
| GetEnv (name : string) (k : option string -> Prog A)
| PiExec (cmd : string) (args : list string) (k : ExecResult -> Prog A)
| Mkdir (path : string) (k : Prog A)
| WriteFile (path content : string) (k : Prog A)
| RandomUUID (k : string -> Prog A).
Arguments Ret {A} a.
Arguments ExistsSync {A} path k.
Arguments GetEnv {A} name k.
Arguments PiExec {A} cmd args k.
Arguments Mkdir {A} path k.
Arguments WriteFile {A} path content k.
Arguments RandomUUID {A} k.

Section Host.
(** Node's [path.join], [os.homedir()] and [os.tmpdir()]. *)
Variable join : list string -> string.
Variable homedir : string.
Variable tmpdir : string.

(** [REPOS_BASE] *)
Definition REPOS_BASE : string := join [homedir; "repos"].

(** [findRepoPath(owner, repo)] *)
Definition findRepoPath {A} (owner repo : string) (k : option string -> Prog A)
  : Prog A :=
  let path := join [REPOS_BASE; owner; repo] in
  ExistsSync path (fun e => k (if e then Some path else None)).

(** [buildWindowName(owner, repo, context)] *)
Definition buildWindowName (owner repo : string) (context : option string) : string :=
  let base := (owner ++ "/" ++ repo)%string in
  match context with
  | Some (String c ctx) => (base ++ " " ++ String c ctx)%string
  | _ => base
  end.

(** [x.replace(/'/g, "'\\''")] *)
Definition escapeQuotes (x : string) : string :=
  RegExp.replaceAll (RegExp.Lit "'") (fun _ => "'\''") x.

Definition opened (windowName repoPath model thinking : string) : ToolResult :=
  mkResult ("Opened workspace: " ++ windowName ++ newline ++ "Path: " ++ repoPath
            ++ newline ++ "Started pi with " ++ model ++ " (thinking: " ++ thinking
            ++ ")." ++ newline ++ newline
            ++ "Switch to that tmux window to continue.")%string None.

Definition failedToStart (err windowName repoPath : string) : ToolResult :=
  mkResult ("Opened workspace but failed to start pi: " ++ err ++ newline
            ++ "Window: " ++ windowName ++ newline ++ "Path: " ++ repoPath)%string None.

(** [execute(_toolCallId, params, _signal)] *)
Definition execute (params : Params) : Prog ToolResult :=
  let parts := JS.splitChar "/" (repo params) in
  if negb (Nat.eqb (List.length parts) 2) then
    Ret (mkResult ("Invalid repo format: " ++ dquote ++ repo params ++ dquote
                   ++ ". Expected " ++ dquote ++ "owner/repo" ++ dquote ++ ".")%string
                  (Some true))
  else
    let owner := nth 0 parts EmptyString in
    let repoName := nth 1 parts EmptyString in
    findRepoPath owner repoName (fun found =>
    if negb (truthy found) then
      Ret (mkResult ("Repo not found locally: " ++ repo params ++ newline
                     ++ "Expected at: " ++ join [REPOS_BASE; owner; repoName]
                     ++ newline ++ newline
                     ++ "Clone it first, or check the path.")%string
                    (Some true))
    else
    let repoPath := match found with Some x => x | None => EmptyString end in
    GetEnv "TMUX" (fun tmux =>
    if negb (truthy tmux) then
      Ret (mkResult
             "Not running in tmux. The workspace tool requires tmux to open new windows."
             (Some true))
    else
    let windowName := buildWindowName owner repoName (context params) in
    PiExec "tmux" ["new-window"; "-n"; windowName; "-c"; repoPath] (fun result =>
    if negb (Z.eqb (code result) 0) then
      Ret (mkResult ("Failed to open tmux window: " ++ stderr result)%string (Some true))
    else
    let modelArgs := ("--model '" ++ escapeQuotes (model params) ++ "' --thinking '"
                      ++ escapeQuotes (thinking params) ++ "'")%string in
    let envVars :=
      ["PI_LOAD_ALL_CONCEPTS=1"]
      ++ (match orient params with Some true => ["PI_WORKSPACE_ORIENT=1"] | _ => [] end) in
    let envPrefix := JS.join " " envVars in
    if truthy (prompt params) then
      let promptText := match prompt params with Some x => x | None => EmptyString end in
      let promptDir := join [tmpdir; "pi-workspace"] in
      Mkdir promptDir (
      RandomUUID (fun uuid =>
      let promptFile := join [promptDir; (uuid ++ ".md")%string] in
      WriteFile promptFile promptText (
      let piCommand := (envPrefix ++ " pi " ++ modelArgs ++ " @" ++ promptFile)%string in
      PiExec "tmux" ["send-keys"; "-t"; windowName; piCommand; "Enter"] (fun piResult =>
      if negb (Z.eqb (code piResult) 0) then
        Ret (failedToStart (stderr piResult) windowName repoPath)
      else
        Ret (opened windowName repoPath (model params) (thinking params))))))
    else
      let piCommandNoPrompt := (envPrefix ++ " pi " ++ modelArgs)%string in
      PiExec "tmux" ["send-keys"; "-t"; windowName; piCommandNoPrompt; "Enter"]
        (fun piResultNoPrompt =>
      if negb (Z.eqb (code piResultNoPrompt) 0) then
        Ret (failedToStart (stderr piResultNoPrompt) windowName repoPath)
      else
        Ret (opened windowName repoPath (model params) (thinking params)))))).

End Host.

(** The outside against which a call runs.  [mkdirError] and
    [writeError] say whether [mkdir] of a path and [writeFile] of a
    content to a path reject, and with which error ([None]: the promise
    resolves). *)
Record World : Type := mkWorld {
  existsSync : string -> bool;
  env : string -> option string;
  exec : string -> list string -> ExecResult;
  uuid : string;
  mkdirError : string -> option string;
  writeError : string -> string -> option string
}.

(** What a run did to the outside. *)
Inductive Effect : Type :=
| Spawned (cmd : string) (args : list string)
| MadeDir (path : string)
| Wrote (path content : string).

(** How the promise of [execute] settles. *)
Inductive Outcome (A : Type) : Type :=
| Returned (a : A)
| Threw (error : string).
Arguments Returned {A} a.
Arguments Threw {A} error.

(** A run: how it settles and what it did before.  A rejected [mkdir]
    or [writeFile] ends the run there, with nothing made or written by
    that call. *)
Fixpoint run {A} (w : World) (p : Prog A) : Outcome A * list Effect :=
  match p with
  | Ret a => (Returned a, [])
  | ExistsSync path k => run w (k (existsSync w path))
  | GetEnv name k => run w (k (env w name))
  | PiExec cmd args k =>
      let '(a, t) := run w (k (exec w cmd args)) in (a, Spawned cmd args :: t)
  | Mkdir path k =>
      match mkdirError w path with
      | Some error => (Threw error, [])
      | None => let '(a, t) := run w k in (a, MadeDir path :: t)
      end
  | WriteFile path content k =>
      match writeError w path content with
      | Some error => (Threw error, [])
      | None => let '(a, t) := run w k in (a, Wrote path content :: t)
      end
  | RandomUUID k => run w (k (uuid w))
  end.

End Workspace.

(* ------------------------------------------------------------------ *)
(** ** The github tool: validation, confirmation modal, execution *)

Module GithubTool.
Import RegExp.

Definition alts (ls : list string) : re :=
  match ls with
  | [] => Lit EmptyString
  | l :: ls' => fold_left (fun r x => Alt r (Lit x)) ls' (Lit l)
  end.

(** [READ_ONLY_PATTERNS] *)
Definition READ_ONLY_PATTERNS : list re :=
  [ (* /^(pr|issue|release|repo)\s+(list|view|status|diff|checks|ready)/ *)
    Seq Bol (Seq (Cap 1 (alts ["pr"; "issue"; "release"; "repo"]))
            (Seq (Plus Space)
                 (Cap 2 (alts ["list"; "view"; "status"; "diff"; "checks"; "ready"]))));
    (* /^auth\s+status/ *)
    Seq Bol (Seq (Lit "auth") (Seq (Plus Space) (Lit "status")));
    (* /^api\s+.*--method\s+GET/ *)
    Seq Bol (Seq (Lit "api") (Seq (Plus Space) (Seq (Star Dot)
            (Seq (Lit "--method") (Seq (Plus Space) (Lit "GET"))))));
    (* /^api\s+(?!.*--method)/ *)
    Seq Bol (Seq (Lit "api") (Seq (Plus Space)
            (NotAhead (Seq (Star Dot) (Lit "--method")))));
    (* /^search\s+/ *)
    Seq Bol (Seq (Lit "search") (Plus Space));
    (* /^browse\s+/ *)
    Seq Bol (Seq (Lit "browse") (Plus Space)) ].

(** [isReadOnly(command)] *)
Definition isReadOnly (command : string) : bool :=
  existsb (fun pattern => test pattern (JS.trim command)) READ_ONLY_PATTERNS.

(** [GLOBAL_COMMAND_PATTERNS] *)
Definition GLOBAL_COMMAND_PATTERNS : list re :=
  [ Seq Bol (Seq (Lit "search") (Plus Space));               (* /^search\s+/ *)
    Seq Bol (Seq (Lit "api") (Seq (Plus Space) (Lit "/user")));          (* /^api\s+\/user/ *)
    Seq Bol (Seq (Lit "api") (Seq (Plus Space) (Lit "/notifications"))); (* /^api\s+\/notifications/ *)
    Seq Bol (Seq (Lit "auth") (Plus Space));                 (* /^auth\s+/ *)
    Seq Bol (Seq (Lit "config") (Plus Space));               (* /^config\s+/ *)
    Seq Bol (Seq (Lit "status") WordB) ].                    (* /^status\b/ *)

(** [isGlobalCommand(command)] *)
Definition isGlobalCommand (command : string) : bool :=
  existsb (fun pattern => test pattern (JS.trim command)) GLOBAL_COMMAND_PATTERNS.

(** The [while] loop of [extractFlag] looking for the closing quote:
    [s] is [rest] from index [i] on, [before] is [rest[i - 1]] and
    [acc] is [rest.slice(1, i)]. *)
Fixpoint closingQuote (quoteChar before : ascii) (acc s : string) : option string :=
  match s with
  | EmptyString => None
  | String c s' =>
      if Ascii.eqb c quoteChar && negb (Ascii.eqb before "\")
      then Some acc
      else closingQuote quoteChar c (acc ++ String c EmptyString)%string s'
  end.

(** [x.replace(/\\(.)/g, "$1")] *)
Definition unescape (x : string) : string :=
  replaceAll (Seq (Lit "\") (Cap 1 Dot))
             (fun m => match group 1 m with Some g => g | None => EmptyString end) x.

(** [/^([^\s]+)/] *)
Definition UNQUOTED : re :=
  Seq Bol (Cap 1 (Plus (Cls (fun c => negb (JS.isWhiteSpace c))))).

Definition isQuote (o : option ascii) : bool :=
  match o with
  | Some c => Ascii.eqb c (ascii_of_nat 34) || Ascii.eqb c "'"
  | None => false
  end.

(** [extractFlag(command, flag)]; [None] is [undefined]. *)
Definition extractFlag (command flag : string) : option string :=
  let flagPattern := Seq (Lit ("--" ++ flag)) (Plus Space) in
  match exec flagPattern command with
  | None => None
  | Some flagMatch =>
      let rest := RegExp.rest (final flagMatch) in
      let quoteChar := next rest in
      if isQuote quoteChar then
        match rest with
        | String q tail =>
            match closingQuote q q EmptyString tail with
            | Some inner => Some (unescape inner)
            | None => Some tail                       (* no closing quote *)
            end
        | EmptyString => None
        end
      else
        match exec UNQUOTED rest with
        | Some unquotedMatch => group 1 unquotedMatch
        | None => None
        end
  end.

(** [GhToolResult] *)
Record GhToolResult : Type := mkResult {
  text : string;
  details : option (Z * option string);   (* exitCode, account *)
  isError : option bool
}.

(** What the tool reads from its [GhToolContext] at the start of a call. *)
Record Ctx : Type := mkCtx {
  authError : option string;
  getRepoOwner : option string;
  getAccount : string;
  getConfigDir : string
}.

(** How the promise of [showConfirmModal] settles. *)
Inductive ModalOutcome : Type :=
| Resolved (confirmed : bool)
| Rejected (error : string).

(** The body of [execute] as the sequence of its accesses to the
    module-level [confirmationInProgress] and of its two awaits. *)
Inductive Prog (A : Type) : Type :=
| Ret (a : A)
| Throw (error : string)
| ReadFlag (k : bool -> Prog A)
| WriteFlag (b : bool) (k : Prog A)
| ShowConfirmModal (command account : string) (k : ModalOutcome -> Prog A)
| PiExec (cmd : string) (args : list string) (k : ExecResult -> Prog A).
Arguments Ret {A} a.
Arguments Throw {A} error.
Arguments ReadFlag {A} k.
Arguments WriteFlag {A} b k.
Arguments ShowConfirmModal {A} command account k.
Arguments PiExec {A} cmd args k.

Definition REPO_FLAG_MESSAGE : string :=
  "The --repo flag is not supported. Repo-scoped commands must be run from within the repository directory. Use the workspace tool to open a session in the correct repo, or cd there first.".

Definition NOT_IN_REPO_MESSAGE : string :=
  "Not in a GitHub repository. Repo-scoped commands (pr, issue, release, etc.) must be run from within a GitHub repo directory. Use the workspace tool to open a session in the correct repo, or cd there first.".

Definition WAIT_MESSAGE : string :=
  "A GitHub confirmation is already awaiting user feedback. Wait for the user to respond before calling this tool again.".

(** The dash of the source text is kept as its UTF-8 bytes. *)
Definition CANCELLED_MESSAGE : string :=
  "User pressed escape — action cancelled. They want to discuss before proceeding. Ask what's on their mind. Do not attempt this action through other means (e.g., bash).".

(** The end of [execute]: run [gh] under the account's config dir. *)
Definition runGh (command account configDir : string) : Prog GhToolResult :=
  let fullCommand :=
    ("GH_CONFIG_DIR=" ++ dquote ++ configDir ++ dquote ++ " gh " ++ command)%string in
  PiExec "bash" ["-c"; fullCommand] (fun result =>
    let output :=
      JS.trim (JS.join newline
                 (filter (fun x => negb (String.eqb x EmptyString))
                         [stdout result; stderr result])) in
    let header := ("[" ++ account ++ "]")%string in
    let body := if String.eqb output EmptyString then "(no output)" else output in
    Ret (mkResult (header ++ " " ++ body)%string
                  (Some (code result, Some account))
                  (Some (negb (Z.eqb (code result) 0))))).

(** What follows the [await] of the modal: the [finally] clears the
    flag on either outcome, a rejection is rethrown. *)
Definition afterModal (command account configDir : string) (o : ModalOutcome)
  : Prog GhToolResult :=
  WriteFlag false
    match o with
    | Rejected e => Throw e
    | Resolved confirmed =>
        if negb confirmed
        then Ret (mkResult CANCELLED_MESSAGE (Some ((-1)%Z, Some account)) (Some true))
        else runGh command account configDir
    end.

(** [execute(_toolCallId, params, signal, _onUpdate, extCtx)] *)
Definition execute (ctx : Ctx) (command : string) : Prog GhToolResult :=
  if truthy (authError ctx) then
    Ret (mkResult ("github: " ++ match authError ctx with Some e => e | None => "" end)%string
                  None (Some true))
  else
    let repoFlag := extractFlag command "repo" in
    let isGlobal := isGlobalCommand command in
    if negb isGlobal && truthy repoFlag then
      Ret (mkResult REPO_FLAG_MESSAGE None (Some true))
    else if negb isGlobal && negb (truthy (getRepoOwner ctx)) then
      Ret (mkResult NOT_IN_REPO_MESSAGE None (Some true))
    else
      let account := getAccount ctx in
      let configDir := getConfigDir ctx in
      if negb (isReadOnly command) then
        ReadFlag (fun confirmationInProgress =>
          if confirmationInProgress then
            Ret (mkResult WAIT_MESSAGE None (Some true))
          else
            WriteFlag true
              (ShowConfirmModal command account (afterModal command account configDir)))
      else runGh command account configDir.

(** *** The process around the tool

    One JavaScript thread: a call runs until its next [await], then
    any other call may start or any settled promise may resume its
    awaiter. *)

(** Run until the next [await] or the end. *)
Fixpoint runSync {A} (flag : bool) (p : Prog A) : bool * Prog A :=
  match p with
  | ReadFlag k => runSync flag (k flag)
  | WriteFlag b k => runSync b k
  | _ => (flag, p)
  end.

Record Sys : Type := mkSys {
  confirmationInProgress : bool;
  awaiting : list (Prog GhToolResult)    (* the suspended calls *)
}.

(** Initially: [let confirmationInProgress = false], nothing running. *)
Definition init : Sys := mkSys false [].

Inductive Event : Type :=
| Call (ctx : Ctx) (command : string)
| ModalSettles (i : nat) (o : ModalOutcome)
| ExecSettles (i : nat) (r : ExecResult).

(** What the caller of the call that just ran sees. *)
Inductive Obs : Type :=
| Returned (r : GhToolResult)
| Threw (error : string)
| Suspended.

Definition settle (others : list (Prog GhToolResult)) (fp : bool * Prog GhToolResult)
  : Sys * Obs :=
  let '(flag, p) := fp in
  match p with
  | Ret r => (mkSys flag others, Returned r)
  | Throw e => (mkSys flag others, Threw e)
  | _ => (mkSys flag (others ++ [p]), Suspended)
  end.

Definition without {A} (i : nat) (l : list A) : list A :=
  firstn i l ++ skipn (S i) l.

(** One turn of the event loop; [None] when the event is not enabled. *)
Definition step (s : Sys) (e : Event) : option (Sys * Obs) :=
  match e with
  | Call ctx command =>
      Some (settle (awaiting s) (runSync (confirmationInProgress s) (execute ctx command)))
  | ModalSettles i o =>
      match nth_error (awaiting s) i with
      | Some (ShowConfirmModal _ _ k) =>
          Some (settle (without i (awaiting s))
                       (runSync (confirmationInProgress s) (k o)))
      | _ => None
      end
  | ExecSettles i r =>
      match nth_error (awaiting s) i with
      | Some (PiExec _ _ k) =>
          Some (settle (without i (awaiting s))
                       (runSync (confirmationInProgress s) (k r)))
      | _ => None
      end
  end.

Fixpoint steps (s : Sys) (es : list Event) : option Sys :=
  match es with
  | [] => Some s
  | e :: es' =>
      match step s e with
      | Some (s', _) => steps s' es'
      | None => None
      end
  end.

Definition reachable (s : Sys) : Prop := exists es, steps init es = Some s.



End GithubTool.



(* ------------------------------------------------------------------ *)
(** ** The gh_agent extension: argument parsing, session start, the tool *)

Module GhAgentTool.

Definition isQuoteChar (c : ascii) : bool :=
  Ascii.eqb c (ascii_of_nat 34) || Ascii.eqb c "'".

Definition isBlank (c : ascii) : bool :=
  Ascii.eqb c " " || Ascii.eqb c (ascii_of_nat 9).

Definition nonEmpty (s : string) : bool :=
  match s with EmptyString => false | String _ _ => true end.

(** The [for] loop of [parseCommand] over what is left of [command],
    with its three variables, and the final push. *)
Fixpoint parseLoop (args : list string) (current : string) (inQuote : option ascii)
    (s : string) : list string :=
  match s with
  | EmptyString => if nonEmpty current then args ++ [current] else args
  | String char s' =>
      match inQuote with
      | Some q =>
          if Ascii.eqb char q then parseLoop args current None s'
          else parseLoop args (current ++ String char EmptyString)%string inQuote s'
      | None =>
          if isQuoteChar char then parseLoop args current (Some char) s'
          else if isBlank char then
            if nonEmpty current then parseLoop (args ++ [current]) EmptyString None s'
            else parseLoop args current None s'
          else parseLoop args (current ++ String char EmptyString)%string None s'
      end
  end.

(** [parseCommand(command)] *)
Definition parseCommand (command : string) : list string :=
  parseLoop [] EmptyString None command.

(** What [readConfig] finds: the settings file read and parsed, with
    the value of [settings["gh-agent"]?.user] ([None] when it is absent
    or not truthy), or the error thrown by the read or the parse. *)
Inductive Settings : Type :=
| Parsed (user : option string)
| NoEntry                         (* code === "ENOENT" *)
| Failure (e : string).

(** [readConfig()], given the settings path and what is there. *)
Definition readConfig (settingsPath : string) (found : Settings) : string + string :=
  match found with
  | Parsed (Some (String c u)) => inl (String c u)
  | Parsed _ =>
      inr ("Missing gh-agent.user in " ++ settingsPath ++ ". Add: { "
           ++ dquote ++ "gh-agent" ++ dquote ++ ": { " ++ dquote ++ "user" ++ dquote ++ ": "
           ++ dquote ++ "your-agent-username" ++ dquote ++ " } }")%string
  | NoEntry => inr ("Settings file not found: " ++ settingsPath)%string
  | Failure e => inr ("Failed to read settings: " ++ e)%string
  end.

(** The two variables of the extension. *)
Record State : Type := mkState {
  agentToken : option string;
  configError : option string
}.

Definition initial : State := mkState None None.

(** [pi.exec(cmd, args, { env: { GH_TOKEN } })] and what follows it. *)
Inductive Prog (A : Type) : Type :=
| Ret (a : A)
| PiExec (cmd : string) (args : list string) (ghToken : option string)
         (k : ExecResult -> Prog A).
Arguments Ret {A} a.
Arguments PiExec {A} cmd args ghToken k.

(** The [session_start] handler: the state it leaves. *)
Definition sessionStart (settingsPath : string) (found : Settings) (st : State)
  : Prog State :=
  match readConfig settingsPath found with
  | inr error => Ret (mkState (agentToken st) (Some error))
  | inl user =>
      PiExec "gh" ["auth"; "token"; "-u"; user] None (fun result =>
        if negb (Z.eqb (code result) 0) then
          Ret (mkState (agentToken st)
                 (Some ("Failed to get token for " ++ user ++ ": " ++ stderr result
                        ++ ". Run: gh auth login")%string))
        else Ret (mkState (Some (JS.trim (stdout result))) (configError st)))
  end.

(** The tool result. *)
Record ToolResult : Type := mkResult {
  text : string;
  details : option Z;          (* exitCode *)
  isError : bool
}.

Definition orEmpty (o : option string) : string :=
  match o with Some s => s | None => EmptyString end.

(** [execute(_toolCallId, params, signal, _onUpdate, _ctx)] *)
Definition execute (st : State) (command : string) : Prog ToolResult :=
  if truthy (configError st) then
    Ret (mkResult ("Configuration error: " ++ orEmpty (configError st))%string None true)
  else if negb (truthy (agentToken st)) then
    Ret (mkResult "Agent token not available. Check gh-agent configuration." None true)
  else
    let validation := GhAgent.isCommandAllowed command in
    if negb (GhAgent.allowed validation) then
      Ret (mkResult ("Command not allowed: " ++ orEmpty (GhAgent.reason validation))%string
                    None true)
    else
      let args := parseCommand command in
      PiExec "gh" args (agentToken st) (fun result =>
        let output :=
          JS.trim (JS.join newline
                     (filter nonEmpty [stdout result; stderr result])) in
        Ret (mkResult (if nonEmpty output then output else "(no output)")
                      (Some (code result))
                      (negb (Z.eqb (code result) 0)))).

(** One subprocess as the run sees it. *)
Record Spawn : Type := mkSpawn {
  spawnCmd : string;
  spawnArgs : list string;
  spawnToken : option string
}.

(** Run against an answer for every subprocess; the trace lists them. *)
Fixpoint run {A} (answer : string -> list string -> ExecResult) (p : Prog A)
  : A * list Spawn :=
  match p with
  | Ret a => (a, [])
  | PiExec cmd args token k =>
      let '(a, t) := run answer (k (answer cmd args)) in
      (a, mkSpawn cmd args token :: t)
  end.

End GhAgentTool.

(* ------------------------------------------------------------------ *)
(** ** identity.ts: the config directories *)

Module IdentityPaths.
Section Host.
(** Node's [path.join] and [os.homedir()]. *)
Variable join : list string -> string.
Variable homedir : string.

(** [getGhConfigBase()] *)
Definition getGhConfigBase : string := join [homedir; ".pi"; "agent"; "gh-config"].

(** [getConfigDir(account)] *)
Definition getConfigDir (account : string) : string := join [getGhConfigBase; account].

(** [getAuthCommand(account)] *)
Definition getAuthCommand (account : string) : string :=
  let configDir :=
    RegExp.replaceAll (RegExp.Lit "\") (fun _ => "/") (getConfigDir account) in
  ("GH_CONFIG_DIR=" ++ dquote ++ configDir ++ dquote ++ " gh auth login")%string.
End Host.
End IdentityPaths.

(* ------------------------------------------------------------------ *)
(** ** gh-command.ts and the bash override that calls it *)

Module GhCommand.
Import RegExp.

(** The class [[;&|()]]. *)
Definition shellOperator (c : ascii) : bool :=
  Ascii.eqb c ";" || Ascii.eqb c "&" || Ascii.eqb c "|"
  || Ascii.eqb c "(" || Ascii.eqb c ")".

(** [/(?:^|[;&|()]|\$\()\s*gh\s/] *)
Definition GH_INVOCATION : re :=
  Seq (Alt Bol (Alt (Cls shellOperator) (Lit "$(")))
      (Seq (Star Space) (Seq (Lit "gh") Space)).

(** [containsGhCommand(command)] *)
Definition containsGhCommand (command : string) : bool := test GH_INVOCATION command.

(** [CommandResult] *)
Record CommandResult : Type := mkResult {
  text : string;
  details : option Z;          (* exitCode *)
  isError : bool
}.

(** The calls to the outside: [pi.exec], and the bash tool that the
    override wraps. *)
Inductive Prog (A : Type) : Type :=
| Ret (a : A)
| PiExec (cmd : string) (args : list string) (k : ExecResult -> Prog A)
| BaseBash (command : string) (k : CommandResult -> Prog A).
Arguments Ret {A} a.
Arguments PiExec {A} cmd args k.
Arguments BaseBash {A} command k.

(** [executeGhCommand(command, ctx, signal)], with [ctx.authError] and
    the value of [ctx.getConfigDir()]. *)
Definition executeGhCommand (command : string) (authError : option string)
    (configDir : string) : Prog CommandResult :=
  if truthy authError then
    Ret (mkResult ("github: " ++ match authError with Some e => e | None => "" end)%string
                  None true)
  else
    let wrappedCommand :=
      ("GH_CONFIG_DIR=" ++ dquote ++ configDir ++ dquote ++ " " ++ command)%string in
    PiExec "bash" ["-c"; wrappedCommand] (fun result =>
      let output :=
        JS.trim (JS.join newline
                   (filter GhAgentTool.nonEmpty [stdout result; stderr result])) in
      Ret (mkResult (if GhAgentTool.nonEmpty output then output else "(no output)")
                    (Some (code result))
                    (negb (Z.eqb (code result) 0)))).

(** [detectRepoOwner()] *)
Definition detectRepoOwner {A} (k : option string -> Prog A) : Prog A :=
  PiExec "git" ["remote"; "get-url"; "origin"] (fun result =>
    if negb (Z.eqb (code result) 0) then k None
    else k (Identity.parseRepoOwner (JS.trim (stdout result)))).

Fixpoint bind {A B} (p : Prog A) (f : A -> Prog B) : Prog B :=
  match p with
  | Ret a => f a
  | PiExec cmd args k => PiExec cmd args (fun x => bind (k x) f)
  | BaseBash c k => BaseBash c (fun x => bind (k x) f)
  end.

(** The overriding [execute] of the bash tool: the result and the
    value it leaves in [currentRepoOwner]. *)
Definition bashExecute (join : list string -> string) (homedir : string)
    (authError : option string) (currentRepoOwner : option string) (command : string)
  : Prog (CommandResult * option string) :=
  if containsGhCommand command then
    detectRepoOwner (fun owner =>
      bind (executeGhCommand command authError
              (IdentityPaths.getConfigDir join homedir (Identity.getAccountForRepo owner)))
           (fun r => Ret (r, owner)))
  else BaseBash command (fun r => Ret (r, currentRepoOwner)).

(** Run against an answer for every subprocess and for the wrapped bash
    tool; the trace lists the subprocesses and the delegated commands. *)
Inductive Call : Type :=
| Spawned (cmd : string) (args : list string)
| Delegated (command : string).

Fixpoint run {A} (answer : string -> list string -> ExecResult)
    (base : string -> CommandResult) (p : Prog A) : A * list Call :=
  match p with
  | Ret a => (a, [])
  | PiExec cmd args k =>
      let '(a, t) := run answer base (k (answer cmd args)) in (a, Spawned cmd args :: t)
  | BaseBash command k =>
      let '(a, t) := run answer base (k (base command)) in (a, Delegated command :: t)
  end.

End GhCommand.

(* ------------------------------------------------------------------ *)
(** ** collaboration.ts: the concepts of the session *)

Module Session.

(** [sessionConcepts]: name -> reference count. *)
Definition Concepts : Type := list (string * nat).

(** [/concept all]: the session and the number of concepts newly loaded. *)
Definition loadAll (available : list string) (session : Concepts) : Concepts * nat :=
  fold_left
    (fun (acc : Concepts * nat) name =>
       if negb (JsMap.has (fst acc) name)
       then (JsMap.set (fst acc) name 1, S (snd acc))
       else acc)
    available (session, 0).

(** The entry chosen in the action menu of a loaded concept; the
    handler tells them apart by [startsWith("+1")] and the like. *)
Inductive Action : Type := Boost | Reduce | Unload.

(** [/concept] after a concept [name] was selected: [action] is the
    answer of the second menu, [None] when it was dismissed; a concept
    that is not loaded is loaded without a second menu. *)
Definition onSelected (session : Concepts) (name : string) (action : option Action)
  : Concepts :=
  match JsMap.get session name with
  | Some currentCount =>
      match action with
      | None => session
      | Some Boost => JsMap.set session name (currentCount + 1)
      | Some Reduce =>
          if Nat.leb currentCount 1 then JsMap.delete session name
          else JsMap.set session name (currentCount - 1)
      | Some Unload => JsMap.delete session name
      end
  | None => JsMap.set session name 1
  end.

(** [before_agent_start]: "Merge auto-loaded counts into session". *)
Definition mergeCounts (session : Concepts) (counts : list (string * nat)) : Concepts :=
  fold_left (fun s (e : string * nat) => JsMap.set s (fst e) (JsMap.getOr0 s (fst e) + snd e))
            counts session.

(** [`${PREAMBLE}\n${event.systemPrompt}\n${event.prompt}`] *)
Definition allText (preamble systemPrompt prompt : string) : string :=
  (preamble ++ newline ++ systemPrompt ++ newline ++ prompt)%string.

(** What [before_agent_start] does to the session, and the names it
    warns about as missing. *)
Definition beforeAgentStart (fs : Collaboration.FileSystem)
    (preamble systemPrompt prompt : string) (session : Concepts)
  : option (Concepts * list string) :=
  match Collaboration.loadConceptsRecursively fs (allText preamble systemPrompt prompt)
          Collaboration.emptyAcc with
  | Some r => Some (mergeCounts session (Collaboration.counts r), Collaboration.missing r)
  | None => None
  end.

(** [session_start]: [sessionConcepts.clear()]. *)
Definition sessionStart (session : Concepts) : Concepts := [].

(** What can happen to the session. *)
Inductive Event : Type :=
| ConceptAll (available : list string)
| ConceptSelected (name : string) (action : option Action)
| BeforeAgentStart (fs : Collaboration.FileSystem) (preamble systemPrompt prompt : string)
| SessionStart.

Definition handle (session : Concepts) (e : Event) : option Concepts :=
  match e with
  | ConceptAll available => Some (fst (loadAll available session))
  | ConceptSelected name action => Some (onSelected session name action)
  | BeforeAgentStart fs preamble systemPrompt prompt =>
      option_map fst (beforeAgentStart fs preamble systemPrompt prompt session)
  | SessionStart => Some (sessionStart session)
  end.

Fixpoint handleAll (session : Concepts) (es : list Event) : option Concepts :=
  match es with
  | [] => Some session
  | e :: es' =>
      match handle session e with
      | Some session' => handleAll session' es'
      | None => None
      end
  end.

End Session.

(* ------------------------------------------------------------------ *)
(** ** The confirmation modal of the github tool: content and scrolling *)

Module ConfirmModal.

(** One entry of [ParsedCommand["sections"]]. *)
Record Entry : Type := mkEntry {
  label : string;
  value : string;
  multiline : bool
}.

(** [MAX_CONTENT_HEIGHT] *)
Definition MAX_CONTENT_HEIGHT : Z := 20.

Definition len {A} (l : list A) : Z := Z.of_nat (List.length l).

(** [arr.slice(from, to)] *)
Definition slice {A} (l : list A) (from to : Z) : list A :=
  let rel k := if (k <? 0)%Z then Z.max (len l + k) 0 else Z.min k (len l) in
  firstn (Z.to_nat (rel to - rel from)) (skipn (Z.to_nat (rel from)) l).



Section Theme.
(** [theme.fg], [theme.bold] and [wrapTextWithAnsi] of the host. *)
Variable fg : string -> string -> string.
Variable bold : string -> string.
Variable wrapTextWithAnsi : string -> Z -> list string.
(** The heavy horizontal line of the borders. *)
Variable heavyLine : string.
(** The arrows of the scroll indicators and of the footer. *)
Variables upArrow downArrow arrows : string.

(** [buildContentLines(sections, innerWidth, theme)] *)
Definition buildContentLines (sections : list Entry) (innerWidth : Z) : list string :=
  flat_map
    (fun section =>
       let lbl := fg "muted" (label section ++ ":") in
       if multiline section then
         [(" " ++ lbl)%string]
         ++ map (fun line => (" " ++ fg "text" line)%string)
                (wrapTextWithAnsi (value section) innerWidth)
         ++ [EmptyString]
       else [(" " ++ lbl ++ " " ++ fg "text" (value section))%string])
    sections.

(** The three variables of the component. *)
Record View : Type := mkView {
  scrollOffset : Z;
  contentLines : list string;
  lastWidth : Z
}.

Definition initialView : View := mkView 0 [] 0.

(** The rebuild at the head of [render]. *)
Definition rebuild (sections : list Entry) (v : View) (width : Z) : View :=
  if negb (Z.eqb width (lastWidth v)) then
    let contentLines := buildContentLines sections (width - 2) in
    let maxScroll := Z.max 0 (len contentLines - MAX_CONTENT_HEIGHT) in
    mkView (Z.min (scrollOffset v) maxScroll) contentLines width
  else v.


(** [invalidate()] *)
Definition invalidate (v : View) : View :=
  mkView (scrollOffset v) (contentLines v) 0.

(** The keys that [handleInput] tells apart with [matchesKey]. *)
Inductive Key : Type := Enter | Escape | Up | Down | Other.

(** [handleInput(data)]: the view it leaves, the value passed to
    [done] if any, and whether [tui.requestRender()] was called. *)
Definition handleInput (v : View) (key : Key) : View * option bool * bool :=
  match key with
  | Enter => (v, Some true, false)
  | Escape => (v, Some false, false)
  | Up =>
      if (0 <? scrollOffset v)%Z
      then (mkView (scrollOffset v - 1) (contentLines v) (lastWidth v), None, true)
      else (v, None, false)
  | Down =>
      let maxScroll := Z.max 0 (len (contentLines v) - MAX_CONTENT_HEIGHT) in
      if (scrollOffset v <? maxScroll)%Z
      then (mkView (scrollOffset v + 1) (contentLines v) (lastWidth v), None, true)
      else (v, None, false)
  | Other => (v, None, false)
  end.

(** What the terminal does to the component. *)
Inductive Input : Type :=
| Render (width : Z)
| Invalidate
| Press (key : Key).

Definition react (sections : list Entry) (v : View) (i : Input) : View :=
  match i with
  | Render width => rebuild sections v width
  | Invalidate => invalidate v
  | Press key => fst (fst (handleInput v key))
  end.

End Theme.

End ConfirmModal.

(* ------------------------------------------------------------------ *)
(** ** Vocabulary of the statements *)

(** The longest prefix of [s] inside the class [f], and what follows it. *)
Fixpoint span (f : ascii -> bool) (s : string) : string * string :=
  match s with
  | EmptyString => (EmptyString, EmptyString)
  | String c s' =>
      if f c then let '(a, b) := span f s' in (String c a, b)
      else (EmptyString, s)
  end.

(** Every code unit of [s] is in the class [f]. *)
Fixpoint allIn (f : ascii -> bool) (s : string) : bool :=
  match s with
  | EmptyString => true
  | String c s' => f c && allIn f s'
  end.

(** A path or name segment: not empty and free of [/]. *)
Definition segment (s : string) : bool :=
  negb (String.eqb s EmptyString) && allIn Identity.notSlash s.

(** The two documented shapes of a GitHub remote:
    [git@github.com:owner/repo] and [https://github.com/owner/repo],
    each with or without the [.git] suffix. *)
Definition remoteOf (scheme url owner : string) : Prop :=
  exists repo suffix,
    segment owner = true /\ segment repo = true /\
    (suffix = "" \/ suffix = ".git") /\
    url = (scheme ++ owner ++ "/" ++ repo ++ suffix)%string.

Definition sshRemote (url owner : string) : Prop := remoteOf "git@github.com:" url owner.
Definition httpsRemote (url owner : string) : Prop := remoteOf "https://github.com/" url owner.
Definition githubRemote (url owner : string) : Prop :=
  sshRemote url owner \/ httpsRemote url owner.

(** [seg] stands in [s] as a segment between [scheme] and a [/]; and
    some segment does.  For the two schemes these are the strings in
    which the pattern of [parseRepoOwner] has a match. *)
Definition embedsAs (scheme s seg : string) : Prop :=
  segment seg = true
  /\ exists pre post, s = (pre ++ scheme ++ seg ++ "/" ++ post)%string.

Definition embeds (scheme s : string) : Prop := exists seg, embedsAs scheme s seg.

Definition notSpace (c : ascii) : bool := negb (JS.isWhiteSpace c).

(** The whitespace-separated tokens of a command, as [isCommandAllowed]
    takes them. *)
Definition tokens (command : string) : list string :=
  RegExp.split (RegExp.Plus RegExp.Space) (JS.trim command).

(** The reason given for a command outside the allow list. *)
Definition notInAllowList (cmdSubcmd : string) : string :=
  ("Command not in allow list: " ++ cmdSubcmd
   ++ ". Allowed: issue create, issue comment, issue view, issue list, issue edit, "
   ++ "pr create, pr comment, pr view, pr list, pr diff, pr review, pr edit")%string.

(** The conventional place of a checkout, [<reposRoot>/<owner>/<repo>],
    under a given [path.join] and home directory. *)
Definition expectedPath (join : list string -> string) (homedir owner repoName : string)
  : string :=
  join [join [homedir; "repos"]; owner; repoName].

(** The not-found result of the workspace tool. *)
Definition notFound (repo path : string) : Workspace.ToolResult :=
  Workspace.mkResult
    ("Repo not found locally: " ++ repo ++ newline ++ "Expected at: " ++ path
     ++ newline ++ newline ++ "Clone it first, or check the path.")%string
    (Some true).

(** How often the marker of [name] is matched in [text]. *)
Definition occurrences (text name : string) : nat :=
  count_occ string_dec (Collaboration.markerNames text) name.

(** The count that a list of marker entries holds for [name]. *)
Fixpoint sumFor (name : string) (entries : list (string * nat)) : nat :=
  match entries with
  | [] => 0
  | (k, v) :: entries' => (if String.eqb k name then v else 0) + sumFor name entries'
  end.

(** The matches of [name] in the contents of the loaded documents. *)
Fixpoint inDocuments (name : string) (docs : list (string * string)) : nat :=
  match docs with
  | [] => 0
  | (_, content) :: docs' => occurrences content name + inDocuments name docs'
  end.

(** The documents on disk that are not loaded yet. *)
Definition unloaded (fs : Collaboration.FileSystem) (loaded : list (string * string)) : nat :=
  List.length (filter (fun e => negb (JsMap.has loaded (fst e))) fs).

(** [name] has been dealt with: it is loaded or recorded as missing. *)
Definition seen (acc : Collaboration.Acc) (name : string) : bool :=
  JsMap.has (Collaboration.loaded acc) name || JsSet.has (Collaboration.missing acc) name.

(** No name is both loaded and missing. *)
Definition disjoint (acc : Collaboration.Acc) : Prop :=
  forall name,
    JsMap.has (Collaboration.loaded acc) name && JsSet.has (Collaboration.missing acc) name
    = false.

(** The accumulators agree with the disk: what is loaded is the content
    on disk, what is missing is not on disk. *)
Definition faithful (fs : Collaboration.FileSystem) (acc : Collaboration.Acc) : Prop :=
  (forall name content,
      JsMap.get (Collaboration.loaded acc) name = Some content ->
      Collaboration.loadConceptFile fs name = Some content)
  /\ (forall name,
        JsSet.has (Collaboration.missing acc) name = true ->
        Collaboration.loadConceptFile fs name = None).

(** What one run of the loader, from [acc] to [acc'], has done with the
    markers [entries] it was given ([tallied x] is the count they hold
    for [x], [named x] says that [x] is among them): documents were
    only appended, nothing seen was forgotten, every count grew by the
    matches in the given markers and in the documents loaded by this
    run, and every marker met on the way has been dealt with. *)
Definition ranOver (tallied : string -> nat) (named : string -> Prop)
    (acc acc' : Collaboration.Acc) : Prop :=
  exists new,
    Collaboration.loaded acc' = Collaboration.loaded acc ++ new
    /\ (forall x, seen acc x = true -> seen acc' x = true)
    /\ (forall x, JsMap.getOr0 (Collaboration.counts acc') x
                  = JsMap.getOr0 (Collaboration.counts acc) x + tallied x
                    + inDocuments x new)
    /\ (forall x, named x -> seen acc' x = true)
    /\ (forall n c x, In (n, c) new -> In x (Collaboration.markerNames c) ->
                      seen acc' x = true).

(** The counts after the turn of the loop for [(name, count)]. *)
Definition bumped (acc : Collaboration.Acc) (name : string) (count : nat)
  : list (string * nat) :=
  JsMap.set (Collaboration.counts acc) name
            (JsMap.getOr0 (Collaboration.counts acc) name + count).

(** The marker of a concept, [`cf:name`]. *)
Definition marker (name : string) : string := ("`cf:" ++ name ++ "`")%string.

(** A concept name: one or more code units of [[A-Za-z0-9_-]]. *)
Definition validName (name : string) : bool :=
  negb (String.eqb name EmptyString) && allIn Collaboration.markerChar name.

(** The number of positions of [text] at which [pat] occurs. *)
Fixpoint countAt (pat text : string) : nat :=
  (if prefix pat text then 1 else 0)
  + match text with
    | String _ text' => countAt pat text'
    | EmptyString => 0
    end.

(** The number of occurrences of the literal marker of [name] in [text]. *)
Definition literalOccurrences (text name : string) : nat := countAt (marker name) text.

(** No backtick of [text] both closes one marker and opens the next:
    [text] has no substring [`cf:n`cf:m`]. *)
Definition noSharedBacktick (text : string) : Prop :=
  forall n m,
    validName n = true -> validName m = true ->
    JS.includes text ("`cf:" ++ n ++ "`cf:" ++ m ++ "`") = false.

Definition notBacktick (c : ascii) : bool := negb (Ascii.eqb c "`").

(** The checks of the github tool that come before the confirmation
    guard: no auth error, and for a repo-scoped command no [--repo]
    flag and a detected repo owner. *)
Definition passesChecks (ctx : GithubTool.Ctx) (command : string) : bool :=
  negb (truthy (GithubTool.authError ctx))
  && (GithubTool.isGlobalCommand command
      || (negb (truthy (GithubTool.extractFlag command "repo"))
          && truthy (GithubTool.getRepoOwner ctx))).




(** The result of the guard. *)
Definition waitResult : GithubTool.GhToolResult :=
  GithubTool.mkResult GithubTool.WAIT_MESSAGE None (Some true).

(** The agent's context in a [dyreby] repository. *)
Definition agentCtx : GithubTool.Ctx :=
  GithubTool.mkCtx None (Some "dyreby") "john-agent" "/home/u/.pi/agent/gh-config/john-agent".

(** The process after the agent asked for [pr merge 5] and before the
    user answered: the flag is set and the one call awaits its modal. *)
Definition promptOpen : GithubTool.Sys :=
  GithubTool.mkSys true
    [GithubTool.ShowConfirmModal "pr merge 5" (GithubTool.getAccount agentCtx)
       (GithubTool.afterModal "pr merge 5" (GithubTool.getAccount agentCtx)
          (GithubTool.getConfigDir agentCtx))].

(** A test for [noSharedBacktick]: wherever the marker pattern matches,
    it does not match again from the closing backtick of that match. *)
Fixpoint sharedFree (text : string) : bool :=
  match RegExp.rmatch Collaboration.CONCEPT_MARKER_REGEX (RegExp.mkM None text []) with
  | st :: _ =>
      match RegExp.rmatch Collaboration.CONCEPT_MARKER_REGEX
              (RegExp.mkM None (String "`" (RegExp.rest st)) []) with
      | [] => true
      | _ :: _ => false
      end
  | [] => true
  end
  && match text with
     | String _ text' => sharedFree text'
     | EmptyString => true
     end.

(* ------------------------------------------------------------------ *)
(** ** Vocabulary of the further statements *)

(** [s] with every [ch] replaced by [repl]. *)
Fixpoint substChar (ch : ascii) (repl : string) (s : string) : string :=
  match s with
  | EmptyString => EmptyString
  | String c s' =>
      ((if Ascii.eqb c ch then repl else String c EmptyString) ++ substChar ch repl s')%string
  end.

(** The first code unit of [s] is not whitespace. *)
Definition startsSolid (s : string) : bool :=
  match s with
  | String c _ => negb (JS.isWhiteSpace c)
  | EmptyString => false
  end.

(** [c] is not [ch]. *)
Definition differs (ch : ascii) (c : ascii) : bool := negb (Ascii.eqb c ch).

(** How often [ch] occurs in [s]. *)
Fixpoint countChar (ch : ascii) (s : string) : nat :=
  match s with
  | EmptyString => 0
  | String c s' => (if Ascii.eqb c ch then 1 else 0) + countChar ch s'
  end.

(** The result of the workspace tool for an argument that is not
    [owner/repo]. *)
Definition invalidRepo (repo : string) : Workspace.ToolResult :=
  Workspace.mkResult
    ("Invalid repo format: " ++ dquote ++ repo ++ dquote ++ ". Expected " ++ dquote
     ++ "owner/repo" ++ dquote ++ ".")%string
    (Some true).







(** A code unit that [parseCommand] of gh_agent takes as it is:
    neither a quote nor a blank. *)
Definition plain (c : ascii) : bool :=
  negb (GhAgentTool.isQuoteChar c) && negb (GhAgentTool.isBlank c).

(** A non-empty word of plain code units. *)
Definition plainWord (a : string) : bool := GhAgentTool.nonEmpty a && allIn plain a.

(** The conditions under which the gh_agent tool runs [gh]. *)
Definition ghAgentReady (st : GhAgentTool.State) (command : string) : bool :=
  negb (truthy (GhAgentTool.configError st))
  && truthy (GhAgentTool.agentToken st)
  && GhAgent.allowed (GhAgent.isCommandAllowed command).

(** The HTTP method as [isCommandAllowed] reads it: the token after
    the first [-X], upper-cased, [GET] without [-X], and [None] (for
    [undefined]) when [-X] is the last token. *)
Definition methodOf (parts : list string) : option string :=
  match JS.indexOf parts "-X" with
  | Some k => option_map JS.toUpperCase (JS.at_ parts (k + 1))
  | None => Some "GET"
  end.

(** A pattern segment admits an endpoint segment. *)
Definition admits (p e : string) : Prop := p = "*" \/ p = e.

(** [gh] as a word at the head of [t]: whitespace or nothing, the
    letters [gh], one whitespace unit. *)
Definition ghWord (t : string) : Prop :=
  exists ws sp tail,
    t = (ws ++ "gh" ++ String sp tail)%string
    /\ allIn JS.isWhiteSpace ws = true /\ JS.isWhiteSpace sp = true.

(** [gh] as a word at the start of the command or right after one of
    the code units [; & | ( )]. *)
Definition ghInvoked (command : string) : Prop :=
  ghWord command
  \/ exists pre o t,
       command = (pre ++ String o t)%string
       /\ GhCommand.shellOperator o = true /\ ghWord t.

(** The probe for the repository owner and the wrapped command of the
    bash override. *)
Definition gitProbe : GhCommand.Call :=
  GhCommand.Spawned "git" ["remote"; "get-url"; "origin"].

Definition wrapped (configDir command : string) : GhCommand.Call :=
  GhCommand.Spawned "bash"
    ["-c"; ("GH_CONFIG_DIR=" ++ dquote ++ configDir ++ dquote ++ " " ++ command)%string].

(** The owner the probe's answer gives. *)
Definition ownerFrom (probe : ExecResult) : option string :=
  if Z.eqb (code probe) 0 then Identity.parseRepoOwner (JS.trim (stdout probe)) else None.

(** The part of [GH_INVOCATION] behind its first group: [\s*gh\s]. *)
Definition GH_TAIL : RegExp.re :=
  RegExp.Seq (RegExp.Star RegExp.Space) (RegExp.Seq (RegExp.Lit "gh") RegExp.Space).

(** The nouns and verbs of the first read-only pattern, and the first
    words of the other five. *)
Definition readNouns : list string := ["pr"; "issue"; "release"; "repo"].
Definition readVerbs : list string := ["list"; "view"; "status"; "diff"; "checks"; "ready"].
Definition otherReadHeads : list string := ["auth"; "api"; "search"; "browse"].

(** A run of whitespace, at least one unit long. *)
Definition blanks (ws : string) : Prop :=
  ws <> EmptyString /\ allIn JS.isWhiteSpace ws = true.

(** The body of the first read-only pattern, behind its [^]. *)
Definition NOUN_VERB : RegExp.re :=
  RegExp.Seq (RegExp.Cap 1 (GithubTool.alts readNouns))
    (RegExp.Seq (RegExp.Plus RegExp.Space) (RegExp.Cap 2 (GithubTool.alts readVerbs))).

(** The scroll offset stays inside the content. *)
Definition inRange (v : ConfirmModal.View) : Prop :=
  (0 <= ConfirmModal.scrollOffset v
   <= Z.max 0 (ConfirmModal.len (ConfirmModal.contentLines v)
               - ConfirmModal.MAX_CONTENT_HEIGHT))%Z.

(** A marker of [x] is matched in the root text or in a document that
    the run [r] loaded. *)
Definition referenced (text : string) (r : Collaboration.Acc) (x : string) : Prop :=
  In x (Collaboration.markerNames text)
  \/ exists n c, In (n, c) (Collaboration.loaded r) /\ In x (Collaboration.markerNames c).

(** Every count of the map is at least one. *)
Definition positive (m : list (string * nat)) : Prop := forall k v, In (k, v) m -> 0 < v.

(** The names that were dealt with are counted. *)
Definition countedWhenSeen (acc : Collaboration.Acc) : Prop :=
  forall x, seen acc x = true -> 0 < JsMap.getOr0 (Collaboration.counts acc) x.

(** The counts have a key exactly for the names that were dealt with. *)
Definition keysAreSeen (acc : Collaboration.Acc) : Prop :=
  forall x, JsMap.has (Collaboration.counts acc) x = seen acc x.

(** The counts hold one entry per name: what the entries of a name sum
    to is what [get] finds. *)
Definition singleEntries (acc : Collaboration.Acc) : Prop :=
  forall x, sumFor x (Collaboration.counts acc) = JsMap.getOr0 (Collaboration.counts acc) x.

(** What a suspended call of the github tool waits for: the modal,
    with the command and the account it shows, or a process, with its
    command and arguments. *)
Definition prompts (p : GithubTool.Prog GithubTool.GhToolResult) : option (string * string) :=
  match p with
  | GithubTool.ShowConfirmModal command account _ => Some (command, account)
  | _ => None
  end.

Definition spawns (p : GithubTool.Prog GithubTool.GhToolResult)
  : option (string * list string) :=
  match p with
  | GithubTool.PiExec cmd args _ => Some (cmd, args)
  | _ => None
  end.

(** The shell line that runs [gh command] on the credentials kept in
    [configDir]. *)
Definition ghLine (configDir command : string) : string :=
  ("GH_CONFIG_DIR=" ++ dquote ++ configDir ++ dquote ++ " gh " ++ command)%string.

(** What is reported of a finished process: its stdout and stderr,
    those that are not empty, joined by a newline and trimmed; a
    placeholder when nothing is left. *)
Definition ghOutput (r : ExecResult) : string :=
  match JS.trim (JS.join newline
                   (filter (fun x => negb (String.eqb x EmptyString))
                           [stdout r; stderr r])) with
  | EmptyString => "(no output)"
  | output => output
  end.

(** The result of the github tool for a finished [gh]: the output
    under the account's header, the exit code with the account, and
    [isError] when the exit code is not zero. *)
Definition ghResult (account : string) (r : ExecResult) : GithubTool.GhToolResult :=
  GithubTool.mkResult ("[" ++ account ++ "] " ++ ghOutput r)%string
                      (Some (code r, Some account))
                      (Some (negb (Z.eqb (code r) 0))).

(** The result of the github tool when the user pressed escape. *)
Definition cancellation (account : string) : GithubTool.GhToolResult :=
  GithubTool.mkResult
    "User pressed escape — action cancelled. They want to discuss before proceeding. Ask what's on their mind. Do not attempt this action through other means (e.g., bash)."
    (Some ((-1)%Z, Some account)) (Some true).

(* ------------------------------------------------------------------ *)
(** ** Strings *)

Section StringFacts.

Lemma append_nil_r (s : string) : (s ++ "")%string = s.
Proof. induction s as [|c s IH]; simpl; congruence. Qed.

Lemma append_assoc (a b c : string) :
  ((a ++ b) ++ c)%string = (a ++ (b ++ c))%string.
Proof. induction a as [|x a IH]; simpl; congruence. Qed.

Lemma length_append (a b : string) :
  String.length (a ++ b) = String.length a + String.length b.
Proof. induction a as [|x a IH]; simpl; congruence. Qed.

Lemma prefix_append (a b : string) : prefix a (a ++ b) = true.
Proof.
  induction a as [|x a IH]; simpl.
  - now destruct b.
  - destruct (ascii_dec x x); [assumption | congruence].
Qed.

Lemma prefix_split (a s : string) :
  prefix a s = true -> exists b, s = (a ++ b)%string.
Proof.
  revert s; induction a as [|x a IH]; intros s H.
  - now exists s.
  - destruct s as [|y s]; simpl in H; [discriminate|].
    destruct (ascii_dec x y); [subst|discriminate].
    destruct (IH _ H) as [b ->]. now exists b.
Qed.

Lemma prefix_head_neq (a b : ascii) (s1 s2 : string) :
  a <> b -> prefix (String a s1) (String b s2) = false.
Proof. intros H. cbn [prefix]. destruct (ascii_dec a b); [contradiction|reflexivity]. Qed.

Lemma take_append (a b : string) : RegExp.take (String.length a) (a ++ b) = a.
Proof. induction a as [|x a IH]; simpl; [now destruct b | congruence]. Qed.

Lemma includes_prefix (s sub : string) :
  prefix sub s = true -> JS.includes s sub = true.
Proof. intros H. destruct s; simpl in *; rewrite H; reflexivity. Qed.

Lemma includes_append (a b sub : string) :
  JS.includes b sub = true -> JS.includes (a ++ b) sub = true.
Proof.
  induction a as [|x a IH]; simpl; intros H; [assumption|].
  rewrite (IH H). apply orb_true_r.
Qed.

Lemma includes_middle (a sub b : string) : JS.includes (a ++ sub ++ b) sub = true.
Proof. apply includes_append, includes_prefix, prefix_append. Qed.

Lemma includes_tail (c : ascii) (s sub : string) :
  JS.includes (String c s) sub = false -> JS.includes s sub = false.
Proof. simpl. intros H. now apply orb_false_elim in H. Qed.

Lemma includes_head (s sub : string) :
  JS.includes s sub = false -> prefix sub s = false.
Proof. destruct s; simpl; intros H; now apply orb_false_elim in H. Qed.

Lemma span_append (f : ascii -> bool) (a : string) (c : ascii) (b : string) :
  allIn f a = true -> f c = false ->
  span f (a ++ String c b) = (a, String c b).
Proof.
  intros Ha Hc. induction a as [|x a IH]; simpl in *.
  - now rewrite Hc.
  - apply andb_prop in Ha as [Hx Ha]. now rewrite Hx, (IH Ha).
Qed.

Lemma span_allIn (f : ascii -> bool) (s : string) : allIn f (fst (span f s)) = true.
Proof.
  induction s as [|c s IH]; simpl; [reflexivity|].
  destruct (f c) eqn:E; [|reflexivity].
  destruct (span f s); simpl in *. now rewrite E.
Qed.

Lemma span_eq (f : ascii -> bool) (s : string) :
  s = (fst (span f s) ++ snd (span f s))%string.
Proof.
  induction s as [|c s IH]; simpl; [reflexivity|].
  destruct (f c); [|reflexivity].
  destruct (span f s); simpl in *. congruence.
Qed.

Lemma span_stop (f : ascii -> bool) (s : string) (c : ascii) (t : string) :
  snd (span f s) = String c t -> f c = false.
Proof.
  induction s as [|x s IH]; simpl; [discriminate|].
  destruct (f x) eqn:E.
  - destruct (span f s); simpl in *. exact IH.
  - simpl. intros H; injection H as -> _. exact E.
Qed.

End StringFacts.

(* ------------------------------------------------------------------ *)
(** ** The matcher on the shapes the source uses *)

Section MatcherFacts.
Import RegExp.

Lemma rmatch_Seq (a b : re) (st : MState) :
  rmatch (Seq a b) st = flat_map (rmatch b) (rmatch a st).
Proof. reflexivity. Qed.

Lemma rmatch_Lit (l : string) (st : MState) :
  rmatch (Lit l) st =
  match lit_step l (prev st) (rest st) with
  | Some (p, s) => [mkM p s (caps st)]
  | None => []
  end.
Proof. reflexivity. Qed.

Lemma rmatch_Cls (f : ascii -> bool) (st : MState) :
  rmatch (Cls f) st =
  match rest st with
  | String c s => if f c then [mkM (Some c) s (caps st)] else []
  | EmptyString => []
  end.
Proof. reflexivity. Qed.

Lemma rmatch_Cap (n : nat) (a : re) (st : MState) :
  rmatch (Cap n a) st =
  map (fun st' => mkM (prev st') (rest st') ((n, consumed st st') :: caps st'))
      (rmatch a st).
Proof. reflexivity. Qed.

Lemma lit_step_prefix (l : string) (p : option ascii) (s : string) :
  prefix l s = false -> lit_step l p s = None.
Proof.
  revert p s; induction l as [|c l IH]; intros p s H.
  - now destruct s.
  - destruct s as [|d s]; simpl in *; [reflexivity|].
    destruct (ascii_dec c d) as [->|n].
    + rewrite Ascii.eqb_refl. now apply IH.
    + apply Ascii.eqb_neq in n. now rewrite n.
Qed.

Lemma lit_step_append (l : string) (p : option ascii) (s : string) :
  exists q, lit_step l p (l ++ s) = Some (q, s).
Proof.
  revert p; induction l as [|c l IH]; intros p; simpl.
  - now exists p.
  - rewrite Ascii.eqb_refl. apply IH.
Qed.

Lemma lit_step_inv (l : string) (p q : option ascii) (s t : string) :
  lit_step l p s = Some (q, t) -> s = (l ++ t)%string.
Proof.
  revert p s; induction l as [|c l IH]; intros p s H; simpl in *.
  - congruence.
  - destruct s as [|d s]; [discriminate|].
    destruct (Ascii.eqb c d) eqn:E; [|discriminate].
    apply Ascii.eqb_eq in E; subst d. f_equal. eapply IH; eauto.
Qed.

(** [a*] over a class, one code unit at a time. *)
Lemma rmatch_star_cls (f : ascii -> bool) (p : option ascii) (s : string)
      (cs : list (nat * string)) :
  rmatch (Star (Cls f)) (mkM p s cs) =
  match s with
  | String c s' =>
      if f c then rmatch (Star (Cls f)) (mkM (Some c) s' cs) ++ [mkM p s cs]
      else [mkM p s cs]
  | EmptyString => [mkM p s cs]
  end.
Proof.
  destruct s as [|c s']; [reflexivity|].
  cbn [rmatch rest String.length caps prev].
  destruct (f c); [|reflexivity].
  cbn [flat_map rest String.length].
  assert (Nat.ltb (String.length s') (S (String.length s')) = true) as ->
      by (apply Nat.ltb_lt; lia).
  now rewrite app_nil_r.
Qed.

(** A run of a class under a capture, closed by a code unit outside
    the class: only the whole run can be followed by the closer, so
    there is at most one continuation. *)
Lemma run_then_closer (f : ascii -> bool) (c2 : ascii) (n : nat) (st0 : MState) :
  f c2 = false ->
  forall (s : string) (p : option ascii) (cs : list (nat * string)),
    flat_map (rmatch (Lit (String c2 EmptyString)))
      (map (fun st' => mkM (prev st') (rest st') ((n, consumed st0 st') :: caps st'))
           (rmatch (Star (Cls f)) (mkM p s cs))) =
    match snd (span f s) with
    | String d s3 =>
        if Ascii.eqb c2 d
        then [mkM (Some d) s3
                  ((n, take (String.length (rest st0) - S (String.length s3)) (rest st0))
                     :: cs)]
        else []
    | EmptyString => []
    end.
Proof.
  intros Hc2. induction s as [|c s IH]; intros p cs.
  - reflexivity.
  - rewrite rmatch_star_cls. simpl span. destruct (f c) eqn:E.
    + rewrite map_app, flat_map_app, IH.
      destruct (span f s) as [a b]. cbn [snd].
      cbn. assert (Ascii.eqb c2 c = false) as ->.
      { apply Ascii.eqb_neq. intros ->. congruence. }
      now rewrite app_nil_r.
    + cbn. destruct (Ascii.eqb c2 c); reflexivity.
Qed.

(** The shape [literal (class+) closer] of the three patterns that
    extract a name. *)
Definition framed (l : string) (f : ascii -> bool) (c2 : ascii) : re :=
  Seq (Lit l) (Seq (Cap 1 (Plus (Cls f))) (Lit (String c2 EmptyString))).

Lemma rmatch_framed (l : string) (f : ascii -> bool) (c2 : ascii)
      (p : option ascii) (s : string) (cs : list (nat * string)) :
  f c2 = false ->
  rmatch (framed l f c2) (mkM p s cs) =
  match lit_step l p s with
  | None => []
  | Some (_, s1) =>
      match s1 with
      | String c s1' =>
          if f c then
            match snd (span f s1') with
            | String d s3 =>
                if Ascii.eqb c2 d
                then [mkM (Some d) s3
                          ((1, take (String.length s1 - S (String.length s3)) s1) :: cs)]
                else []
            | EmptyString => []
            end
          else []
      | EmptyString => []
      end
  end.
Proof.
  intros Hc2. unfold framed, Plus.
  rewrite rmatch_Seq, rmatch_Lit. cbn [prev rest caps].
  destruct (lit_step l p s) as [[p1 s1]|]; [|reflexivity].
  cbn [flat_map]. rewrite app_nil_r.
  rewrite rmatch_Seq, rmatch_Cap, rmatch_Seq, rmatch_Cls. cbn [prev rest caps].
  destruct s1 as [|c s1']; [reflexivity|].
  destruct (f c) eqn:E; [|reflexivity].
  cbn [flat_map]. rewrite app_nil_r.
  rewrite (run_then_closer f c2 1 (mkM p1 (String c s1') cs) Hc2).
  reflexivity.
Qed.

(** Where the framed pattern matches, the text reads
    [l ++ name ++ closer ++ tail] for a non-empty [name] inside the
    class, and the one continuation captures [name] and leaves [tail]. *)
Lemma rmatch_framed_inv (l : string) (f : ascii -> bool) (c2 : ascii)
      (p : option ascii) (s : string) (cs : list (nat * string))
      (st : MState) (tl : list MState) :
  f c2 = false ->
  rmatch (framed l f c2) (mkM p s cs) = st :: tl ->
  exists name tail,
    name <> EmptyString /\ allIn f name = true
    /\ s = (l ++ name ++ String c2 tail)%string
    /\ st = mkM (Some c2) tail ((1, name) :: cs) /\ tl = [].
Proof.
  intros Hc2. rewrite rmatch_framed by assumption.
  destruct (lit_step l p s) as [[p1 s1]|] eqn:El; [|discriminate].
  apply lit_step_inv in El.
  destruct s1 as [|c s1']; [discriminate|].
  destruct (f c) eqn:Ec; [|discriminate].
  destruct (snd (span f s1')) as [|d s3] eqn:Es; [discriminate|].
  destruct (Ascii.eqb c2 d) eqn:Ed; [|discriminate].
  apply Ascii.eqb_eq in Ed; subst d.
  intros H; injection H as <- <-.
  pose proof (span_eq f s1') as Heq. rewrite Es in Heq.
  pose proof (span_allIn f s1') as Hall.
  remember (fst (span f s1')) as nm eqn:Enm. clear Enm Es. subst s1' s.
  exists (String c nm), s3. repeat split.
  - discriminate.
  - simpl. now rewrite Ec, Hall.
  - do 3 f_equal.
    match goal with
    | |- take ?n _ = _ =>
        replace n with (String.length (String c nm))
          by (simpl; rewrite length_append; simpl; lia)
    end.
    apply (take_append (String c nm) (String c2 s3)).
Qed.

(** Conversely, at the start of [l ++ name ++ closer ++ tail] it matches. *)
Lemma rmatch_framed_start (l : string) (f : ascii -> bool) (c2 : ascii)
      (p : option ascii) (name tail : string) (cs : list (nat * string)) :
  f c2 = false -> allIn f name = true -> name <> EmptyString ->
  rmatch (framed l f c2) (mkM p (l ++ name ++ String c2 tail) cs)
  = [mkM (Some c2) tail ((1, name) :: cs)].
Proof.
  intros Hc2 Hall Hne. rewrite rmatch_framed by assumption.
  destruct (lit_step_append l p (name ++ String c2 tail)) as [q ->].
  destruct name as [|c name']; [congruence|].
  cbn [append]. simpl in Hall. apply andb_prop in Hall as [Hc Hall]. rewrite Hc.
  rewrite (span_append f name' c2 tail Hall Hc2). cbn [snd].
  rewrite Ascii.eqb_refl. do 4 f_equal.
  match goal with
  | |- take ?n _ = _ =>
      replace n with (String.length (String c name'))
        by (simpl; rewrite length_append; simpl; lia)
  end.
  apply (take_append (String c name') (String c2 tail)).
Qed.

End MatcherFacts.

(* ------------------------------------------------------------------ *)
(** ** identity.ts *)

Section IdentityFacts.
Import RegExp Identity.

Lemma exec_from_here (r : re) (p : option ascii) (s : string) (i : nat)
      (st' : MState) (tl : list MState) :
  rmatch r (mkM p s []) = st' :: tl ->
  exec_from r p s i = Some (mkMatch i (consumed (mkM p s []) st') st').
Proof. intros H. destruct s; simpl; rewrite H; reflexivity. Qed.

(** A pattern that begins with a literal finds nothing in a text that
    does not contain the literal. *)
Lemma exec_from_absent (l : string) (r : re) (s : string) :
  JS.includes s l = false ->
  forall p i, exec_from (Seq (Lit l) r) p s i = None.
Proof.
  induction s as [|c s IH]; intros H p i.
  - apply includes_head in H. cbn [exec_from].
    rewrite rmatch_Seq, rmatch_Lit. cbn [prev rest].
    now rewrite (lit_step_prefix _ _ _ H).
  - pose proof (includes_head _ _ H) as Hp. cbn [exec_from].
    rewrite rmatch_Seq, rmatch_Lit. cbn [prev rest].
    rewrite (lit_step_prefix _ _ _ Hp). cbn [flat_map].
    apply IH. eapply includes_tail; eauto.
Qed.

(** At the very start of [l ++ name ++ closer ++ ...] the framed
    pattern matches and captures [name]. *)
Lemma exec_framed_start (l : string) (f : ascii -> bool) (c2 : ascii)
      (name tail : string) :
  f c2 = false -> allIn f name = true -> name <> EmptyString ->
  exists m, exec (framed l f c2) (l ++ name ++ String c2 tail) = Some m
            /\ group 1 m = Some name.
Proof.
  intros Hc2 Hall Hne.
  pose proof (rmatch_framed_start l f c2 None name tail [] Hc2 Hall Hne) as Hst.
  eexists. split.
  - unfold exec. eapply exec_from_here. exact Hst.
  - reflexivity.
Qed.

Lemma segment_inv (s : string) :
  segment s = true -> allIn notSlash s = true /\ s <> EmptyString.
Proof.
  unfold segment. intros H. apply andb_prop in H as [H1 H2]. split; [assumption|].
  intros ->. discriminate.
Qed.

Lemma parseRepoOwner_ssh (owner tail : string) :
  segment owner = true ->
  parseRepoOwner ("git@github.com:" ++ owner ++ "/" ++ tail) = Some owner.
Proof.
  intros Hseg. apply segment_inv in Hseg as [Hall Hne].
  destruct (exec_framed_start "git@github.com:" notSlash "/" owner tail
              eq_refl Hall Hne) as (m & Hm & Hg).
  unfold parseRepoOwner. change SSH_RE with (framed "git@github.com:" notSlash "/").
  change (String "/" tail) with ("/" ++ tail)%string in Hm.
  now rewrite Hm.
Qed.

Lemma rmatch_lit_absent (l : string) (r : re) (p : option ascii) (s : string)
      (cs : list (nat * string)) :
  prefix l s = false -> rmatch (Seq (Lit l) r) (mkM p s cs) = [].
Proof.
  intros H. rewrite rmatch_Seq, rmatch_Lit. cbn [prev rest].
  now rewrite (lit_step_prefix _ _ _ H).
Qed.

Lemma exec_from_skip (l : string) (r : re) (p : option ascii) (c : ascii) (s : string)
      (i : nat) :
  prefix l (String c s) = false ->
  exec_from (Seq (Lit l) r) p (String c s) i = exec_from (Seq (Lit l) r) (Some c) s (S i).
Proof. intros H. cbn [exec_from]. now rewrite (rmatch_lit_absent _ _ _ _ _ H). Qed.

Lemma allIn_append (f : ascii -> bool) (a b : string) :
  allIn f (a ++ b) = allIn f a && allIn f b.
Proof. induction a as [|c a IH]; simpl; [reflexivity|]. now rewrite IH, andb_assoc. Qed.

(** A text without [/] has no match of a pattern closed by [/]. *)
Lemma exec_from_slashfree (l : string) (t : string) :
  allIn notSlash t = true ->
  forall p i, exec_from (framed l notSlash "/") p t i = None.
Proof.
  assert (Hnone : forall p t, allIn notSlash t = true ->
                              rmatch (framed l notSlash "/") (mkM p t []) = []).
  { intros p t0 Ht.
    destruct (rmatch (framed l notSlash "/") (mkM p t0 [])) as [|st tl] eqn:E; [reflexivity|].
    apply rmatch_framed_inv in E as (name & tail & _ & _ & -> & _); [|reflexivity].
    rewrite !allIn_append in Ht. cbn in Ht. rewrite !andb_false_r in Ht. discriminate. }
  induction t as [|c t IH]; intros Ht p i; cbn [exec_from]; rewrite (Hnone _ _ Ht).
  - reflexivity.
  - apply IH. simpl in Ht. now apply andb_prop in Ht.
Qed.

(** A literal without [/] that begins before a [/] ends before it. *)
Lemma prefix_before_slash (l a b : string) :
  allIn notSlash l = true -> prefix l (a ++ String "/" b) = true -> prefix l a = true.
Proof.
  revert a. induction l as [|c l IH]; intros a Hl H.
  - now destruct a.
  - simpl in Hl. apply andb_prop in Hl as [Hc Hl].
    unfold notSlash in Hc. apply negb_true_iff, Ascii.eqb_neq in Hc.
    destruct a as [|x a]; cbn [append prefix] in *.
    + destruct (ascii_dec c "/"); [contradiction|discriminate].
    + destruct (ascii_dec c x); [now apply IH|discriminate].
Qed.

(** In [owner/rest] with [rest] free of [/], a pattern that begins with
    a literal and is closed by [/] can only match inside the owner. *)
Lemma exec_from_owner (l : string) (owner tail : string) :
  allIn notSlash l = true -> l <> EmptyString ->
  allIn notSlash tail = true ->
  JS.includes owner l = false ->
  forall p i, exec_from (framed l notSlash "/") p (owner ++ String "/" tail) i = None.
Proof.
  intros Hl Hne Htail. induction owner as [|c owner IH]; intros Hno p i.
  - cbn [append]. unfold framed. rewrite exec_from_skip.
    + now apply exec_from_slashfree.
    + destruct l as [|c0 l0]; [congruence|]. apply prefix_head_neq.
      simpl in Hl. apply andb_prop in Hl as [Hc _]. unfold notSlash in Hc.
      now apply negb_true_iff, Ascii.eqb_neq in Hc.
  - cbn [append]. unfold framed. rewrite exec_from_skip.
    + apply IH. eapply includes_tail; eauto.
    + destruct (prefix l (String c (owner ++ String "/" tail))) eqn:E; [|reflexivity].
      apply (prefix_before_slash l (String c owner) tail Hl) in E.
      apply includes_prefix in E. congruence.
Qed.

Lemma parseRepoOwner_https (owner tail : string) :
  segment owner = true -> allIn notSlash tail = true ->
  JS.includes owner "git@github.com:" = false ->
  parseRepoOwner ("https://github.com/" ++ owner ++ "/" ++ tail) = Some owner.
Proof.
  intros Hseg Htail Hno. apply segment_inv in Hseg as [Hall Hne].
  destruct (exec_framed_start "https://github.com/" notSlash "/" owner tail
              eq_refl Hall Hne) as (m & Hm & Hg).
  unfold parseRepoOwner.
  assert (exec SSH_RE ("https://github.com/" ++ owner ++ "/" ++ tail) = None) as ->.
  { unfold exec, SSH_RE. cbn [append].
    do 19 (rewrite exec_from_skip by reflexivity).
    apply (exec_from_owner "git@github.com:" owner tail); auto. discriminate. }
  change HTTPS_RE with (framed "https://github.com/" notSlash "/").
  change (String "/" tail) with ("/" ++ tail)%string in Hm.
  now rewrite Hm.
Qed.

Lemma parseRepoOwner_none (url : string) :
  JS.includes url "git@github.com:" = false ->
  JS.includes url "https://github.com/" = false ->
  parseRepoOwner url = None.
Proof.
  intros Hs Hh. unfold parseRepoOwner, exec, SSH_RE, HTTPS_RE.
  now rewrite (exec_from_absent _ _ _ Hs), (exec_from_absent _ _ _ Hh).
Qed.

(** The cases of [identity.test.ts]. *)
Example parseRepoOwner_tests :
  parseRepoOwner "git@github.com:dyreby/collaboration-framework.git" = Some "dyreby"
  /\ parseRepoOwner "git@github.com:octocat/hello-world" = Some "octocat"
  /\ parseRepoOwner "https://github.com/dyreby/collaboration-framework.git" = Some "dyreby"
  /\ parseRepoOwner "https://github.com/microsoft/vscode" = Some "microsoft"
  /\ parseRepoOwner "git@gitlab.com:user/repo.git" = None
  /\ parseRepoOwner "not-a-url" = None.
Proof. repeat split; vm_compute; reflexivity. Qed.

(** C3 as stated fails twice.  A URL of a foreign host that embeds a
    GitHub URL is of neither documented shape, yet an owner comes out
    of it; and an HTTPS remote whose owner segment contains
    [git@github.com:x] yields [x], not the owner segment. *)
Lemma parseRepoOwner_counterexample :
  ((forall owner, ~ githubRemote "https://mirror.example/https://github.com/owner/repo" owner)
   /\ parseRepoOwner "https://mirror.example/https://github.com/owner/repo" = Some "owner")
  /\ (httpsRemote "https://github.com/git@github.com:x/repo" "git@github.com:x"
      /\ parseRepoOwner "https://github.com/git@github.com:x/repo" = Some "x").
Proof.
  split; split.
  - intros owner [H|H]; destruct H as (repo & suffix & _ & _ & _ & H);
      simpl in H; discriminate H.
  - vm_compute; reflexivity.
  - exists "repo", "". repeat split; auto.
  - vm_compute; reflexivity.
Qed.

(** C4: [getAccountForRepo] returns the agent account [john-agent]
    exactly when the owner is the string [dyreby]; for every other
    owner, and for null, it returns the personal account [dyreby]. *)
Theorem getAccountForRepo_agent_iff_dyreby (repoOwner : option string) :
  (getAccountForRepo repoOwner = agent ACCOUNTS <-> repoOwner = Some "dyreby")
  /\ (repoOwner <> Some "dyreby" -> getAccountForRepo repoOwner = personal ACCOUNTS)
  /\ getAccountForRepo None = personal ACCOUNTS
  /\ agent ACCOUNTS = "john-agent" /\ personal ACCOUNTS = "dyreby".
Proof.
  unfold getAccountForRepo, ACCOUNTS. cbn [agent personal].
  destruct repoOwner as [o|].
  - destruct (String.eqb_spec o "dyreby") as [->|Hne].
    + repeat split; auto. intros H; now elim H.
    + repeat split; auto; try discriminate. intros H; injection H as ->. now elim Hne.
  - repeat split; auto; discriminate.
Qed.

Lemma getAccountForRepo_agent_iff_dyreby_witness :
  getAccountForRepo (Some "dyreby") = "john-agent"
  /\ getAccountForRepo (Some "octocat") = "dyreby".
Proof.
  split.
  - apply (proj1 (getAccountForRepo_agent_iff_dyreby (Some "dyreby"))). reflexivity.
  - apply (proj1 (proj2 (getAccountForRepo_agent_iff_dyreby (Some "octocat")))).
    discriminate.
Defined.

End IdentityFacts.

(* ------------------------------------------------------------------ *)
(** ** The command gate *)

Section GateFacts.
Import RegExp GhAgent.

Lemma splitChar_segment (a b : string) :
  allIn Identity.notSlash a = true ->
  JS.splitChar "/" (a ++ String "/" b) = a :: JS.splitChar "/" b.
Proof.
  induction a as [|c a IH]; intros H.
  - reflexivity.
  - simpl in H. apply andb_prop in H as [Hc Ha].
    cbn [append JS.splitChar]. unfold Identity.notSlash in Hc.
    apply negb_true_iff in Hc. rewrite Hc, (IH Ha). reflexivity.
Qed.

Lemma splitChar_one (a : string) :
  allIn Identity.notSlash a = true -> JS.splitChar "/" a = [a].
Proof.
  induction a as [|c a IH]; intros H.
  - reflexivity.
  - simpl in H. apply andb_prop in H as [Hc Ha].
    cbn [JS.splitChar]. unfold Identity.notSlash in Hc.
    apply negb_true_iff in Hc. rewrite Hc, (IH Ha). reflexivity.
Qed.

(** The API patterns spend one [*] on [owner/repo], which is two
    segments: no endpoint of a real repository has the segment count
    of the replies pattern. *)
Lemma replies_pattern_never_matches (owner repo pr comment : string) :
  segment owner = true -> segment repo = true ->
  segment pr = true -> segment comment = true ->
  matchesPattern ("repos/" ++ owner ++ "/" ++ repo ++ "/pulls/" ++ pr
                  ++ "/comments/" ++ comment ++ "/replies")
                 "repos/*/pulls/*/comments/*/replies" = false.
Proof.
  intros Ho Hr Hp Hc.
  apply segment_inv in Ho as [Ho _]. apply segment_inv in Hr as [Hr _].
  apply segment_inv in Hp as [Hp _]. apply segment_inv in Hc as [Hc _].
  unfold matchesPattern.
  change ("repos/" ++ owner ++ "/" ++ repo ++ "/pulls/" ++ pr
          ++ "/comments/" ++ comment ++ "/replies")%string
    with ("repos" ++ String "/" (owner ++ String "/" (repo ++ String "/"
          ("pulls" ++ String "/" (pr ++ String "/" ("comments" ++ String "/"
          (comment ++ String "/" "replies")))))))%string.
  rewrite (splitChar_segment "repos") by reflexivity.
  rewrite (splitChar_segment owner) by assumption.
  rewrite (splitChar_segment repo) by assumption.
  rewrite (splitChar_segment "pulls") by reflexivity.
  rewrite (splitChar_segment pr) by assumption.
  rewrite (splitChar_segment "comments") by reflexivity.
  rewrite (splitChar_segment comment) by assumption.
  reflexivity.
Qed.

(** C1, on the code: the reply endpoint
    [repos/o/r/pulls/3/comments/9/replies] is rejected under POST as
    under GET, as a command outside the allow list; its eight segments
    never meet the seven of the pattern [repos/*/pulls/*/comments/*/replies]. *)
Theorem replies_endpoint_rejected_under_POST :
  isCommandAllowed "api repos/o/r/pulls/3/comments/9/replies -X POST"
  = mkVerdict false (Some (notInAllowList "api repos/o/r/pulls/3/comments/9/replies"))
  /\ isCommandAllowed "api repos/o/r/pulls/3/comments/9/replies -X GET"
     = mkVerdict false (Some (notInAllowList "api repos/o/r/pulls/3/comments/9/replies"))
  /\ matchesPattern "repos/o/r/pulls/3/comments/9/replies"
                    "repos/*/pulls/*/comments/*/replies" = false
  /\ List.length (JS.splitChar "/" "repos/o/r/pulls/3/comments/9/replies") = 8
  /\ List.length (JS.splitChar "/" "repos/*/pulls/*/comments/*/replies") = 7.
Proof. repeat split; vm_compute; reflexivity. Qed.

(** What the method restriction does once a pattern matches: on a
    seven-segment endpoint POST passes and GET is refused. *)
Example replies_method_restriction :
  isCommandAllowed "api repos/o/pulls/3/comments/9/replies -X POST" = mkVerdict true None
  /\ isCommandAllowed "api repos/o/pulls/3/comments/9/replies -X GET"
     = mkVerdict false
         (Some "API endpoint repos/o/pulls/3/comments/9/replies only allows POST method").
Proof. split; vm_compute; reflexivity. Qed.

(** C2: [pr list] is allowed; [pr merge 5] is rejected, and the reason
    lists the allowed commands, every allowed [pr] subcommand among
    them. *)
Theorem pr_list_allowed_pr_merge_rejected :
  isCommandAllowed "pr list" = mkVerdict true None
  /\ isCommandAllowed "pr merge 5" = mkVerdict false (Some (notInAllowList "pr merge"))
  /\ forallb (fun entry => JS.includes (notInAllowList "pr merge") entry)
             (filter (fun entry => JS.startsWith entry "pr ") ALLOWED_COMMANDS) = true
  /\ filter (fun entry => JS.startsWith entry "pr ") ALLOWED_COMMANDS
     = ["pr create"; "pr comment"; "pr view"; "pr list"; "pr diff"; "pr review"; "pr edit"].
Proof. repeat split; vm_compute; reflexivity. Qed.

Lemma rmatch_plus_space_none (p : option ascii) (c : ascii) (s : string)
      (cs : list (nat * string)) :
  JS.isWhiteSpace c = false -> rmatch (Plus Space) (mkM p (String c s) cs) = [].
Proof.
  intros H. unfold Plus, Space. rewrite rmatch_Seq, rmatch_Cls.
  cbn [rest]. now rewrite H.
Qed.

Lemma split_from_no_space (s : string) :
  allIn notSpace s = true ->
  forall fuel piece fresh p,
    split_from fuel (Plus Space) piece fresh p s = [(piece ++ s)%string].
Proof.
  induction s as [|c s IH]; intros H fuel piece fresh p.
  - destruct fuel; reflexivity || (simpl; now rewrite append_nil_r).
  - simpl in H. apply andb_prop in H as [Hc Hs].
    unfold notSpace in Hc. apply negb_true_iff in Hc.
    destruct fuel; [reflexivity|].
    cbn [split_from]. rewrite (rmatch_plus_space_none _ _ _ _ Hc).
    rewrite (IH Hs). now rewrite append_assoc.
Qed.

(** A text without whitespace is a single token. *)
Lemma split_no_space (s : string) :
  allIn notSpace s = true -> split (Plus Space) s = [s].
Proof.
  intros H. destruct s as [|c s]; [reflexivity|].
  unfold split. now rewrite (split_from_no_space _ H).
Qed.

Lemma single_token (command : string) :
  allIn notSpace (JS.trim command) = true -> List.length (tokens command) < 2.
Proof. intros H. unfold tokens. rewrite (split_no_space _ H). simpl; lia. Qed.

(** C10: a command whose trimmed text has fewer than two
    whitespace-separated tokens is rejected with the reason
    [Command requires at least: gh_agent <command> <subcommand>],
    whatever the single token is; so are a bare [pr] and the empty
    string. *)
Theorem fewer_than_two_tokens_rejected (command : string) :
  List.length (tokens command) < 2 ->
  isCommandAllowed command
  = mkVerdict false (Some "Command requires at least: gh_agent <command> <subcommand>").
Proof.
  intros H. unfold isCommandAllowed. fold (tokens command).
  apply Nat.ltb_lt in H. now rewrite H.
Qed.

Lemma fewer_than_two_tokens_rejected_witness :
  isCommandAllowed "pr"
  = mkVerdict false (Some "Command requires at least: gh_agent <command> <subcommand>")
  /\ isCommandAllowed ""
     = mkVerdict false (Some "Command requires at least: gh_agent <command> <subcommand>")
  /\ isCommandAllowed "  issue  "
     = mkVerdict false (Some "Command requires at least: gh_agent <command> <subcommand>").
Proof.
  split; [|split]; apply fewer_than_two_tokens_rejected; vm_compute; lia.
Defined.

End GateFacts.

(* ------------------------------------------------------------------ *)
(** ** The workspace tool *)

Section WorkspaceFacts.
Import Workspace.

Variable join : list string -> string.
Variables homedir tmpdir : string.

(** C7: for an argument [owner/repo] with exactly one [/] whose
    conventional path [<reposRoot>/<owner>/<repo>] does not exist, the
    tool returns an error result whose text names that path, and the
    call has spawned no subprocess and written nothing. *)
Theorem workspace_missing_checkout
    (w : World) (params : Params) (owner repoName : string) :
  allIn Identity.notSlash owner = true ->
  allIn Identity.notSlash repoName = true ->
  repo params = (owner ++ "/" ++ repoName)%string ->
  existsSync w (expectedPath join homedir owner repoName) = false ->
  run w (execute join homedir tmpdir params)
  = (Returned (notFound (repo params) (expectedPath join homedir owner repoName)), [])
  /\ isError (notFound (repo params) (expectedPath join homedir owner repoName)) = Some true
  /\ JS.includes (text (notFound (repo params) (expectedPath join homedir owner repoName)))
                 (expectedPath join homedir owner repoName) = true.
Proof.
  intros Ho Hr Hrepo Hmissing. split; [|split].
  - unfold execute. rewrite Hrepo.
    change (owner ++ "/" ++ repoName)%string with (owner ++ String "/" repoName)%string.
    rewrite (splitChar_segment owner repoName Ho), (splitChar_one repoName Hr).
    cbn [List.length Nat.eqb negb nth]. unfold findRepoPath, REPOS_BASE.
    cbn [run]. change (join [join [homedir; "repos"]; owner; repoName])
      with (expectedPath join homedir owner repoName). rewrite Hmissing.
    reflexivity.
  - reflexivity.
  - unfold notFound. cbn [text].
    do 4 apply includes_append. apply includes_prefix, prefix_append.
Qed.

End WorkspaceFacts.

(** A host with POSIX paths and no checkout at all. *)
Lemma workspace_missing_checkout_witness :
  Workspace.run (Workspace.mkWorld (fun _ => false) (fun _ => Some "tmux-1")
                   (fun _ _ => mkExec 0 "" "") "0000" (fun _ => None) (fun _ _ => None))
    (Workspace.execute (String.concat "/") "/home/u" "/tmp"
       (Workspace.mkParams "dyreby/agent-kernel" "anthropic/claude" "high" None None None))
  = (Workspace.Returned (notFound "dyreby/agent-kernel" "/home/u/repos/dyreby/agent-kernel"),
     []).
Proof.
  apply (workspace_missing_checkout (String.concat "/") "/home/u" "/tmp"
           (Workspace.mkWorld (fun _ => false) (fun _ => Some "tmux-1")
              (fun _ _ => mkExec 0 "" "") "0000" (fun _ => None) (fun _ _ => None))
           (Workspace.mkParams "dyreby/agent-kernel" "anthropic/claude" "high" None None None)
           "dyreby" "agent-kernel"); reflexivity.
Defined.

(** For contrast: with the checkout present and tmux running, the first
    thing the tool does is spawn [tmux new-window]. *)
Example workspace_present_spawns :
  snd (Workspace.run (Workspace.mkWorld (fun _ => true) (fun _ => Some "tmux-1")
                        (fun _ _ => mkExec 0 "" "") "0000" (fun _ => None) (fun _ _ => None))
         (Workspace.execute (String.concat "/") "/home/u" "/tmp"
            (Workspace.mkParams "dyreby/agent-kernel" "anthropic/claude" "high"
               None None None)))
  = [Workspace.Spawned "tmux" ["new-window"; "-n"; "dyreby/agent-kernel"; "-c";
                               "/home/u/repos/dyreby/agent-kernel"];
     Workspace.Spawned "tmux" ["send-keys"; "-t"; "dyreby/agent-kernel";
        "PI_LOAD_ALL_CONCEPTS=1 pi --model 'anthropic/claude' --thinking 'high'"; "Enter"]].
Proof. vm_compute; reflexivity. Qed.

(* ------------------------------------------------------------------ *)
(** ** Maps and sets in insertion order *)

Section MapFacts.
Context {V : Type}.
Implicit Types (m : list (string * V)) (k : string) (v : V).

Lemma get_set_same m k v : JsMap.get (JsMap.set m k v) k = Some v.
Proof.
  induction m as [|[k' v'] m IH]; simpl.
  - now rewrite String.eqb_refl.
  - destruct (String.eqb k' k) eqn:E; simpl; now rewrite E.
Qed.

Lemma get_set_other m k k' v :
  k <> k' -> JsMap.get (JsMap.set m k v) k' = JsMap.get m k'.
Proof.
  intros Hne. induction m as [|[k0 v0] m IH]; simpl.
  - apply String.eqb_neq in Hne. now rewrite Hne.
  - destruct (String.eqb k0 k) eqn:E; simpl.
    + apply String.eqb_eq in E; subst k0.
      apply String.eqb_neq in Hne. now rewrite Hne.
    + now rewrite IH.
Qed.

Lemma has_set m k k' v :
  JsMap.has (JsMap.set m k v) k' = String.eqb k k' || JsMap.has m k'.
Proof.
  unfold JsMap.has. destruct (String.eqb_spec k k') as [->|Hne].
  - now rewrite get_set_same.
  - now rewrite get_set_other.
Qed.

Lemma set_fresh m k v : JsMap.has m k = false -> JsMap.set m k v = m ++ [(k, v)].
Proof.
  unfold JsMap.has. induction m as [|[k' v'] m IH]; simpl; intros H.
  - reflexivity.
  - destruct (String.eqb k' k); [discriminate|]. now rewrite IH.
Qed.

Lemma has_app m m' k : JsMap.has (m ++ m') k = JsMap.has m k || JsMap.has m' k.
Proof.
  unfold JsMap.has. induction m as [|[k' v'] m IH]; simpl.
  - reflexivity.
  - destruct (String.eqb k' k); [reflexivity|exact IH].
Qed.

Lemma get_app_l m m' k v : JsMap.get m k = Some v -> JsMap.get (m ++ m') k = Some v.
Proof.
  induction m as [|[k' v'] m IH]; simpl; [discriminate|].
  destruct (String.eqb k' k); auto.
Qed.

Lemma get_In m k v : JsMap.get m k = Some v -> In (k, v) m.
Proof.
  induction m as [|[k' v'] m IH]; simpl; [discriminate|].
  destruct (String.eqb_spec k' k) as [->|]; intros H.
  - injection H as ->. now left.
  - right; auto.
Qed.

End MapFacts.

Lemma getOr0_set (m : list (string * nat)) (k k' : string) (v : nat) :
  JsMap.getOr0 (JsMap.set m k v) k' = if String.eqb k k' then v else JsMap.getOr0 m k'.
Proof.
  unfold JsMap.getOr0. destruct (String.eqb_spec k k') as [->|Hne].
  - now rewrite get_set_same.
  - now rewrite get_set_other.
Qed.

Lemma set_has_add (s : list string) (k k' : string) :
  JsSet.has (JsSet.add s k) k' = String.eqb k k' || JsSet.has s k'.
Proof.
  unfold JsSet.add. destruct (JsSet.has s k) eqn:E.
  - destruct (String.eqb_spec k k') as [<-|]; [now rewrite E | reflexivity].
  - induction s as [|x s IH]; simpl in *.
    + now rewrite orb_false_r.
    + apply orb_false_elim in E as [_ E]. rewrite (IH E).
      now rewrite !orb_assoc, (orb_comm (String.eqb x k')).
Qed.

(* ------------------------------------------------------------------ *)
(** ** The concept loader: it returns *)

Section LoaderReturns.
Import Collaboration.
Variable fs : FileSystem.

Lemma unloaded_le (l : list (string * string)) : unloaded fs l <= List.length fs.
Proof. apply filter_length_le. Qed.

Lemma filter_length_mono {A} (p q : A -> bool) (l : list A) :
  (forall x, q x = true -> p x = true) ->
  List.length (filter q l) <= List.length (filter p l).
Proof.
  intros H. induction l as [|x l IH]; simpl; [lia|].
  destruct (q x) eqn:Eq.
  - rewrite (H _ Eq). simpl. lia.
  - destruct (p x); simpl; lia.
Qed.

Lemma filter_length_strict {A} (p q : A -> bool) (l : list A) (a : A) :
  (forall x, q x = true -> p x = true) ->
  In a l -> p a = true -> q a = false ->
  List.length (filter q l) < List.length (filter p l).
Proof.
  intros H. induction l as [|x l IH]; simpl; [tauto|].
  intros [->|Hin] Hp Hq.
  - rewrite Hp, Hq. simpl. pose proof (filter_length_mono p q l H). lia.
  - specialize (IH Hin Hp Hq). destruct (q x) eqn:Eq.
    + rewrite (H _ Eq). simpl. lia.
    + destruct (p x); simpl; lia.
Qed.

(** Loading a document that is on disk and not loaded yet leaves
    fewer documents to load. *)
Lemma unloaded_set (l : list (string * string)) (name content : string) :
  loadConceptFile fs name = Some content ->
  JsMap.has l name = false ->
  unloaded fs (JsMap.set l name content) < unloaded fs l.
Proof.
  intros Hfs Hl. unfold unloaded.
  apply (filter_length_strict _ _ fs (name, content)).
  - intros [k v]. cbn [fst]. rewrite has_set, negb_orb.
    intros H. now apply andb_prop in H.
  - now apply get_In.
  - cbn [fst]. now rewrite Hl.
  - cbn [fst]. now rewrite has_set, String.eqb_refl.
Qed.

(** The loop returns when the recursive call does, and leaves no more
    documents to load than before. *)
Lemma loop_returns (rec : string -> Acc -> option Acc) (d : nat) :
  (forall content a,
      unloaded fs (loaded a) < d ->
      exists a', rec content a = Some a' /\ unloaded fs (loaded a') <= unloaded fs (loaded a)) ->
  forall markers acc,
    unloaded fs (loaded acc) <= d ->
    exists acc', loop rec fs markers acc = Some acc'
                 /\ unloaded fs (loaded acc') <= unloaded fs (loaded acc).
Proof.
  intros Hrec. induction markers as [|[name count] markers IH]; intros acc Hacc.
  - exists acc. split; [reflexivity|lia].
  - cbn [loop visit].
    destruct (JsMap.has (loaded acc) name || JsSet.has (missing acc) name) eqn:Eseen.
    + destruct (IH (mkAcc (loaded acc)
                      (JsMap.set (counts acc) name (JsMap.getOr0 (counts acc) name + count))
                      (missing acc)) Hacc) as (acc' & -> & Hle).
      exists acc'. split; [reflexivity|exact Hle].
    + destruct (loadConceptFile fs name) as [content|] eqn:Efile.
      * apply orb_false_elim in Eseen as [Hl _].
        pose proof (unloaded_set (loaded acc) name content Efile Hl) as Hlt.
        destruct (Hrec content
                    (mkAcc (JsMap.set (loaded acc) name content)
                       (JsMap.set (counts acc) name (JsMap.getOr0 (counts acc) name + count))
                       (missing acc))) as (acc1 & -> & Hle1).
        { cbn [loaded]. lia. }
        cbn [loaded] in Hle1.
        destruct (IH acc1) as (acc' & -> & Hle); [lia|].
        exists acc'. split; [reflexivity|lia].
      * destruct (IH (mkAcc (loaded acc)
                        (JsMap.set (counts acc) name (JsMap.getOr0 (counts acc) name + count))
                        (JsSet.add (missing acc) name)) Hacc) as (acc' & -> & Hle).
        exists acc'. split; [reflexivity|exact Hle].
Qed.

(** A depth beyond the number of documents still to load is enough. *)
Lemma load_returns (depth : nat) :
  forall text acc,
    unloaded fs (loaded acc) < depth ->
    exists acc', load depth fs text acc = Some acc'
                 /\ unloaded fs (loaded acc') <= unloaded fs (loaded acc).
Proof.
  induction depth as [|d IH]; intros text acc H; [lia|].
  cbn [load]. apply (loop_returns (load d fs) d); [|lia].
  intros content a Ha. now apply IH.
Qed.

(** [loadConceptsRecursively] returns, from any accumulators. *)
Lemma load_total (text : string) (acc : Acc) :
  exists acc', loadConceptsRecursively fs text acc = Some acc'.
Proof.
  destruct (load_returns (S (List.length fs)) text acc) as (acc' & H & _).
  - pose proof (unloaded_le (loaded acc)). lia.
  - now exists acc'.
Qed.

End LoaderReturns.

(* ------------------------------------------------------------------ *)
(** ** The concept loader: what it returns *)

Section Tally.
Import Collaboration.

Lemma getOr0_tally (l : list string) :
  forall m x,
    JsMap.getOr0 (fold_left tally l m) x = JsMap.getOr0 m x + count_occ string_dec l x.
Proof.
  induction l as [|n l IH]; intros m x; simpl; [lia|].
  rewrite IH. unfold tally. rewrite getOr0_set.
  destruct (string_dec n x) as [->|Hne].
  - rewrite String.eqb_refl. lia.
  - apply String.eqb_neq in Hne. rewrite Hne. lia.
Qed.

Lemma sumFor_set (m : list (string * nat)) (k x : string) :
  sumFor x (JsMap.set m k (JsMap.getOr0 m k + 1))
  = sumFor x m + (if String.eqb k x then 1 else 0).
Proof.
  unfold JsMap.getOr0. induction m as [|[k' v'] m IH]; simpl.
  - destruct (String.eqb k x); lia.
  - destruct (String.eqb k' k) eqn:E; simpl.
    + apply String.eqb_eq in E; subst k'. destruct (String.eqb k x); lia.
    + rewrite IH. lia.
Qed.

Lemma sumFor_tally (l : list string) :
  forall m x, sumFor x (fold_left tally l m) = sumFor x m + count_occ string_dec l x.
Proof.
  induction l as [|n l IH]; intros m x; simpl; [lia|].
  rewrite IH. unfold tally. rewrite sumFor_set.
  destruct (string_dec n x) as [->|Hne].
  - rewrite String.eqb_refl. lia.
  - apply String.eqb_neq in Hne. rewrite Hne. lia.
Qed.

(** The tally of a text holds, for every name, the number of its
    matches. *)
Lemma parseConceptMarkers_count (text x : string) :
  JsMap.getOr0 (parseConceptMarkers text) x = occurrences text x.
Proof. unfold parseConceptMarkers. now rewrite getOr0_tally. Qed.

Lemma parseConceptMarkers_sumFor (text x : string) :
  sumFor x (parseConceptMarkers text) = occurrences text x.
Proof. unfold parseConceptMarkers. now rewrite sumFor_tally. Qed.

Lemma sumFor_In (x : string) (c : nat) (m : list (string * nat)) :
  In (x, c) m -> c <= sumFor x m.
Proof.
  induction m as [|[k v] m IH]; simpl; [tauto|].
  intros [H|H].
  - injection H as -> ->. rewrite String.eqb_refl. lia.
  - specialize (IH H). lia.
Qed.

Lemma In_sumFor (x : string) (m : list (string * nat)) :
  0 < sumFor x m -> exists c, In (x, c) m.
Proof.
  induction m as [|[k v] m IH]; simpl; [lia|].
  destruct (String.eqb_spec k x) as [->|]; intros H.
  - exists v. now left.
  - destruct IH as [c Hc]; [lia|]. exists c. now right.
Qed.

Lemma set_positive (m : list (string * nat)) (n : string) (w : nat) :
  (forall k v, In (k, v) m -> 0 < v) -> 0 < w ->
  forall k v, In (k, v) (JsMap.set m n w) -> 0 < v.
Proof.
  intros Hm Hw. induction m as [|[a b] m IH]; simpl; intros k v.
  - intros [H|[]]. injection H as _ <-. exact Hw.
  - destruct (String.eqb a n); simpl; intros [H|H].
    + injection H as _ <-. exact Hw.
    + eapply Hm. right; eauto.
    + eapply Hm. left; eauto.
    + eapply IH; eauto. intros; eapply Hm; right; eauto.
Qed.

Lemma tally_positive (l : list string) :
  forall m, (forall k v, In (k, v) m -> 0 < v) ->
            forall k v, In (k, v) (fold_left tally l m) -> 0 < v.
Proof.
  induction l as [|n l IH]; intros m Hm; simpl; [exact Hm|].
  apply IH. unfold tally. apply set_positive; [exact Hm|lia].
Qed.

(** The entries of the tally are the names that are matched. *)
Lemma parseConceptMarkers_names (text x : string) :
  In x (markerNames text) <-> exists c, In (x, c) (parseConceptMarkers text).
Proof.
  split.
  - intros H. apply In_sumFor. rewrite parseConceptMarkers_sumFor.
    unfold occurrences. now apply count_occ_In.
  - intros [c Hc]. apply (count_occ_In string_dec). fold (occurrences text x).
    rewrite <- parseConceptMarkers_sumFor.
    assert (0 < c) by (eapply (tally_positive _ []); [intros ? ? []|exact Hc]).
    pose proof (sumFor_In _ _ _ Hc). lia.
Qed.

End Tally.

Section LoaderSpec.
Import Collaboration.
Variable fs : FileSystem.

Lemma inDocuments_app (x : string) (a b : list (string * string)) :
  inDocuments x (a ++ b) = inDocuments x a + inDocuments x b.
Proof. induction a as [|[n c] a IH]; simpl; [reflexivity|]. rewrite IH. lia. Qed.

Lemma ranOver_nil (acc : Acc) : ranOver (fun x => sumFor x []) (fun x => False) acc acc.
Proof.
  exists []. rewrite app_nil_r.
  repeat split; auto; try tauto; try (intros; simpl; lia); try (intros ? ? ? []).
Qed.

Lemma loop_ranOver (rec : string -> Acc -> option Acc) :
  (forall content a a',
      rec content a = Some a' ->
      ranOver (occurrences content) (fun x => In x (markerNames content)) a a') ->
  forall markers acc acc',
    loop rec fs markers acc = Some acc' ->
    ranOver (fun x => sumFor x markers) (fun x => exists c, In (x, c) markers) acc acc'.
Proof.
  intros Hrec. induction markers as [|[name count] markers IH]; intros acc acc' H.
  - injection H as <-. destruct (ranOver_nil acc) as (new & ? & ? & ? & _ & ?).
    exists new. repeat split; auto. intros x [c []].
  - cbn [loop visit] in H. fold (bumped acc name count) in H.
    destruct (JsMap.has (loaded acc) name || JsSet.has (missing acc) name) eqn:Eseen.
    + (* already processed *)
      apply IH in H. destruct H as (new & Hl & Hmono & Hcount & Hnamed & Hclosed).
      cbn [loaded counts missing] in *. exists new. repeat split; auto.
      * intros x. rewrite Hcount. unfold bumped. rewrite getOr0_set. cbn [sumFor].
        destruct (String.eqb_spec name x) as [->|]; lia.
      * intros x [c [Hc|Hc]].
        -- injection Hc as -> ->. apply Hmono. exact Eseen.
        -- apply Hnamed. now exists c.
    + destruct (loadConceptFile fs name) as [content|] eqn:Efile.
      * (* loaded now, then scanned *)
        destruct (rec content _) as [acc1|] eqn:Erec; [|discriminate].
        apply Hrec in Erec. destruct Erec as (new1 & Hl1 & Hmono1 & Hcount1 & Hnamed1 & Hclosed1).
        apply IH in H. destruct H as (new2 & Hl2 & Hmono2 & Hcount2 & Hnamed2 & Hclosed2).
        cbn [loaded counts missing] in *.
        apply orb_false_elim in Eseen as [Hnl Hnm].
        rewrite (set_fresh _ _ content Hnl) in Hl1.
        assert (Hself : seen acc1 name = true).
        { apply Hmono1. unfold seen. cbn [loaded]. now rewrite has_set, String.eqb_refl. }
        exists ((name, content) :: new1 ++ new2). repeat split.
        -- rewrite Hl2, Hl1. now rewrite <- !app_assoc.
        -- intros x Hx. apply Hmono2, Hmono1. unfold seen in *. cbn [loaded missing].
           rewrite has_set. apply orb_prop in Hx as [->| ->];
             [now rewrite orb_true_r | apply orb_true_r].
        -- intros x. rewrite Hcount2, Hcount1. unfold bumped. rewrite getOr0_set.
           cbn [sumFor inDocuments]. rewrite inDocuments_app.
           destruct (String.eqb_spec name x) as [->|]; lia.
        -- intros x [c [Hc|Hc]].
           ++ injection Hc as -> ->. now apply Hmono2.
           ++ apply Hnamed2. now exists c.
        -- intros n c x [Hin|Hin] Hx.
           ++ injection Hin as -> ->. apply Hmono2, Hnamed1, Hx.
           ++ apply in_app_or in Hin as [Hin|Hin].
              ** eapply Hmono2, Hclosed1; eauto.
              ** eapply Hclosed2; eauto.
      * (* recorded as missing *)
        apply IH in H. destruct H as (new & Hl & Hmono & Hcount & Hnamed & Hclosed).
        cbn [loaded counts missing] in *. exists new. repeat split; auto.
        -- intros x Hx. apply Hmono. unfold seen in *. cbn [loaded missing].
           rewrite set_has_add. apply orb_prop in Hx as [->| ->];
             [reflexivity | now rewrite !orb_true_r].
        -- intros x. rewrite Hcount. unfold bumped. rewrite getOr0_set. cbn [sumFor].
           destruct (String.eqb_spec name x) as [->|]; lia.
        -- intros x [c [Hc|Hc]].
           ++ injection Hc as -> ->. apply Hmono. unfold seen. cbn [loaded missing].
              now rewrite set_has_add, String.eqb_refl, orb_true_r.
           ++ apply Hnamed. now exists c.
Qed.

Lemma load_ranOver (depth : nat) :
  forall text acc acc',
    load depth fs text acc = Some acc' ->
    ranOver (occurrences text) (fun x => In x (markerNames text)) acc acc'.
Proof.
  induction depth as [|d IH]; intros text acc acc' H; [discriminate|].
  cbn [load] in H. apply (loop_ranOver (load d fs) IH) in H.
  destruct H as (new & Hl & Hmono & Hcount & Hnamed & Hclosed).
  exists new. repeat split; auto.
  - intros x. rewrite Hcount, parseConceptMarkers_sumFor. reflexivity.
  - intros x Hx. apply Hnamed. now apply parseConceptMarkers_names.
Qed.

(** A property of the accumulators that each kind of turn keeps is
    kept by the whole run. *)
Lemma loop_preserves (I : Acc -> Prop) (rec : string -> Acc -> option Acc) :
  (forall content a a', rec content a = Some a' -> I a -> I a') ->
  (forall acc name count,
      I acc -> seen acc name = true ->
      I (mkAcc (loaded acc) (bumped acc name count) (missing acc))) ->
  (forall acc name count,
      I acc -> seen acc name = false -> loadConceptFile fs name = None ->
      I (mkAcc (loaded acc) (bumped acc name count) (JsSet.add (missing acc) name))) ->
  (forall acc name count content,
      I acc -> seen acc name = false -> loadConceptFile fs name = Some content ->
      I (mkAcc (JsMap.set (loaded acc) name content) (bumped acc name count) (missing acc))) ->
  forall markers acc acc', loop rec fs markers acc = Some acc' -> I acc -> I acc'.
Proof.
  intros Hrec Hseen Hmiss Hload.
  induction markers as [|[name count] markers IH]; intros acc acc' H HI.
  - now injection H as <-.
  - cbn [loop visit] in H. fold (bumped acc name count) in H. fold (seen acc name) in H.
    destruct (seen acc name) eqn:Eseen.
    + eapply IH; eauto.
    + destruct (loadConceptFile fs name) as [content|] eqn:Efile.
      * destruct (rec content _) as [acc1|] eqn:Erec; [|discriminate].
        eapply IH; eauto.
      * eapply IH; eauto.
Qed.

Lemma load_preserves (I : Acc -> Prop) :
  (forall acc name count,
      I acc -> seen acc name = true ->
      I (mkAcc (loaded acc) (bumped acc name count) (missing acc))) ->
  (forall acc name count,
      I acc -> seen acc name = false -> loadConceptFile fs name = None ->
      I (mkAcc (loaded acc) (bumped acc name count) (JsSet.add (missing acc) name))) ->
  (forall acc name count content,
      I acc -> seen acc name = false -> loadConceptFile fs name = Some content ->
      I (mkAcc (JsMap.set (loaded acc) name content) (bumped acc name count) (missing acc))) ->
  forall depth text acc acc', load depth fs text acc = Some acc' -> I acc -> I acc'.
Proof.
  intros Hseen Hmiss Hload. induction depth as [|d IH]; intros text acc acc' H HI;
    [discriminate|].
  cbn [load] in H. eapply (loop_preserves I (load d fs)); eauto.
Qed.

(** Loaded and missing stay disjoint. *)
Lemma load_disjoint (depth : nat) (text : string) (acc acc' : Acc) :
  load depth fs text acc = Some acc' -> disjoint acc -> disjoint acc'.
Proof.
  apply load_preserves.
  - intros a name count H _ x. apply H.
  - intros a name count H Hseen _ x. cbn [loaded missing]. rewrite set_has_add.
    apply orb_false_elim in Hseen as [Hl _].
    destruct (String.eqb_spec name x) as [<-|].
    + now rewrite Hl.
    + apply H.
  - intros a name count content H Hseen _ x. cbn [loaded missing]. rewrite has_set.
    apply orb_false_elim in Hseen as [_ Hm].
    destruct (String.eqb_spec name x) as [<-|].
    + rewrite Hm. apply andb_false_r.
    + apply H.
Qed.

(** Loaded and missing stay in agreement with the disk. *)
Lemma load_faithful (depth : nat) (text : string) (acc acc' : Acc) :
  load depth fs text acc = Some acc' -> faithful fs acc -> faithful fs acc'.
Proof.
  apply load_preserves.
  - intros a name count H _. exact H.
  - intros a name count [Hl Hm] _ Hfile. split; [exact Hl|].
    intros x. cbn [missing]. rewrite set_has_add.
    destruct (String.eqb_spec name x) as [<-|]; [intros _; exact Hfile|apply Hm].
  - intros a name count content [Hl Hm] _ Hfile. split; [|exact Hm].
    intros x c. cbn [loaded].
    destruct (String.eqb_spec name x) as [<-|Hne].
    + rewrite get_set_same. intros E; injection E as <-. exact Hfile.
    + rewrite get_set_other by assumption. apply Hl.
Qed.

(** A deeper bound changes nothing. *)
Lemma loop_ext (rec rec' : string -> Acc -> option Acc) :
  (forall content a a', rec content a = Some a' -> rec' content a = Some a') ->
  forall markers acc acc',
    loop rec fs markers acc = Some acc' -> loop rec' fs markers acc = Some acc'.
Proof.
  intros Hrec. induction markers as [|[name count] markers IH]; intros acc acc' H.
  - exact H.
  - cbn [loop visit] in *.
    destruct (JsMap.has (loaded acc) name || JsSet.has (missing acc) name); [now apply IH|].
    destruct (loadConceptFile fs name) as [content|]; [|now apply IH].
    destruct (rec content _) as [acc1|] eqn:Erec; [|discriminate].
    rewrite (Hrec _ _ _ Erec). now apply IH.
Qed.

Lemma load_deeper (depth : nat) :
  forall depth' text acc acc',
    depth <= depth' ->
    load depth fs text acc = Some acc' -> load depth' fs text acc = Some acc'.
Proof.
  induction depth as [|d IH]; intros depth' text acc acc' Hle H; [discriminate|].
  destruct depth' as [|d']; [lia|]. cbn [load] in *.
  eapply loop_ext; [|exact H]. intros content a a'. apply IH. lia.
Qed.

End LoaderSpec.

Section LoaderClaims.
Import Collaboration.

Lemma faithful_empty (fs : FileSystem) : faithful fs emptyAcc.
Proof. split; intros; discriminate. Qed.

Lemma disjoint_empty : disjoint emptyAcc.
Proof. intros name. reflexivity. Qed.

(** From empty accumulators, a name that was dealt with and is on
    disk is loaded with the content on disk. *)
Lemma seen_on_disk_loaded (fs : FileSystem) (r : Acc) (name content : string) :
  faithful fs r -> seen r name = true -> loadConceptFile fs name = Some content ->
  JsMap.get (loaded r) name = Some content.
Proof.
  intros [Hl Hm] Hseen Hfile. unfold seen, JsMap.has in Hseen.
  destruct (JsMap.get (loaded r) name) as [c|] eqn:E.
  - apply Hl in E. congruence.
  - simpl in Hseen. apply Hm in Hseen. congruence.
Qed.

(** C9: whatever the text and the documents on disk,
    [loadConceptsRecursively] started with empty accumulators returns,
    and in its result no name is both a key of the loaded map and a
    member of the missing set. *)
Theorem loaded_and_missing_disjoint (fs : FileSystem) (text : string) :
  exists r,
    loadConceptsRecursively fs text emptyAcc = Some r
    /\ forall name, JsMap.has (loaded r) name && JsSet.has (missing r) name = false.
Proof.
  destruct (load_total fs text emptyAcc) as [r Hr]. exists r. split; [exact Hr|].
  exact (load_disjoint fs _ _ _ _ Hr disjoint_empty).
Qed.

(** C5: when [concepts/a.md] contains the marker of [b] and
    [concepts/b.md] the marker of [a], loading from a root text that
    refers to [a] only returns; [a] and [b] are both in the loaded map,
    with their contents; and the count of every name is the number of
    its marker matches in the root text and the loaded documents, each
    scanned once. *)
Theorem mutual_references_load_once
    (fs : FileSystem) (root a b contentA contentB : string) :
  loadConceptFile fs a = Some contentA -> In b (markerNames contentA) ->
  loadConceptFile fs b = Some contentB -> In a (markerNames contentB) ->
  In a (markerNames root) -> (forall x, In x (markerNames root) -> x = a) ->
  exists r,
    loadConceptsRecursively fs root emptyAcc = Some r
    /\ JsMap.get (loaded r) a = Some contentA
    /\ JsMap.get (loaded r) b = Some contentB
    /\ forall x, JsMap.getOr0 (counts r) x = occurrences root x + inDocuments x (loaded r).
Proof.
  intros Ha Hab Hb _ Hroot _.
  destruct (load_total fs root emptyAcc) as [r Hr]. exists r. split; [exact Hr|].
  pose proof (load_faithful fs _ _ _ _ Hr (faithful_empty fs)) as Hfaith.
  destruct (load_ranOver fs _ _ _ _ Hr) as (new & Hl & _ & Hcount & Hnamed & Hclosed).
  cbn [loaded emptyAcc app] in Hl. subst new.
  assert (HA : JsMap.get (loaded r) a = Some contentA)
    by (apply (seen_on_disk_loaded fs); auto).
  split; [exact HA|]. split.
  - apply (seen_on_disk_loaded fs); auto.
    apply (Hclosed a contentA b); [now apply get_In | exact Hab].
  - intros x. rewrite Hcount. reflexivity.
Qed.

Lemma mutual_references_load_once_witness :
  exists r,
    loadConceptsRecursively [("a", "See `cf:b`."); ("b", "Back to `cf:a`.")]
                            "Apply `cf:a`." emptyAcc = Some r
    /\ JsMap.get (loaded r) "a" = Some "See `cf:b`."
    /\ JsMap.get (loaded r) "b" = Some "Back to `cf:a`."
    /\ forall x, JsMap.getOr0 (counts r) x
                 = occurrences "Apply `cf:a`." x + inDocuments x (loaded r).
Proof.
  apply (mutual_references_load_once
           [("a", "See `cf:b`."); ("b", "Back to `cf:a`.")]
           "Apply `cf:a`." "a" "b" "See `cf:b`." "Back to `cf:a`.").
  - reflexivity.
  - vm_compute. left; reflexivity.
  - reflexivity.
  - vm_compute. left; reflexivity.
  - vm_compute. left; reflexivity.
  - vm_compute. intros x [H|[]]. symmetry; exact H.
Defined.

(** The same run, computed: both documents loaded once, [a] counted
    twice (root and [b.md]), [b] once, nothing missing. *)
Example mutual_references_computed :
  loadConceptsRecursively [("a", "See `cf:b`."); ("b", "Back to `cf:a`.")]
                          "Apply `cf:a`." emptyAcc
  = Some (mkAcc [("a", "See `cf:b`."); ("b", "Back to `cf:a`.")]
                [("a", 2); ("b", 1)] []).
Proof. vm_compute; reflexivity. Qed.

End LoaderClaims.

(* ------------------------------------------------------------------ *)
(** ** Marker extraction *)

Section MarkerFacts.
Import RegExp Collaboration.

Lemma marker_regex : CONCEPT_MARKER_REGEX = framed "`cf:" markerChar "`".
Proof. reflexivity. Qed.

Lemma markerChar_notBacktick (c : ascii) : markerChar c = true -> notBacktick c = true.
Proof.
  intros H. unfold notBacktick. destruct (Ascii.eqb_spec c "`") as [->|]; [|reflexivity].
  vm_compute in H. discriminate.
Qed.

Lemma allIn_weaken (f g : ascii -> bool) (s : string) :
  (forall c, f c = true -> g c = true) -> allIn f s = true -> allIn g s = true.
Proof.
  intros Hfg. induction s as [|c s IH]; simpl; [reflexivity|].
  intros H. apply andb_prop in H as [Hc Hs]. now rewrite (Hfg _ Hc), IH.
Qed.

Lemma validName_inv (n : string) :
  validName n = true -> allIn markerChar n = true /\ n <> EmptyString.
Proof.
  unfold validName. intros H. apply andb_prop in H as [H1 H2]. split; [assumption|].
  intros ->. discriminate.
Qed.

Lemma validName_intro (n : string) :
  allIn markerChar n = true -> n <> EmptyString -> validName n = true.
Proof.
  intros H1 H2. unfold validName. rewrite H1, andb_true_r.
  apply negb_true_iff, String.eqb_neq, H2.
Qed.

Lemma marker_append (n t : string) :
  (marker n ++ t)%string = ("`cf:" ++ n ++ String "`" t)%string.
Proof. unfold marker. now rewrite !append_assoc. Qed.

(** Where the literal marker of a valid name begins, the pattern
    matches and captures that name. *)
Lemma hit_rmatch (p : option ascii) (s n : string) :
  validName n = true -> prefix (marker n) s = true ->
  exists t, s = ("`cf:" ++ n ++ String "`" t)%string
            /\ rmatch CONCEPT_MARKER_REGEX (mkM p s [])
               = [mkM (Some "`"%char) t [(1, n)]].
Proof.
  intros Hn Hp. apply validName_inv in Hn as [Hall Hne].
  apply prefix_split in Hp as [t ->]. exists t. rewrite marker_append. split; [reflexivity|].
  rewrite marker_regex. now apply rmatch_framed_start.
Qed.

Lemma rmatch_marker_inv (p : option ascii) (s : string) (st : MState) (tl : list MState) :
  rmatch CONCEPT_MARKER_REGEX (mkM p s []) = st :: tl ->
  exists nm s3,
    validName nm = true /\ s = ("`cf:" ++ nm ++ String "`" s3)%string
    /\ st = mkM (Some "`"%char) s3 [(1, nm)] /\ tl = [].
Proof.
  rewrite marker_regex. intros H.
  apply rmatch_framed_inv in H as (nm & s3 & Hne & Hall & -> & -> & ->); [|reflexivity].
  exists nm, s3. repeat split. now apply validName_intro.
Qed.

Lemma marker_cons (n : string) : marker n = String "`" ("cf:" ++ n ++ "`").
Proof. reflexivity. Qed.

Lemma countAt_skip (n w t : string) :
  allIn notBacktick w = true -> countAt (marker n) (w ++ t) = countAt (marker n) t.
Proof.
  induction w as [|c w IH]; [reflexivity|]. cbn [allIn append countAt].
  intros H. apply andb_prop in H as [Hc Hw].
  unfold notBacktick in Hc. apply negb_true_iff, Ascii.eqb_neq in Hc.
  rewrite (IH Hw), marker_cons, prefix_head_neq; [reflexivity|congruence].
Qed.

(** The occurrences of a marker in a text that begins with a matched
    marker: the match itself when the names agree, the one that may
    begin at its closing backtick, and those after it. *)
Lemma countAt_match (nm s3 n : string) :
  validName nm = true -> validName n = true ->
  countAt (marker n) ("`cf:" ++ nm ++ String "`" s3)
  = (if String.eqb n nm then 1 else 0)
    + (if prefix (marker n) (String "`" s3) then 1 else 0)
    + countAt (marker n) s3.
Proof.
  intros Hnm Hn.
  assert (Hhit : prefix (marker n) ("`cf:" ++ nm ++ String "`" s3) = String.eqb n nm).
  { destruct (String.eqb_spec n nm) as [->|Hne].
    - rewrite <- marker_append. apply prefix_append.
    - destruct (prefix (marker n) _) eqn:E; [|reflexivity].
      destruct (hit_rmatch None _ _ Hn E) as (t & _ & Hr).
      destruct (hit_rmatch None ("`cf:" ++ nm ++ String "`" s3) nm Hnm) as (t' & _ & Hr').
      { rewrite <- marker_append. apply prefix_append. }
      rewrite Hr in Hr'. injection Hr' as _ E'. congruence. }
  change (countAt (marker n) ("`cf:" ++ nm ++ String "`" s3))
    with ((if prefix (marker n) ("`cf:" ++ nm ++ String "`" s3) then 1 else 0)
          + countAt (marker n) (("cf:" ++ nm) ++ String "`" s3)).
  rewrite Hhit, countAt_skip.
  - cbn [countAt]. lia.
  - apply validName_inv in Hnm as [Hall _].
    cbn [append allIn].
    rewrite (allIn_weaken markerChar notBacktick nm markerChar_notBacktick Hall).
    reflexivity.
Qed.

Lemma countAt_cons (pat : string) (c : ascii) (t : string) :
  countAt pat (String c t) = (if prefix pat (String c t) then 1 else 0) + countAt pat t.
Proof. reflexivity. Qed.

Lemma countAt_nil (n : string) : countAt (marker n) EmptyString = 0.
Proof. reflexivity. Qed.

(** A search that finds nothing: the text holds no marker. *)
Lemma exec_marker_none (s : string) :
  forall p i, exec_from CONCEPT_MARKER_REGEX p s i = None ->
  forall n, validName n = true -> countAt (marker n) s = 0.
Proof.
  induction s as [|c s IH]; intros p i H n Hn; [reflexivity|].
  cbn [exec_from] in H.
  destruct (rmatch CONCEPT_MARKER_REGEX (mkM p (String c s) [])) as [|st tl] eqn:Er;
    [|discriminate].
  cbn [countAt]. rewrite (IH _ _ H n Hn).
  destruct (prefix (marker n) (String c s)) eqn:E; [|reflexivity].
  destruct (hit_rmatch p _ _ Hn E) as (t & _ & Hr). congruence.
Qed.

(** A search that finds a match: its name is valid, its text is the
    marker, and the occurrences split around it. *)
Lemma exec_marker_some (s : string) :
  forall p i m, exec_from CONCEPT_MARKER_REGEX p s i = Some m ->
  exists nm s3 pre,
    validName nm = true /\ markerName m = nm /\ rest (final m) = s3
    /\ text m = marker nm
    /\ s = (pre ++ "`cf:" ++ nm ++ String "`" s3)%string
    /\ forall n, validName n = true ->
         countAt (marker n) s
         = (if String.eqb n nm then 1 else 0)
           + (if prefix (marker n) (String "`" s3) then 1 else 0)
           + countAt (marker n) s3.
Proof.
  assert (Here : forall p s i m st tl,
             rmatch CONCEPT_MARKER_REGEX (mkM p s []) = st :: tl ->
             Some (mkMatch i (consumed (mkM p s []) st) st) = Some m ->
             exists nm s3 pre,
               validName nm = true /\ markerName m = nm /\ rest (final m) = s3
               /\ text m = marker nm
               /\ s = (pre ++ "`cf:" ++ nm ++ String "`" s3)%string
               /\ forall n, validName n = true ->
                    countAt (marker n) s
                    = (if String.eqb n nm then 1 else 0)
                      + (if prefix (marker n) (String "`" s3) then 1 else 0)
                      + countAt (marker n) s3).
  { intros p s0 i m st tl Er Hm. injection Hm as <-.
    apply rmatch_marker_inv in Er as (nm & s3 & Hnm & -> & -> & ->).
    exists nm, s3, EmptyString. repeat split; auto.
    - unfold consumed. cbn [text rest]. rewrite <- marker_append.
      replace (String.length (marker nm ++ s3) - String.length s3)
        with (String.length (marker nm)) by (rewrite length_append; lia).
      apply take_append.
    - intros n Hn. now apply countAt_match. }
  induction s as [|c s IH]; intros p i m H; cbn [exec_from] in H.
  - destruct (rmatch CONCEPT_MARKER_REGEX (mkM p EmptyString [])) as [|st tl] eqn:Er;
      [discriminate|]. eapply Here; eauto.
  - destruct (rmatch CONCEPT_MARKER_REGEX (mkM p (String c s) [])) as [|st tl] eqn:Er.
    + destruct (IH _ _ _ H) as (nm & s3 & pre & Hnm & Hname & Hrest & Htext & -> & Hcount).
      exists nm, s3, (String c pre). repeat split; auto.
      intros n Hn. rewrite <- (Hcount n Hn).
      change (String c pre ++ "`cf:" ++ nm ++ String "`" s3)%string
        with (String c (pre ++ "`cf:" ++ nm ++ String "`" s3)).
      rewrite countAt_cons.
      destruct (prefix (marker n) (String c (pre ++ "`cf:" ++ nm ++ String "`" s3))) eqn:E;
        [|reflexivity].
      destruct (hit_rmatch p _ _ Hn E) as (t & _ & Hr). congruence.
    + eapply Here; eauto.
Qed.

End MarkerFacts.

Section MarkerClaims.
Import RegExp Collaboration.

Lemma noShared_suffix (a b : string) :
  noSharedBacktick (a ++ b) -> noSharedBacktick b.
Proof.
  intros H n m Hn Hm. specialize (H n m Hn Hm).
  destruct (JS.includes b _) eqn:E; [|reflexivity].
  now rewrite (includes_append a _ _ E) in H.
Qed.

(** Without shared backticks no marker begins at the closing backtick
    of a matched one. *)
Lemma noShared_closing (pre nm s3 n : string) :
  noSharedBacktick (pre ++ "`cf:" ++ nm ++ String "`" s3) ->
  validName nm = true -> validName n = true ->
  prefix (marker n) (String "`" s3) = false.
Proof.
  intros H Hnm Hn. destruct (prefix (marker n) (String "`" s3)) eqn:E; [|reflexivity].
  apply prefix_split in E as [t E]. rewrite E in H.
  specialize (H nm n Hnm Hn).
  assert (JS.includes (pre ++ "`cf:" ++ nm ++ marker n ++ t)
                      ("`cf:" ++ nm ++ "`cf:" ++ n ++ "`") = true) as G; [|congruence].
  apply includes_append.
  change ("`cf:" ++ nm ++ "`cf:" ++ n ++ "`")%string with ("`cf:" ++ nm ++ marker n)%string.
  rewrite <- (append_assoc nm (marker n) t), <- (append_assoc "`cf:" (nm ++ marker n) t).
  apply includes_prefix, prefix_append.
Qed.

Lemma sharedFree_sound (text : string) :
  sharedFree text = true -> noSharedBacktick text.
Proof.
  intros H n m Hn Hm. induction text as [|c text IH].
  - reflexivity.
  - cbn [JS.includes]. apply orb_false_iff. split.
    + destruct (prefix _ (String c text)) eqn:E; [|reflexivity].
      apply prefix_split in E as [t E].
      apply validName_inv in Hn as [Hn1 Hn2]. apply validName_inv in Hm as [Hm1 Hm2].
      assert (E' : String c text
                   = ("`cf:" ++ n ++ String "`" ("cf:" ++ m ++ String "`" t))%string).
      { rewrite E. rewrite !append_assoc. reflexivity. }
      cbn [sharedFree] in H. rewrite E' in H at 1. rewrite marker_regex in H.
      rewrite (rmatch_framed_start "`cf:" markerChar "`" None n _ [] eq_refl Hn1 Hn2) in H.
      cbn [rest] in H.
      change (String "`" ("cf:" ++ m ++ String "`" t))
        with ("`cf:" ++ m ++ String "`" t)%string in H.
      rewrite (rmatch_framed_start "`cf:" markerChar "`" None m _ [] eq_refl Hm1 Hm2) in H.
      discriminate.
    + apply IH. cbn [sharedFree] in H. now apply andb_prop in H.
Qed.

(** The names matched by one scan, against the literal occurrences:
    never more, and as many where no backtick is shared. *)
Lemma names_count (fuel : nat) :
  forall s p,
    String.length s < fuel ->
    forall n, validName n = true ->
      count_occ string_dec (map markerName (matchAll_from fuel CONCEPT_MARKER_REGEX p s)) n
      <= countAt (marker n) s
      /\ (noSharedBacktick s ->
          count_occ string_dec (map markerName (matchAll_from fuel CONCEPT_MARKER_REGEX p s)) n
          = countAt (marker n) s).
Proof.
  induction fuel as [|fuel IH]; intros s p Hlen n Hn; [lia|].
  cbn [matchAll_from].
  destruct (exec_from CONCEPT_MARKER_REGEX p s 0) as [m|] eqn:E.
  - destruct (exec_marker_some _ _ _ _ E)
      as (nm & s3 & pre & Hnm & Hname & Hrest & Htext & Hs & Hcount).
    rewrite Htext, marker_cons, Hrest. cbn [map count_occ]. rewrite Hname, (Hcount n Hn).
    assert (Hlen3 : String.length s3 < fuel).
    { rewrite Hs in Hlen. rewrite !length_append in Hlen. cbn [String.length] in Hlen. lia. }
    destruct (IH s3 (prev (final m)) Hlen3 n Hn) as [Hle Heq].
    assert (Hhere : (if string_dec nm n then 1 else 0) = (if String.eqb n nm then 1 else 0)).
    { destruct (string_dec nm n) as [->|Hne].
      - now rewrite String.eqb_refl.
      - destruct (String.eqb_spec n nm); [congruence|reflexivity]. }
    split.
    + destruct (string_dec nm n); destruct (String.eqb n nm);
        destruct (prefix (marker n) (String "`" s3)); simpl in *; lia || discriminate.
    + intros Hno. rewrite Hs in Hno.
      rewrite (noShared_closing _ _ _ _ Hno Hnm Hn).
      assert (Hno3 : noSharedBacktick s3).
      { apply (noShared_suffix "`"), (noShared_suffix nm), (noShared_suffix "`cf:"),
          (noShared_suffix pre). exact Hno. }
      rewrite <- (Heq Hno3).
      destruct (string_dec nm n); destruct (String.eqb n nm); simpl in *; lia || discriminate.
  - split; [|intros _]; rewrite (exec_marker_none _ _ _ E n Hn); simpl; lia.
Qed.

Lemma names_valid (fuel : nat) :
  forall s p name,
    In name (map markerName (matchAll_from fuel CONCEPT_MARKER_REGEX p s)) ->
    validName name = true.
Proof.
  induction fuel as [|fuel IH]; intros s p name H; [destruct H|].
  cbn [matchAll_from] in H.
  destruct (exec_from CONCEPT_MARKER_REGEX p s 0) as [m|] eqn:E; [|destruct H].
  destruct (exec_marker_some _ _ _ _ E)
    as (nm & s3 & pre & Hnm & Hname & Hrest & Htext & Hs & Hcount).
  rewrite Htext, marker_cons in H. cbn [map] in H. destruct H as [H|H].
  - congruence.
  - eapply IH; eauto.
Qed.

Lemma occurrences_le_literal (text name : string) :
  validName name = true -> occurrences text name <= literalOccurrences text name.
Proof.
  intros Hn. unfold occurrences, markerNames, matchAll, literalOccurrences.
  apply names_count; [lia|assumption].
Qed.

Lemma occurrences_eq_literal (text name : string) :
  noSharedBacktick text -> validName name = true ->
  occurrences text name = literalOccurrences text name.
Proof.
  intros Hno Hn. unfold occurrences, markerNames, matchAll, literalOccurrences.
  apply names_count; [lia|assumption|assumption].
Qed.

(** C6, as the code has it: the text [See `cf:a` and `cf:a` and `cf:b`.]
    yields the counts [{a: 2, b: 1}]; every entry of a result is a name
    of one or more code units of [[A-Za-z0-9_-]] with a positive count
    that does not exceed the occurrences of its literal marker; and in a
    text where no backtick closes one marker and opens the next, the
    count of every such name is the number of occurrences of its literal
    marker.  Matches are taken left to right without overlap. *)
Theorem parseConceptMarkers_counts_markers :
  parseConceptMarkers "See `cf:a` and `cf:a` and `cf:b`." = [("a", 2); ("b", 1)]
  /\ (forall text name count,
        JsMap.get (parseConceptMarkers text) name = Some count ->
        validName name = true /\ 0 < count /\ count <= literalOccurrences text name)
  /\ (forall text name,
        noSharedBacktick text -> validName name = true ->
        JsMap.getOr0 (parseConceptMarkers text) name = literalOccurrences text name).
Proof.
  split; [vm_compute; reflexivity|]. split.
  - intros text name count H.
    assert (Hin : In name (markerNames text)).
    { apply parseConceptMarkers_names. exists count. now apply get_In. }
    assert (Hvalid : validName name = true) by (eapply names_valid; exact Hin).
    pose proof (parseConceptMarkers_count text name) as Hc.
    unfold JsMap.getOr0 in Hc. rewrite H in Hc.
    repeat split.
    + exact Hvalid.
    + rewrite Hc. unfold occurrences. now apply count_occ_In.
    + rewrite Hc. now apply occurrences_le_literal.
  - intros text name Hno Hn. rewrite parseConceptMarkers_count.
    now apply occurrences_eq_literal.
Qed.

(** The example text shares no backtick, so the count of [a] is the
    number of occurrences of its literal marker. *)
Lemma parseConceptMarkers_counts_markers_witness :
  JsMap.getOr0 (parseConceptMarkers "See `cf:a` and `cf:a` and `cf:b`.") "a"
  = literalOccurrences "See `cf:a` and `cf:a` and `cf:b`." "a"
  /\ literalOccurrences "See `cf:a` and `cf:a` and `cf:b`." "a" = 2.
Proof.
  split; [|reflexivity].
  apply (proj2 (proj2 parseConceptMarkers_counts_markers)).
  - apply sharedFree_sound. vm_compute. reflexivity.
  - reflexivity.
Defined.

(** C6 as stated fails where two markers share a backtick: the text
    [`cf:a`cf:b`] contains the literal marker of [b] once, and
    [parseConceptMarkers] counts only [a]. *)
Lemma parseConceptMarkers_counterexample :
  literalOccurrences "`cf:a`cf:b`" "b" = 1
  /\ validName "b" = true
  /\ parseConceptMarkers "`cf:a`cf:b`" = [("a", 1)]
  /\ JsMap.get (parseConceptMarkers "`cf:a`cf:b`") "b" = None.
Proof. repeat split; vm_compute; reflexivity. Qed.

End MarkerClaims.

(* ------------------------------------------------------------------ *)
(** ** The github tool: one confirmation at a time *)

Section GuardFacts.
Import GithubTool.

(** A call that passes the checks reaches the guard or, read-only,
    goes straight to [gh]. *)
Lemma execute_checked (ctx : Ctx) (command : string) :
  passesChecks ctx command = true ->
  execute ctx command =
  if negb (isReadOnly command) then
    ReadFlag (fun inProgress =>
      if inProgress then Ret waitResult
      else WriteFlag true
             (ShowConfirmModal command (getAccount ctx)
                (afterModal command (getAccount ctx) (getConfigDir ctx))))
  else runGh command (getAccount ctx) (getConfigDir ctx).
Proof.
  unfold passesChecks, execute. intros H.
  apply andb_prop in H as [Hauth H]. apply negb_true_iff in Hauth. rewrite Hauth.
  destruct (isGlobalCommand command); cbn [negb andb orb] in *; [reflexivity|].
  apply andb_prop in H as [Hflag Howner]. apply negb_true_iff in Hflag.
  now rewrite Hflag, Howner.
Qed.









End GuardFacts.

Section GuardClaims.
Import GithubTool.

Lemma promptOpen_reachable : reachable promptOpen.
Proof. exists [Call agentCtx "pr merge 5"]. vm_compute. reflexivity. Qed.






End GuardClaims.

(* ------------------------------------------------------------------ *)
(** ** Further facts on strings and on the matcher *)

Section MoreStringFacts.
Import RegExp.

Lemma trimStart_solid (s : string) : startsSolid s = true -> JS.trimStart s = s.
Proof.
  destruct s as [|c s]; [discriminate|]. cbn [startsSolid JS.trimStart].
  intros H. apply negb_true_iff in H. now rewrite H.
Qed.

Lemma trimEnd_keep (a : string) (c : ascii) (b : string) :
  JS.isWhiteSpace c = false ->
  JS.trimEnd (a ++ String c b) = (a ++ String c (JS.trimEnd b))%string.
Proof.
  intros Hc. induction a as [|x a IH].
  - cbn [append JS.trimEnd]. rewrite Hc. now destruct (JS.trimEnd b).
  - cbn [append JS.trimEnd]. rewrite IH. now destruct a.
Qed.

(** Trimming the end only drops whitespace from the end. *)
Lemma trimEnd_prefix (s : string) :
  exists w, s = (JS.trimEnd s ++ w)%string /\ allIn JS.isWhiteSpace w = true.
Proof.
  induction s as [|c s (w & Hs & Hw)].
  - now exists EmptyString.
  - cbn [JS.trimEnd]. destruct (JS.trimEnd s) as [|d t] eqn:E.
    + destruct (JS.isWhiteSpace c) eqn:Hc.
      * exists (String c w). cbn [append allIn]. rewrite Hc, Hw.
        split; [|reflexivity]. f_equal. exact Hs.
      * exists w. cbn [append]. split; [|assumption]. f_equal. exact Hs.
    + exists w. cbn [append]. split; [|assumption]. f_equal. exact Hs.
Qed.

Lemma includes_app_l (a b sub : string) :
  JS.includes a sub = true -> JS.includes (a ++ b) sub = true.
Proof.
  induction a as [|c a IH]; cbn [JS.includes append].
  - rewrite orb_false_r. intros H. destruct sub; [|destruct b; discriminate].
    now destruct b.
  - intros H. apply orb_prop in H as [H|H].
    + apply prefix_split in H as [t H].
      change (String c (a ++ b)) with (String c a ++ b)%string.
      rewrite H, append_assoc, prefix_append. reflexivity.
    + rewrite (IH H). apply orb_true_r.
Qed.

Lemma includes_trimEnd (s sub : string) :
  JS.includes s sub = false -> JS.includes (JS.trimEnd s) sub = false.
Proof.
  intros H. destruct (trimEnd_prefix s) as (w & Hs & _).
  destruct (JS.includes (JS.trimEnd s) sub) eqn:E; [|reflexivity].
  rewrite Hs in H. now rewrite (includes_app_l _ w _ E) in H.
Qed.

Lemma prefix_trimEnd (l s : string) :
  prefix l (JS.trimEnd s) = true -> prefix l s = true.
Proof.
  intros H. destruct (trimEnd_prefix s) as (w & Hs & _).
  apply prefix_split in H as [t H]. rewrite Hs, H, append_assoc. apply prefix_append.
Qed.

(** [^] holds at the start of the input only. *)
Lemma exec_from_anchored (r : re) (s : string) :
  forall c i, exec_from (Seq Bol r) (Some c) s i = None.
Proof.
  induction s as [|d s IH]; intros c i; cbn [exec_from]; rewrite rmatch_Seq;
    cbn [rmatch prev flat_map]; [reflexivity|apply IH].
Qed.

Lemma test_anchored (r : re) (s : string) :
  test (Seq Bol r) s =
  match rmatch r (mkM None s []) with [] => false | _ :: _ => true end.
Proof.
  unfold test, exec. destruct s as [|c s]; cbn [exec_from]; rewrite rmatch_Seq;
    cbn [rmatch prev flat_map]; rewrite app_nil_r;
    destruct (rmatch r _); try reflexivity.
  now rewrite exec_from_anchored.
Qed.

(** A pattern that matches at [t] after any code unit is found in
    every text that ends with [t]. *)
Lemma exec_from_found (r : re) (t : string) :
  (forall p, rmatch r (mkM p t []) <> []) ->
  forall pre p i, exec_from r p (pre ++ t) i <> None.
Proof.
  intros Ht. induction pre as [|c pre IH]; intros p i.
  - cbn [append]. specialize (Ht p).
    destruct t; cbn [exec_from]; destruct (rmatch r _); congruence.
  - cbn [append exec_from]. destruct (rmatch r _); [apply IH|discriminate].
Qed.

(** The continuations of a starred class are the input with a prefix
    inside the class taken off. *)
Lemma rmatch_star_cls_suffix (f : ascii -> bool) (s : string) :
  forall p cs st',
    In st' (rmatch (Star (Cls f)) (mkM p s cs)) ->
    exists pre, s = (pre ++ rest st')%string /\ allIn f pre = true /\ caps st' = cs.
Proof.
  induction s as [|c s IH]; intros p cs st' H; rewrite rmatch_star_cls in H.
  - destruct H as [<-|[]]. now exists EmptyString.
  - destruct (f c) eqn:Hc.
    + apply in_app_or in H as [H|[<-|[]]].
      * destruct (IH _ _ _ H) as (pre & -> & Hpre & Hcaps).
        exists (String c pre). cbn [append allIn]. now rewrite Hc, Hpre.
      * now exists EmptyString.
    + destruct H as [<-|[]]. now exists EmptyString.
Qed.

(** The greedy continuation comes first: the whole run of the class. *)
Lemma rmatch_star_cls_head (f : ascii -> bool) (w : string) (c : ascii) (t : string) :
  allIn f w = true -> f c = false ->
  forall p cs, exists q tl,
    rmatch (Star (Cls f)) (mkM p (w ++ String c t) cs) = mkM q (String c t) cs :: tl.
Proof.
  intros Hw Hc. induction w as [|x w IH]; intros p cs; rewrite rmatch_star_cls.
  - cbn [append]. rewrite Hc. now exists p, [].
  - cbn [append]. simpl in Hw. apply andb_prop in Hw as [Hx Hw]. rewrite Hx.
    destruct (IH Hw (Some x) cs) as (q & tl & ->). now exists q, (tl ++ [mkM p (String x (w ++ String c t)) cs]).
Qed.

(** A starred class followed by a literal that the input does not
    contain has no continuation. *)
Lemma rmatch_star_lit_absent (f : ascii -> bool) (l : string) (p : option ascii)
      (s : string) (cs : list (nat * string)) :
  JS.includes s l = false ->
  rmatch (Seq (Star (Cls f)) (Lit l)) (mkM p s cs) = [].
Proof.
  intros H. rewrite rmatch_Seq.
  assert (G : forall l0, (forall st', In st' l0 -> In st' (rmatch (Star (Cls f)) (mkM p s cs))) ->
                         flat_map (rmatch (Lit l)) l0 = []).
  { induction l0 as [|st l0 IH]; intros Hl0; [reflexivity|].
    cbn [flat_map]. rewrite IH by (intros; apply Hl0; now right).
    destruct (rmatch_star_cls_suffix f s p cs st (Hl0 st (or_introl eq_refl)))
      as (pre & Hs & _ & _).
    rewrite rmatch_Lit.
    rewrite lit_step_prefix; [reflexivity|].
    apply includes_head. destruct (JS.includes (rest st) l) eqn:E; [|reflexivity].
    rewrite Hs in H. now rewrite (includes_append pre _ _ E) in H. }
  apply G. auto.
Qed.

End MoreStringFacts.

(* ------------------------------------------------------------------ *)
(** ** Replacing one code unit everywhere *)

Section ReplaceFacts.
Import RegExp.

Lemma substChar_app (ch : ascii) (repl a b : string) :
  substChar ch repl (a ++ b) = (substChar ch repl a ++ substChar ch repl b)%string.
Proof.
  induction a as [|c a IH]; cbn [append substChar]; [reflexivity|].
  now rewrite IH, append_assoc.
Qed.

Lemma substChar_free (ch : ascii) (repl s : string) :
  allIn (differs ch) s = true -> substChar ch repl s = s.
Proof.
  induction s as [|c s IH]; cbn [allIn substChar]; [reflexivity|].
  intros H. apply andb_prop in H as [Hc Hs]. unfold differs in Hc.
  apply negb_true_iff in Hc. now rewrite Hc, (IH Hs).
Qed.

(** The first match of a one-unit literal: where it is and what is
    around it. *)
Lemma exec_from_char (ch : ascii) (s : string) :
  forall p i,
    match exec_from (Lit (String ch EmptyString)) p s i with
    | None => allIn (differs ch) s = true
    | Some m =>
        exists pre post,
          s = (pre ++ String ch post)%string /\ allIn (differs ch) pre = true
          /\ index m = i + String.length pre
          /\ text m = String ch EmptyString
          /\ rest (final m) = post /\ prev (final m) = Some ch
    end.
Proof.
  induction s as [|c s IH]; intros p i; cbn [exec_from]; rewrite rmatch_Lit;
    cbn [prev rest lit_step]; [reflexivity|].
  rewrite Ascii.eqb_sym. destruct (Ascii.eqb c ch) eqn:E.
  - apply Ascii.eqb_eq in E; subst c. exists EmptyString, s.
    cbn [append String.length index text final rest prev allIn].
    repeat split; [lia|]. unfold consumed. cbn [rest String.length].
    replace (S (String.length s) - String.length s) with 1 by lia. reflexivity.
  - specialize (IH (Some c) (S i)).
    destruct (exec_from _ (Some c) s (S i)) as [m|].
    + destruct IH as (pre & post & -> & Hpre & Hidx & Htext & Hrest & Hprev).
      exists (String c pre), post. cbn [append allIn String.length]. unfold differs at 1.
      rewrite E. repeat split; auto. lia.
    + cbn [allIn]. unfold differs at 1. now rewrite E.
Qed.

Lemma replaceAll_from_char (ch : ascii) (repl : string) (fuel : nat) :
  forall s p,
    String.length s < fuel ->
    replaceAll_from fuel (Lit (String ch EmptyString)) (fun _ => repl) p s
    = substChar ch repl s.
Proof.
  induction fuel as [|fuel IH]; intros s p Hlen; [lia|].
  cbn [replaceAll_from]. pose proof (exec_from_char ch s p 0) as H.
  destruct (exec_from _ p s 0) as [m|].
  - destruct H as (pre & post & -> & Hpre & Hidx & Htext & Hrest & Hprev).
    rewrite Htext, Hrest, Hidx. cbn [Nat.add]. rewrite take_append.
    rewrite substChar_app, (substChar_free _ _ _ Hpre). cbn [substChar].
    rewrite Ascii.eqb_refl, IH; [reflexivity|].
    rewrite length_append in Hlen. cbn [String.length] in Hlen. lia.
  - now rewrite substChar_free.
Qed.

(** [x.replace(/c/g, repl)] for a literal code unit [c]. *)
Lemma replaceAll_char (ch : ascii) (repl s : string) :
  replaceAll (Lit (String ch EmptyString)) (fun _ => repl) s = substChar ch repl s.
Proof. unfold replaceAll. apply replaceAll_from_char. lia. Qed.

End ReplaceFacts.

(* ------------------------------------------------------------------ *)
(** ** The workspace tool, beyond the missing checkout *)

Section WorkspaceMore.
Import Workspace.

Variable join : list string -> string.
Variables homedir tmpdir : string.

(** X1: [escapeQuotes] replaces every single quote by the four code
    units ['\''] and leaves every other code unit as it is. *)
Theorem escapeQuotes_replaces_each_quote (x : string) :
  escapeQuotes x = substChar "'" "'\''" x.
Proof. unfold escapeQuotes. apply replaceAll_char. Qed.

Lemma length_splitChar (sep : ascii) (s : string) :
  List.length (JS.splitChar sep s) = S (countChar sep s).
Proof.
  induction s as [|c s IH]; [reflexivity|]. cbn [JS.splitChar countChar].
  destruct (Ascii.eqb c sep); cbn [List.length Nat.add].
  - now rewrite IH.
  - destruct (JS.splitChar sep s); cbn [List.length] in *; lia.
Qed.

(** X2: an argument that does not hold exactly one [/] is refused as
    an invalid repo format, before the file system is looked at and
    without any subprocess. *)
Theorem workspace_invalid_repo_format (w : World) (params : Params) :
  countChar "/" (repo params) <> 1 ->
  run w (execute join homedir tmpdir params) = (Returned (invalidRepo (repo params)), []).
Proof.
  intros H. unfold execute. rewrite length_splitChar.
  destruct (Nat.eqb_spec (S (countChar "/" (repo params))) 2) as [E|_]; [lia|].
  reflexivity.
Qed.


End WorkspaceMore.

Lemma workspace_invalid_repo_format_witness :
  Workspace.run (Workspace.mkWorld (fun _ => true) (fun _ => Some "tmux-1")
                   (fun _ _ => mkExec 0 "" "") "0000" (fun _ => None) (fun _ _ => None))
    (Workspace.execute (String.concat "/") "/home/u" "/tmp"
       (Workspace.mkParams "dyreby/agent-kernel/extensions" "m" "high" None None None))
  = (Workspace.Returned (invalidRepo "dyreby/agent-kernel/extensions"), []).
Proof.
  apply (workspace_invalid_repo_format (String.concat "/") "/home/u" "/tmp").
  vm_compute. discriminate.
Defined.

(* ------------------------------------------------------------------ *)
(** ** The gh_agent tool *)

Section GhAgentToolFacts.
Import GhAgentTool.

Lemma parseLoop_plain (w : string) :
  allIn plain w = true ->
  forall args current rest,
    parseLoop args current None (w ++ rest) = parseLoop args (current ++ w) None rest.
Proof.
  induction w as [|c w IH]; intros Hw args current rest.
  - cbn [append]. now rewrite append_nil_r.
  - cbn [allIn] in Hw. apply andb_prop in Hw as [Hc Hw]. unfold plain in Hc.
    apply andb_prop in Hc as [Hq Hb]. apply negb_true_iff in Hq, Hb.
    cbn [append parseLoop]. rewrite Hq, Hb, (IH Hw).
    now rewrite append_assoc.
Qed.

Lemma parseLoop_quoted (q : ascii) (w : string) :
  allIn (differs q) w = true ->
  forall args current rest,
    parseLoop args current (Some q) (w ++ String q rest)
    = parseLoop args (current ++ w) None rest.
Proof.
  induction w as [|c w IH]; intros Hw args current rest.
  - cbn [append parseLoop]. now rewrite Ascii.eqb_refl, append_nil_r.
  - cbn [allIn] in Hw. apply andb_prop in Hw as [Hc Hw]. unfold differs in Hc.
    apply negb_true_iff in Hc. cbn [append parseLoop]. rewrite Hc, (IH Hw).
    now rewrite append_assoc.
Qed.

Lemma parseLoop_nonEmpty (s : string) :
  forall args current inQuote,
    Forall (fun a => a <> EmptyString) args ->
    Forall (fun a => a <> EmptyString) (parseLoop args current inQuote s).
Proof.
  assert (Hpush : forall args current,
             Forall (fun a => a <> EmptyString) args -> nonEmpty current = true ->
             Forall (fun a => a <> EmptyString) (args ++ [current])).
  { intros args current Ha Hc. apply Forall_app. split; [assumption|].
    constructor; [|constructor]. now destruct current. }
  induction s as [|c s IH]; intros args current inQuote Ha; cbn [parseLoop].
  - destruct (nonEmpty current) eqn:E; auto.
  - destruct inQuote as [q|].
    + destruct (Ascii.eqb c q); now apply IH.
    + destruct (isQuoteChar c); [now apply IH|].
      destruct (isBlank c); [|now apply IH].
      destruct (nonEmpty current) eqn:E; apply IH; auto.
Qed.

(** X4: [parseCommand] of gh_agent never yields an empty argument; an
    empty pair of quotes leaves no argument behind. *)
Theorem parseCommand_no_empty_argument (command : string) :
  Forall (fun a => a <> EmptyString) (parseCommand command)
  /\ parseCommand (dquote ++ dquote) = [].
Proof. split; [apply parseLoop_nonEmpty; constructor|reflexivity]. Qed.

Lemma parseLoop_words (args : list string) :
  forall done,
    Forall (fun a => plainWord a = true) args -> args <> [] ->
    parseLoop done EmptyString None (JS.join " " args) = done ++ args.
Proof.
  induction args as [|a args IH]; intros done Hall Hne; [congruence|].
  inversion Hall as [|? ? Ha Hargs]; subst. unfold plainWord in Ha.
  apply andb_prop in Ha as [Hne' Hplain].
  destruct args as [|b args].
  - cbn [JS.join concat]. rewrite <- (append_nil_r a) at 1.
    rewrite (parseLoop_plain a Hplain). cbn [append parseLoop]. now rewrite Hne'.
  - change (JS.join " " (a :: b :: args))
      with (a ++ String " " (JS.join " " (b :: args)))%string.
    rewrite (parseLoop_plain a Hplain). cbn [append parseLoop isQuoteChar isBlank].
    cbn [Ascii.eqb Bool.eqb orb]. rewrite Hne'.
    rewrite IH; [|assumption|discriminate]. now rewrite <- app_assoc.
Qed.

(** X5: joining words by single spaces and parsing them again gives
    the words back, when each word is non-empty and free of quotes,
    spaces and tabs. *)
Theorem parseCommand_join_round_trip (args : list string) :
  Forall (fun a => plainWord a = true) args ->
  parseCommand (JS.join " " args) = args.
Proof.
  intros H. destruct args as [|a args]; [reflexivity|].
  unfold parseCommand. rewrite parseLoop_words; [reflexivity|assumption|discriminate].
Qed.

Lemma parseCommand_join_round_trip_witness :
  parseCommand (JS.join " " ["issue"; "view"; "12"; "--repo"; "o/r"])
  = ["issue"; "view"; "12"; "--repo"; "o/r"].
Proof.
  apply parseCommand_join_round_trip. repeat constructor.
Defined.

(** X6: a quoted stretch is taken verbatim, blanks included, the
    quotes themselves are dropped, and what is glued to it before and
    after belongs to the same argument. *)
Theorem parseCommand_quoted (q : ascii) (before inside after : string) :
  isQuoteChar q = true ->
  allIn plain before = true -> allIn (differs q) inside = true ->
  allIn plain after = true ->
  parseCommand (before ++ String q (inside ++ String q after))
  = if nonEmpty (before ++ inside ++ after)
    then [(before ++ inside ++ after)%string] else [].
Proof.
  intros Hq Hb Hi Ha. unfold parseCommand.
  rewrite (parseLoop_plain before Hb). cbn [append parseLoop]. rewrite Hq.
  rewrite (parseLoop_quoted q inside Hi).
  rewrite <- (append_nil_r after) at 1. rewrite (parseLoop_plain after Ha).
  cbn [parseLoop]. now rewrite append_assoc.
Qed.

Lemma parseCommand_quoted_witness :
  parseCommand ("--title=" ++ String "'" ("a b" ++ String "'" "!"))
  = ["--title=a b!"].
Proof.
  apply (parseCommand_quoted "'" "--title=" "a b" "!"); reflexivity.
Defined.

(** X7: the gh_agent tool spawns a subprocess only when there is no
    configuration error, a token is held and the command passes the
    allow list; it then spawns exactly one, [gh] with the parsed
    arguments and the token as [GH_TOKEN], and flags an error exactly
    when the exit code is not zero.  In every other case it returns an
    error result and spawns nothing. *)
Theorem gh_agent_spawns_only_allowed
    (answer : string -> list string -> ExecResult) (st : State) (command : string) :
  let r := fst (run answer (execute st command)) in
  let t := snd (run answer (execute st command)) in
  if ghAgentReady st command
  then t = [mkSpawn "gh" (parseCommand command) (agentToken st)]
       /\ isError r = negb (Z.eqb (code (answer "gh" (parseCommand command))) 0)
       /\ details r = Some (code (answer "gh" (parseCommand command)))
       /\ text r <> EmptyString
  else t = [] /\ isError r = true /\ details r = None.
Proof.
  cbv zeta. unfold ghAgentReady, execute.
  destruct (truthy (configError st)); cbn [negb andb]; [now repeat split|].
  destruct (truthy (agentToken st)); cbn [negb andb]; [|now repeat split].
  destruct (GhAgent.allowed (GhAgent.isCommandAllowed command)); cbn [negb];
    [|now repeat split].
  cbn [run fst snd isError details text]. repeat split.
  destruct (nonEmpty _) eqn:E; [|discriminate].
  intros H. rewrite H in E. discriminate.
Qed.

Lemma readConfig_error_truthy (settingsPath : string) (found : Settings) (error : string) :
  readConfig settingsPath found = inr error -> truthy (Some error) = true.
Proof.
  destruct found as [[[|c u]|]| |e]; cbn [readConfig]; intros H;
    try discriminate; injection H as <-; reflexivity.
Qed.

(** X8: a configuration error is never cleared.  Once [configError] is
    set, every later [session_start] leaves it set, whatever the
    settings and the answer of [gh auth token], and the tool keeps
    returning the configuration error without spawning anything. *)
Theorem gh_agent_config_error_sticks
    (answer : string -> list string -> ExecResult) (settingsPath : string)
    (found : Settings) (st : State) (command : string) :
  truthy (configError st) = true ->
  let st' := fst (run answer (sessionStart settingsPath found st)) in
  truthy (configError st') = true
  /\ snd (run answer (execute st' command)) = []
  /\ isError (fst (run answer (execute st' command))) = true.
Proof.
  intros Hset. cbv zeta.
  assert (H : truthy (configError (fst (run answer (sessionStart settingsPath found st))))
              = true).
  { unfold sessionStart.
    destruct (readConfig settingsPath found) as [user|error] eqn:E.
    - cbn [run]. destruct (Z.eqb (code (answer "gh" _)) 0); cbn [negb run fst configError];
        [assumption|reflexivity].
    - cbn [run fst configError]. eapply readConfig_error_truthy; eauto. }
  split; [exact H|]. unfold execute. rewrite H. now split.
Qed.

Lemma gh_agent_config_error_sticks_witness :
  truthy (configError
            (fst (run (fun _ _ => mkExec 0 "token" "")
                      (sessionStart "/home/u/.pi/agent/settings.json"
                         (Parsed (Some "john-agent"))
                         (mkState None (Some "Settings file not found: x")))))) = true.
Proof.
  apply (gh_agent_config_error_sticks (fun _ _ => mkExec 0 "token" "")
           "/home/u/.pi/agent/settings.json" (Parsed (Some "john-agent"))
           (mkState None (Some "Settings file not found: x")) "pr list").
  reflexivity.
Defined.

End GhAgentToolFacts.

(* ------------------------------------------------------------------ *)
(** ** The command gate, further *)

Section GateMore.
Import GhAgent.

Lemma splitChar_not_nil (sep : ascii) (s : string) : JS.splitChar sep s <> [].
Proof.
  destruct s as [|c s]; cbn [JS.splitChar]; [discriminate|].
  destruct (Ascii.eqb c sep); [discriminate|]. destruct (JS.splitChar sep s); discriminate.
Qed.

(** Splitting at a separator and joining with it gives the text back. *)
Lemma join_splitChar (sep : ascii) (s : string) :
  JS.join (String sep EmptyString) (JS.splitChar sep s) = s.
Proof.
  unfold JS.join. induction s as [|c s IH]; [reflexivity|].
  cbn [JS.splitChar]. destruct (Ascii.eqb c sep) eqn:E.
  - apply Ascii.eqb_eq in E; subst c.
    pose proof (splitChar_not_nil sep s) as Hne.
    destruct (JS.splitChar sep s) as [|p ps]; [congruence|].
    cbn [concat append] in *. now rewrite IH.
  - pose proof (splitChar_not_nil sep s) as Hne.
    destruct (JS.splitChar sep s) as [|p ps]; [congruence|].
    destruct ps; cbn [concat append] in *; now rewrite <- IH.
Qed.

Lemma matchesParts_admits (pp : list string) :
  forall ep, List.length ep = List.length pp ->
             (matchesParts pp ep = true <-> Forall2 admits pp ep).
Proof.
  induction pp as [|p pp IH]; intros [|e ep] Hlen; cbn [List.length] in Hlen;
    try discriminate.
  - split; [constructor|reflexivity].
  - injection Hlen as Hlen. specialize (IH ep Hlen). cbn [matchesParts].
    destruct (String.eqb_spec p "*") as [->|Hstar].
    + rewrite IH. split; intros H.
      * constructor; [now left|assumption].
      * now inversion H.
    + destruct (String.eqb_spec p e) as [->|Hne]; cbn [negb].
      * rewrite IH. split; intros H.
        -- constructor; [now right|assumption].
        -- now inversion H.
      * split; [discriminate|]. intros H. inversion H as [|? ? ? ? [?|?] ?]; congruence.
Qed.

Lemma matchesPattern_segmentwise_aux (endpoint pattern : string) :
  matchesPattern endpoint pattern = true
  <-> Forall2 admits (JS.splitChar "/" pattern) (JS.splitChar "/" endpoint).
Proof.
  unfold matchesPattern.
  destruct (Nat.eqb_spec (List.length (JS.splitChar "/" endpoint))
                         (List.length (JS.splitChar "/" pattern))) as [E|E]; cbn [negb].
  - now apply matchesParts_admits.
  - split; [discriminate|]. intros H. apply Forall2_length in H. congruence.
Qed.

(** X9: [matchesPattern] holds exactly when endpoint and pattern have
    the same number of [/]-separated segments and every pattern segment
    is [*] or equal to the endpoint segment at its place. *)
Theorem matchesPattern_segmentwise (endpoint pattern : string) :
  matchesPattern endpoint pattern = true
  <-> Forall2 admits (JS.splitChar "/" pattern) (JS.splitChar "/" endpoint).
Proof. apply matchesPattern_segmentwise_aux. Qed.

(** A pattern without a [*] segment matches its own text and
    nothing else. *)
Theorem matchesPattern_without_wildcard (endpoint pattern : string) :
  Forall (fun p => p <> "*") (JS.splitChar "/" pattern) ->
  (matchesPattern endpoint pattern = true <-> endpoint = pattern).
Proof.
  intros Hno. rewrite matchesPattern_segmentwise_aux. split.
  - intros H.
    assert (E : JS.splitChar "/" pattern = JS.splitChar "/" endpoint).
    { revert Hno. induction H as [|p e pp ep [Hp|Hp] _ IH]; intros Hno;
        inversion Hno; subst; [reflexivity|congruence|f_equal; auto]. }
    rewrite <- (join_splitChar "/" endpoint), <- (join_splitChar "/" pattern).
    now rewrite E.
  - intros ->. clear Hno. induction (JS.splitChar "/" pattern); constructor; auto.
    now right.
Qed.

Lemma matchesPattern_without_wildcard_witness :
  Forall (fun p => p <> "*") (JS.splitChar "/" "repos/o/r")
  /\ (matchesPattern "repos/o/r" "repos/o/r" = true <-> "repos/o/r" = "repos/o/r").
Proof.
  assert (H : Forall (fun p => p <> "*") (JS.splitChar "/" "repos/o/r")).
  { repeat constructor; discriminate. }
  split; [exact H|]. exact (matchesPattern_without_wildcard "repos/o/r" "repos/o/r" H).
Defined.

Lemma matchesPattern_length (endpoint pattern : string) :
  matchesPattern endpoint pattern = true ->
  List.length (JS.splitChar "/" endpoint) = List.length (JS.splitChar "/" pattern).
Proof.
  unfold matchesPattern.
  destruct (Nat.eqb_spec (List.length (JS.splitChar "/" endpoint))
                         (List.length (JS.splitChar "/" pattern))); [auto|discriminate].
Qed.

Lemma apiLoop_ALLOWED (parts : list string) (e : string) :
  apiLoop ALLOWED_COMMANDS parts e =
  if matchesPattern e "repos/*/pulls/*/comments/*/replies"
  then Some (checkMethod parts e "repos/*/pulls/*/comments/*/replies")
  else if matchesPattern e "repos/*/issues/comments/*"
  then Some (checkMethod parts e "repos/*/issues/comments/*")
  else if matchesPattern e "repos/*/pulls/comments/*"
  then Some (checkMethod parts e "repos/*/pulls/comments/*")
  else None.
Proof. reflexivity. Qed.

Lemma eqOpt_true (m : option string) (v : string) : eqOpt m v = true <-> m = Some v.
Proof.
  destruct m as [x|]; cbn [eqOpt]; [|split; discriminate].
  rewrite String.eqb_eq. split; congruence.
Qed.

Lemma checkMethod_replies (parts : list string) (e : string) :
  allowed (checkMethod parts e "repos/*/pulls/*/comments/*/replies") = true
  <-> methodOf parts = Some "POST".
Proof.
  rewrite <- eqOpt_true. unfold checkMethod. fold (methodOf parts).
  change (JS.includes "repos/*/pulls/*/comments/*/replies" "/replies") with true.
  cbn [andb negb]. destruct (eqOpt (methodOf parts) "POST"); cbn; split; congruence.
Qed.

Lemma checkMethod_issue_comments (parts : list string) (e : string) :
  allowed (checkMethod parts e "repos/*/issues/comments/*") = true
  <-> methodOf parts = Some "GET" \/ methodOf parts = Some "PATCH".
Proof.
  rewrite <- !eqOpt_true. unfold checkMethod. fold (methodOf parts).
  change (JS.includes "repos/*/issues/comments/*" "/replies") with false.
  change (JS.includes "repos/*/issues/comments/*" "/issues/comments/") with true.
  cbn [andb orb negb].
  destruct (eqOpt (methodOf parts) "PATCH"), (eqOpt (methodOf parts) "GET"); cbn;
    intuition congruence.
Qed.

Lemma checkMethod_pull_comments (parts : list string) (e : string) :
  allowed (checkMethod parts e "repos/*/pulls/comments/*") = true
  <-> methodOf parts = Some "GET" \/ methodOf parts = Some "PATCH".
Proof.
  rewrite <- !eqOpt_true. unfold checkMethod. fold (methodOf parts).
  change (JS.includes "repos/*/pulls/comments/*" "/replies") with false.
  change (JS.includes "repos/*/pulls/comments/*" "/issues/comments/") with false.
  change (JS.includes "repos/*/pulls/comments/*" "/pulls/comments/") with true.
  cbn [andb orb negb].
  destruct (eqOpt (methodOf parts) "PATCH"), (eqOpt (methodOf parts) "GET"); cbn;
    intuition congruence.
Qed.

Lemma api_verdict (command : string) :
  2 <= List.length (tokens command) ->
  nth 0 (tokens command) EmptyString = "api" ->
  isCommandAllowed command =
  match apiLoop ALLOWED_COMMANDS (tokens command) (nth 1 (tokens command) EmptyString) with
  | Some v => v
  | None => mkVerdict false
              (Some (notInAllowList ("api " ++ nth 1 (tokens command) EmptyString)))
  end.
Proof.
  intros Hlen H0. unfold isCommandAllowed. fold (tokens command).
  destruct (Nat.ltb_spec (List.length (tokens command)) 2) as [Hlt|_]; [lia|].
  rewrite H0. reflexivity.
Qed.

(** X10: for a command whose first token is [api], the gate allows it
    exactly when its second token matches the replies pattern and the
    method is POST, or matches one of the two comment patterns and the
    method is GET or PATCH; the method is the upper-cased token after
    the first [-X], and GET when there is no [-X]. *)
Theorem api_allowed_iff (command : string) :
  2 <= List.length (tokens command) ->
  nth 0 (tokens command) EmptyString = "api" ->
  allowed (isCommandAllowed command) = true
  <-> (matchesPattern (nth 1 (tokens command) EmptyString)
         "repos/*/pulls/*/comments/*/replies" = true
       /\ methodOf (tokens command) = Some "POST")
      \/ ((matchesPattern (nth 1 (tokens command) EmptyString)
             "repos/*/issues/comments/*" = true
           \/ matchesPattern (nth 1 (tokens command) EmptyString)
                "repos/*/pulls/comments/*" = true)
          /\ (methodOf (tokens command) = Some "GET"
              \/ methodOf (tokens command) = Some "PATCH")).
Proof.
  intros Hlen H0. rewrite (api_verdict command Hlen H0), apiLoop_ALLOWED.
  set (e := nth 1 (tokens command) EmptyString).
  destruct (matchesPattern e "repos/*/pulls/*/comments/*/replies") eqn:M1.
  - rewrite checkMethod_replies.
    apply matchesPattern_length in M1.
    destruct (matchesPattern e "repos/*/issues/comments/*") eqn:M2;
      [apply matchesPattern_length in M2; rewrite M1 in M2; discriminate|].
    destruct (matchesPattern e "repos/*/pulls/comments/*") eqn:M3;
      [apply matchesPattern_length in M3; rewrite M1 in M3; discriminate|].
    intuition congruence.
  - destruct (matchesPattern e "repos/*/issues/comments/*") eqn:M2.
    + rewrite checkMethod_issue_comments. intuition congruence.
    + destruct (matchesPattern e "repos/*/pulls/comments/*") eqn:M3.
      * rewrite checkMethod_pull_comments. intuition congruence.
      * cbn [allowed]. intuition congruence.
Qed.

Lemma api_allowed_iff_witness :
  allowed (isCommandAllowed "api repos/o/issues/comments/7 --method DELETE") = true.
Proof.
  apply (api_allowed_iff "api repos/o/issues/comments/7 --method DELETE");
    [vm_compute; lia | reflexivity |].
  right. split; [left; reflexivity | left; reflexivity].
Defined.

Lemma countChar_app (ch : ascii) (a b : string) :
  countChar ch (a ++ b) = countChar ch a + countChar ch b.
Proof. induction a as [|c a IH]; cbn [append countChar]; [reflexivity|]. rewrite IH. lia. Qed.

(** Two texts joined by one blank, with a single blank in the result,
    are recovered from the result. *)
Lemma pair_around_blank (a b x y : string) :
  (a ++ " " ++ b = x ++ " " ++ y)%string ->
  countChar " " x = 0 -> countChar " " y = 0 -> a = x /\ b = y.
Proof.
  intros E Hx Hy.
  assert (Ha : countChar " " a = 0).
  { apply (f_equal (countChar " ")) in E. rewrite !countChar_app in E.
    cbn in E. lia. }
  clear Hy. revert x E Hx. induction a as [|c a IH]; intros [|d x] E Hx.
  - cbn in E. now injection E.
  - cbn [append] in E. injection E as <- _. cbn in Hx. lia.
  - cbn [append] in E. injection E as -> _. cbn in Ha. lia.
  - cbn [append] in E. injection E as -> E. cbn [countChar] in Ha, Hx.
    destruct (Ascii.eqb d " "); [discriminate|]. cbn in Ha, Hx.
    destruct (IH Ha x E Hx) as [-> ->]. now split.
Qed.

(** X11: a command the gate allows starts with [api], or with [issue]
    followed by one of five verbs, or with [pr] followed by one of
    seven; no other command or verb passes. *)
Theorem allowed_commands_closed (command : string) :
  allowed (isCommandAllowed command) = true ->
  nth 0 (tokens command) EmptyString = "api"
  \/ (nth 0 (tokens command) EmptyString = "issue"
      /\ In (nth 1 (tokens command) EmptyString)
            ["create"; "comment"; "view"; "list"; "edit"])
  \/ (nth 0 (tokens command) EmptyString = "pr"
      /\ In (nth 1 (tokens command) EmptyString)
            ["create"; "comment"; "view"; "list"; "diff"; "review"; "edit"]).
Proof.
  unfold isCommandAllowed. fold (tokens command).
  set (p0 := nth 0 (tokens command) EmptyString).
  set (p1 := nth 1 (tokens command) EmptyString).
  destruct (Nat.ltb (List.length (tokens command)) 2); [discriminate|].
  destruct (existsb _ ALLOWED_COMMANDS) eqn:Ex.
  - intros _. apply existsb_exists in Ex. destruct Ex as (entry & Hin & Hentry).
    apply andb_true_iff in Hentry. destruct Hentry as [Hapi Heq].
    apply String.eqb_eq in Heq. unfold ALLOWED_COMMANDS in Hin. cbn [In] in Hin.
    repeat match type of Hin with
           | _ \/ _ => destruct Hin as [<-|Hin]
           | False => contradiction
           end;
      try discriminate Hapi;
      match type of Heq with
      | _ = ?e =>
          let x := eval vm_compute in (fst (span (differs " ") e)) in
          let y := eval vm_compute in (JS.slice (snd (span (differs " ") e)) 1) in
          destruct (pair_around_blank p0 p1 x y Heq eq_refl eq_refl) as [-> ->]
      end; cbn [In]; tauto.
  - destruct (String.eqb_spec p0 "api") as [->|_]; [now left|]. discriminate.
Qed.

Lemma allowed_commands_closed_witness :
  nth 0 (tokens "pr review 12 --approve") EmptyString = "api"
  \/ (nth 0 (tokens "pr review 12 --approve") EmptyString = "issue"
      /\ In (nth 1 (tokens "pr review 12 --approve") EmptyString)
            ["create"; "comment"; "view"; "list"; "edit"])
  \/ (nth 0 (tokens "pr review 12 --approve") EmptyString = "pr"
      /\ In (nth 1 (tokens "pr review 12 --approve") EmptyString)
            ["create"; "comment"; "view"; "list"; "diff"; "review"; "edit"]).
Proof. apply (allowed_commands_closed "pr review 12 --approve"). reflexivity. Defined.

Lemma nth_1_length (l : list string) (c : ascii) (s : string) :
  nth 1 l EmptyString = String c s -> 2 <= List.length l.
Proof. destruct l as [|a [|b l]]; cbn; intros H; try discriminate; lia. Qed.

(** X12: the comment patterns have five segments, [*] standing for one
    segment only, so an [api] command whose endpoint names owner and
    repository, [repos/<owner>/<repo>/<kind>/comments/<id>], is
    rejected whatever its method. *)
Theorem comment_endpoint_with_owner_and_repo_rejected
  (command owner repo kind id : string) :
  nth 0 (tokens command) EmptyString = "api" ->
  nth 1 (tokens command) EmptyString
  = ("repos/" ++ owner ++ "/" ++ repo ++ "/" ++ kind ++ "/comments/" ++ id)%string ->
  countChar "/" owner = 0 -> countChar "/" repo = 0 ->
  countChar "/" kind = 0 -> countChar "/" id = 0 ->
  allowed (isCommandAllowed command) = false.
Proof.
  intros H0 H1 Ho Hr Hk Hi.
  assert (Hlen : 2 <= List.length (tokens command)) by (eapply nth_1_length; exact H1).
  rewrite (api_verdict command Hlen H0), apiLoop_ALLOWED.
  assert (Hsegs : List.length (JS.splitChar "/" (nth 1 (tokens command) EmptyString)) = 6).
  { rewrite H1, length_splitChar. cbn. repeat (rewrite countChar_app; cbn). lia. }
  destruct (matchesPattern _ "repos/*/pulls/*/comments/*/replies") eqn:M1;
    [apply matchesPattern_length in M1; rewrite Hsegs in M1; discriminate|].
  destruct (matchesPattern _ "repos/*/issues/comments/*") eqn:M2;
    [apply matchesPattern_length in M2; rewrite Hsegs in M2; discriminate|].
  destruct (matchesPattern _ "repos/*/pulls/comments/*") eqn:M3;
    [apply matchesPattern_length in M3; rewrite Hsegs in M3; discriminate|].
  reflexivity.
Qed.

Lemma comment_endpoint_with_owner_and_repo_rejected_witness :
  allowed (isCommandAllowed "api repos/dyreby/agent-kernel/issues/comments/7 -X PATCH")
  = false.
Proof.
  apply (comment_endpoint_with_owner_and_repo_rejected
           "api repos/dyreby/agent-kernel/issues/comments/7 -X PATCH"
           "dyreby" "agent-kernel" "issues" "7"); reflexivity.
Defined.

End GateMore.

(* ------------------------------------------------------------------ *)
(** ** gh-command.ts and the bash override *)

Section GhCommandFacts.
Import RegExp GhCommand.

Lemma flat_map_nonempty {A B} (f : A -> list B) (l : list A) (x : A) :
  In x l -> f x <> [] -> flat_map f l <> [].
Proof.
  induction l as [|a l IH]; intros Hin Hx; [destruct Hin|].
  cbn [flat_map]. destruct Hin as [<-|Hin].
  - destruct (f a); [congruence|discriminate].
  - destruct (f a); [now apply IH|discriminate].
Qed.

Lemma flat_map_nonempty_inv {A B} (f : A -> list B) (l : list A) :
  flat_map f l <> [] -> exists x, In x l /\ f x <> [].
Proof.
  induction l as [|a l IH]; cbn [flat_map]; [congruence|].
  intros H. destruct (f a) eqn:E.
  - destruct (IH H) as (x & Hin & Hx). exists x. split; [now right|assumption].
  - exists a. split; [now left|congruence].
Qed.

(** Where [exec] finds a match, the matcher has a continuation; and it
    sees no code unit behind it only at the start of the input. *)
Lemma exec_from_inv (r : re) (s : string) :
  forall p i m, exec_from r p s i = Some m ->
  exists pre post q,
    s = (pre ++ post)%string /\ rmatch r (mkM q post []) <> []
    /\ (q = None -> p = None /\ pre = EmptyString).
Proof.
  induction s as [|c s IH]; intros p i m H; cbn [exec_from] in H.
  - exists EmptyString, EmptyString, p. destruct (rmatch r _) eqn:E; [discriminate|].
    split; [reflexivity|]. split; [congruence|auto].
  - destruct (rmatch r (mkM p (String c s) [])) eqn:E.
    + destruct (IH _ _ _ H) as (pre & post & q & -> & Hq & Hnone).
      exists (String c pre), post, q. split; [reflexivity|]. split; [assumption|].
      intros ->. destruct (Hnone eq_refl) as [? _]. discriminate.
    + exists EmptyString, (String c s), p. split; [reflexivity|]. split; [congruence|auto].
Qed.

Lemma ghWord_matches (t : string) :
  ghWord t -> forall p cs, rmatch GH_TAIL (mkM p t cs) <> [].
Proof.
  intros (ws & sp & tail & -> & Hws & Hsp) p cs. unfold GH_TAIL. rewrite rmatch_Seq.
  destruct (rmatch_star_cls_head JS.isWhiteSpace ws "g" ("h" ++ String sp tail)
              Hws eq_refl p cs) as (q & tl & E).
  change (ws ++ "gh" ++ String sp tail)%string
    with (ws ++ String "g" ("h" ++ String sp tail))%string.
  unfold Space. rewrite E. cbn [flat_map].
  rewrite rmatch_Seq, rmatch_Lit. cbn [prev rest caps append lit_step].
  change (Ascii.eqb "g" "g") with true. change (Ascii.eqb "h" "h") with true.
  cbn [flat_map]. rewrite rmatch_Cls. cbn [rest]. rewrite Hsp. discriminate.
Qed.

Lemma ghWord_matches_inv (st0 : MState) :
  rmatch GH_TAIL st0 <> [] -> ghWord (rest st0).
Proof.
  destruct st0 as [p t cs]. cbn [rest].
  unfold GH_TAIL, Space. rewrite rmatch_Seq. intros H.
  apply flat_map_nonempty_inv in H as (st & Hin & Hst).
  apply rmatch_star_cls_suffix in Hin as (ws & -> & Hws & _).
  rewrite rmatch_Seq in Hst. apply flat_map_nonempty_inv in Hst as (st2 & Hin2 & Hst2).
  rewrite rmatch_Lit in Hin2.
  destruct (lit_step "gh" (prev st) (rest st)) as [[q u]|] eqn:El; [|destruct Hin2].
  destruct Hin2 as [<-|[]]. apply lit_step_inv in El.
  rewrite rmatch_Cls in Hst2. cbn [rest] in Hst2.
  destruct u as [|sp tail]; [congruence|].
  destruct (JS.isWhiteSpace sp) eqn:Hsp; [|congruence].
  exists ws, sp, tail. rewrite El. auto.
Qed.

Lemma GH_INVOCATION_unfold (st : MState) :
  rmatch GH_INVOCATION st =
  flat_map (rmatch GH_TAIL)
    (rmatch Bol st ++ rmatch (Cls shellOperator) st ++ rmatch (Lit "$(") st).
Proof. reflexivity. Qed.

Lemma containsGhCommand_ghInvoked (command : string) :
  containsGhCommand command = true <-> ghInvoked command.
Proof.
  unfold containsGhCommand, test, exec. split.
  - destruct (exec_from GH_INVOCATION None command 0) as [m|] eqn:E; [|discriminate].
    intros _. apply exec_from_inv in E as (pre & post & q & -> & Hq & Hnone).
    rewrite GH_INVOCATION_unfold in Hq.
    apply flat_map_nonempty_inv in Hq as (st & Hin & Hst).
    apply ghWord_matches_inv in Hst.
    apply in_app_or in Hin as [Hin|Hin]; [|apply in_app_or in Hin as [Hin|Hin]].
    + cbn [rmatch prev] in Hin. destruct q; [destruct Hin|].
      destruct Hin as [<-|[]]. destruct (Hnone eq_refl) as [_ ->]. left. exact Hst.
    + rewrite rmatch_Cls in Hin. cbn [rest caps] in Hin.
      destruct post as [|o t]; [destruct Hin|].
      destruct (shellOperator o) eqn:Ho; [|destruct Hin].
      destruct Hin as [<-|[]]. right. exists pre, o, t. auto.
    + rewrite rmatch_Lit in Hin. cbn [prev rest caps] in Hin.
      destruct (lit_step "$(" q post) as [[q' u]|] eqn:El; [|destruct Hin].
      destruct Hin as [<-|[]]. apply lit_step_inv in El. subst post.
      right. exists (pre ++ "$")%string, "("%char, u.
      rewrite append_assoc. auto.
  - intros [Hw|(pre & o & t & -> & Ho & Hw)].
    + assert (H : rmatch GH_INVOCATION (mkM None command []) <> []).
      { rewrite GH_INVOCATION_unfold.
        apply (flat_map_nonempty _ _ (mkM None command [])); [now left|].
        now apply ghWord_matches. }
      destruct command; cbn [exec_from]; destruct (rmatch GH_INVOCATION _);
        congruence.
    + assert (H : forall p, rmatch GH_INVOCATION (mkM p (String o t) []) <> []).
      { intros p. rewrite GH_INVOCATION_unfold.
        apply (flat_map_nonempty _ _ (mkM (Some o) t [])); [|now apply ghWord_matches].
        apply in_or_app. right. apply in_or_app. left.
        rewrite rmatch_Cls. cbn [rest caps]. rewrite Ho. now left. }
      pose proof (exec_from_found GH_INVOCATION (String o t) H pre None 0) as G.
      destruct (exec_from GH_INVOCATION None (pre ++ String o t) 0); congruence.
Qed.

(** X13: [containsGhCommand] holds exactly for the commands in which
    [gh] followed by a whitespace unit stands, after optional
    whitespace, at the very start or right behind one of the code units
    [; & | ( )]. *)
Theorem containsGhCommand_iff (command : string) :
  containsGhCommand command = true <-> ghInvoked command.
Proof. apply containsGhCommand_ghInvoked. Qed.

Lemma ghInvoked_dec (command : string) :
  (ghInvoked command /\ containsGhCommand command = true)
  \/ (~ ghInvoked command /\ containsGhCommand command = false).
Proof.
  destruct (containsGhCommand command) eqn:E.
  - left. split; [now apply containsGhCommand_ghInvoked|reflexivity].
  - right. split; [|reflexivity]. intros H. apply containsGhCommand_ghInvoked in H. congruence.
Qed.

Lemma run_executeGhCommand_pair (answer : string -> list string -> ExecResult)
      (base : string -> CommandResult) (command : string) (authError : option string)
      (dir : string) (owner : option string) :
  run answer base (bind (executeGhCommand command authError dir) (fun r => Ret (r, owner)))
  = if truthy authError
    then ((mkResult ("github: " ++ match authError with Some e => e | None => "" end)
                    None true, owner), [])
    else
      let out := answer "bash"
                   ["-c"; ("GH_CONFIG_DIR=" ++ dquote ++ dir ++ dquote ++ " " ++ command)%string] in
      let output :=
        JS.trim (JS.join newline (filter GhAgentTool.nonEmpty [stdout out; stderr out])) in
      ((mkResult (if GhAgentTool.nonEmpty output then output else "(no output)")
                 (Some (code out)) (negb (Z.eqb (code out) 0)), owner),
       [wrapped dir command]).
Proof. unfold executeGhCommand. destruct (truthy authError); reflexivity. Qed.

Lemma run_bashExecute_gh (join : list string -> string) (homedir : string)
      (answer : string -> list string -> ExecResult) (base : string -> CommandResult)
      (authError owner0 : option string) (command : string) :
  containsGhCommand command = true ->
  run answer base (bashExecute join homedir authError owner0 command)
  = let owner := ownerFrom (answer "git" ["remote"; "get-url"; "origin"]) in
    let '(a, t) :=
      run answer base
        (bind (executeGhCommand command authError
                 (IdentityPaths.getConfigDir join homedir (Identity.getAccountForRepo owner)))
              (fun r => Ret (r, owner))) in
    (a, gitProbe :: t).
Proof.
  intros H. unfold bashExecute, detectRepoOwner, ownerFrom. rewrite H.
  cbn [run]. destruct (Z.eqb (code (answer "git" ["remote"; "get-url"; "origin"])) 0);
    reflexivity.
Qed.

(** X14: the bash override hands a command without a [gh] invocation
    to the wrapped bash tool unchanged and leaves the remembered owner
    alone; a command with one is never handed on: the first process is
    the probe [git remote get-url origin]. *)
Theorem bash_override_routes (join : list string -> string) (homedir : string)
      (answer : string -> list string -> ExecResult) (base : string -> CommandResult)
      (authError owner0 : option string) (command : string) :
  (~ ghInvoked command ->
   run answer base (bashExecute join homedir authError owner0 command)
   = ((base command, owner0), [Delegated command]))
  /\ (ghInvoked command ->
      exists r t,
        run answer base (bashExecute join homedir authError owner0 command)
        = (r, gitProbe :: t)
        /\ forall c, ~ In (Delegated c) t).
Proof.
  destruct (ghInvoked_dec command) as [[Hgh E]|[Hgh E]]; (split; [intros H|intros H]);
    try contradiction.
  - rewrite (run_bashExecute_gh _ _ _ _ _ _ _ E). cbv zeta.
    rewrite run_executeGhCommand_pair. destruct (truthy authError); cbv zeta.
    + eexists _, _. split; [reflexivity|]. intros c [].
    + eexists _, _. split; [reflexivity|]. intros c [Hc|[]]. discriminate.
  - unfold bashExecute. rewrite E. reflexivity.
Qed.

(** X15: without an authentication error, a command with a [gh]
    invocation runs as [bash -c] with [GH_CONFIG_DIR] set to the
    directory of the account chosen from the probed owner; the owner is
    remembered, the exit code is reported and decides [isError], and
    the text is never empty. *)
Theorem gh_runs_under_probed_account (join : list string -> string) (homedir : string)
      (answer : string -> list string -> ExecResult) (base : string -> CommandResult)
      (authError owner0 : option string) (command : string) :
  ghInvoked command -> truthy authError = false ->
  let owner := ownerFrom (answer "git" ["remote"; "get-url"; "origin"]) in
  let dir := IdentityPaths.getConfigDir join homedir (Identity.getAccountForRepo owner) in
  let out := answer "bash"
               ["-c"; ("GH_CONFIG_DIR=" ++ dquote ++ dir ++ dquote ++ " " ++ command)%string] in
  exists r,
    run answer base (bashExecute join homedir authError owner0 command)
    = ((r, owner), [gitProbe; wrapped dir command])
    /\ details r = Some (code out)
    /\ isError r = negb (Z.eqb (code out) 0)
    /\ text r <> EmptyString.
Proof.
  intros Hgh Hauth owner dir out. apply containsGhCommand_ghInvoked in Hgh.
  rewrite (run_bashExecute_gh _ _ _ _ _ _ _ Hgh). cbv zeta.
  rewrite run_executeGhCommand_pair, Hauth. cbv zeta. fold owner dir out.
  eexists. split; [reflexivity|]. cbn [details isError text].
  split; [reflexivity|]. split; [reflexivity|].
  destruct (GhAgentTool.nonEmpty _) eqn:E; [|discriminate].
  intros H. rewrite H in E. discriminate.
Qed.

(** X16: with an authentication error set, a command with a [gh]
    invocation is not run: only the probe is spawned, and the result is
    the error [github: <authError>]. *)
Theorem auth_error_blocks_gh (join : list string -> string) (homedir : string)
      (answer : string -> list string -> ExecResult) (base : string -> CommandResult)
      (owner0 : option string) (command e : string) :
  ghInvoked command -> e <> EmptyString ->
  run answer base (bashExecute join homedir (Some e) owner0 command)
  = ((mkResult ("github: " ++ e) None true,
      ownerFrom (answer "git" ["remote"; "get-url"; "origin"])),
     [gitProbe]).
Proof.
  intros Hgh He. apply containsGhCommand_ghInvoked in Hgh.
  rewrite (run_bashExecute_gh _ _ _ _ _ _ _ Hgh). cbv zeta.
  rewrite run_executeGhCommand_pair.
  assert (Ht : truthy (Some e) = true).
  { destruct e; [contradiction|reflexivity]. }
  rewrite Ht. reflexivity.
Qed.

Lemma gh_runs_under_probed_account_witness :
  exists r,
    run (fun _ _ => mkExec 1 "" "") (fun _ => mkResult "" None false)
        (bashExecute (String.concat "/") "/home/u" None None "gh pr list")
    = ((r, None),
       [gitProbe; wrapped "/home/u/.pi/agent/gh-config/dyreby" "gh pr list"])
    /\ details r = Some 1%Z
    /\ isError r = true
    /\ text r <> EmptyString.
Proof.
  apply (gh_runs_under_probed_account (String.concat "/") "/home/u"
           (fun _ _ => mkExec 1 "" "") (fun _ => mkResult "" None false)
           None None "gh pr list").
  - apply containsGhCommand_ghInvoked. reflexivity.
  - reflexivity.
Defined.

Lemma auth_error_blocks_gh_witness :
  run (fun _ _ => mkExec 1 "" "") (fun _ => mkResult "" None false)
      (bashExecute (String.concat "/") "/home/u" (Some "not logged in") None
         "cd repo && gh pr list")
  = ((mkResult "github: not logged in" None true, None), [gitProbe]).
Proof.
  apply (auth_error_blocks_gh (String.concat "/") "/home/u"
           (fun _ _ => mkExec 1 "" "") (fun _ => mkResult "" None false)
           None "cd repo && gh pr list" "not logged in").
  - apply containsGhCommand_ghInvoked. reflexivity.
  - discriminate.
Defined.

End GhCommandFacts.

(* ------------------------------------------------------------------ *)
(** ** The github tool: what counts as read-only *)

Section ReadOnlyFacts.
Import RegExp GithubTool.

Lemma trim_word (a w v : string) (c : ascii) (b : string) :
  startsSolid a = true -> JS.isWhiteSpace c = false ->
  JS.trim (a ++ w ++ v ++ String c b) = (a ++ w ++ v ++ String c (JS.trimEnd b))%string.
Proof.
  intros Ha Hc. unfold JS.trim. rewrite trimStart_solid.
  - rewrite <- !append_assoc. rewrite trimEnd_keep by assumption. reflexivity.
  - destruct a; [discriminate|exact Ha].
Qed.

Lemma rmatch_fold_alt_keep (ls : list string) :
  forall r st0 st, In st (rmatch r st0) ->
                   In st (rmatch (fold_left (fun r x => Alt r (Lit x)) ls r) st0).
Proof.
  induction ls as [|l ls IH]; intros r st0 st H; cbn [fold_left]; [assumption|].
  apply IH. cbn [rmatch]. apply in_or_app. now left.
Qed.

(** An alternative of literals goes on behind any of its literals that
    heads the input. *)
Lemma rmatch_alts (ls : list string) (l : string) :
  In l ls -> forall p t cs, exists q, In (mkM q t cs) (rmatch (alts ls) (mkM p (l ++ t) cs)).
Proof.
  intros Hin p t cs. destruct (lit_step_append l p t) as [q Hq]. exists q.
  assert (Hlit : In (mkM q t cs) (rmatch (Lit l) (mkM p (l ++ t) cs))).
  { rewrite rmatch_Lit. cbn [prev rest caps]. rewrite Hq. now left. }
  destruct ls as [|l0 ls]; [destruct Hin|]. cbn [alts].
  destruct Hin as [->|Hin]; [now apply rmatch_fold_alt_keep|].
  generalize (Lit l0). induction ls as [|x ls IH]; intros r; [destruct Hin|].
  cbn [fold_left]. destruct Hin as [->|Hin].
  - apply rmatch_fold_alt_keep. cbn [rmatch]. apply in_or_app. now right.
  - now apply IH.
Qed.

Lemma rmatch_fold_alt_inv (ls : list string) :
  forall r st0 st,
    In st (rmatch (fold_left (fun r x => Alt r (Lit x)) ls r) st0) ->
    In st (rmatch r st0)
    \/ exists l, In l ls /\ rest st0 = (l ++ rest st)%string /\ caps st = caps st0.
Proof.
  induction ls as [|l ls IH]; intros r st0 st H; cbn [fold_left] in H; [now left|].
  apply IH in H as [H|(l' & Hin & Hrest)].
  - cbn [rmatch] in H. apply in_app_or in H as [H|H]; [now left|].
    right. exists l. split; [now left|].
    destruct (lit_step l (prev st0) (rest st0)) as [[q u]|] eqn:E; [|destruct H].
    destruct H as [<-|[]]. apply lit_step_inv in E. now split.
  - right. exists l'. split; [now right|assumption].
Qed.

Lemma rmatch_alts_inv (ls : list string) (st0 st : MState) :
  ls <> [] -> In st (rmatch (alts ls) st0) ->
  exists l, In l ls /\ rest st0 = (l ++ rest st)%string /\ caps st = caps st0.
Proof.
  destruct ls as [|l0 ls]; [congruence|]. intros _ H. cbn [alts] in H.
  apply rmatch_fold_alt_inv in H as [H|(l & Hin & Hrest)].
  - exists l0. split; [now left|]. rewrite rmatch_Lit in H.
    destruct (lit_step l0 (prev st0) (rest st0)) as [[q u]|] eqn:E; [|destruct H].
    destruct H as [<-|[]]. apply lit_step_inv in E. now split.
  - exists l. split; [now right|assumption].
Qed.

(** [\s+] in front of a code unit that is not whitespace: the greedy
    continuation stops right there. *)
Lemma rmatch_plus_space_head (ws : string) (c : ascii) (t : string) :
  blanks ws -> JS.isWhiteSpace c = false ->
  forall p cs, exists q tl,
    rmatch (Plus Space) (mkM p (ws ++ String c t) cs) = mkM q (String c t) cs :: tl.
Proof.
  intros [Hne Hws] Hc p cs. destruct ws as [|w ws]; [congruence|].
  cbn [allIn] in Hws. apply andb_prop in Hws as [Hw Hws].
  unfold Plus, Space. rewrite rmatch_Seq, rmatch_Cls. cbn [rest append caps]. rewrite Hw.
  cbn [flat_map]. rewrite app_nil_r.
  apply (rmatch_star_cls_head JS.isWhiteSpace ws c t Hws Hc).
Qed.

Lemma rmatch_plus_space_inv (st0 st : MState) :
  In st (rmatch (Plus Space) st0) ->
  exists ws, blanks ws /\ rest st0 = (ws ++ rest st)%string /\ caps st = caps st0.
Proof.
  destruct st0 as [p s cs]. unfold Plus, Space. rewrite rmatch_Seq, rmatch_Cls.
  cbn [rest caps]. destruct s as [|w s]; [intros []|].
  destruct (JS.isWhiteSpace w) eqn:Hw; [|intros []].
  cbn [flat_map]. rewrite app_nil_r. intros H.
  apply rmatch_star_cls_suffix in H as (pre & -> & Hpre & Hcaps).
  exists (String w pre). split; [split; [discriminate|]|now split].
  cbn [allIn]. now rewrite Hw, Hpre.
Qed.

Lemma readVerbs_solid (verb : string) : In verb readVerbs -> startsSolid verb = true.
Proof.
  unfold readVerbs. cbn [In]. intros H.
  repeat (destruct H as [<-|H]; [reflexivity|]). destruct H.
Qed.

Lemma readNouns_solid (noun : string) : In noun readNouns -> startsSolid noun = true.
Proof.
  unfold readNouns. cbn [In]. intros H.
  repeat (destruct H as [<-|H]; [reflexivity|]). destruct H.
Qed.

Lemma NOUN_VERB_matches (noun verb ws t : string) :
  In noun readNouns -> In verb readVerbs -> blanks ws ->
  rmatch NOUN_VERB (mkM None (noun ++ ws ++ verb ++ t) []) <> [].
Proof.
  intros Hn Hv Hws. unfold NOUN_VERB. rewrite rmatch_Seq.
  destruct (rmatch_alts readNouns noun Hn None (ws ++ verb ++ t) []) as [q Hq].
  eapply flat_map_nonempty.
  - rewrite rmatch_Cap. apply in_map. exact Hq.
  - cbn [prev rest caps]. rewrite rmatch_Seq.
    pose proof (readVerbs_solid verb Hv) as Hsolid.
    destruct verb as [|v verb']; [discriminate|]. cbn [startsSolid] in Hsolid.
    apply negb_true_iff in Hsolid. cbn [append].
    destruct (rmatch_plus_space_head ws v (verb' ++ t) Hws Hsolid q
                [(1, consumed (mkM None (noun ++ ws ++ String v (verb' ++ t)) [])
                       (mkM q (ws ++ String v (verb' ++ t)) []))])
      as (q2 & tl & E).
    rewrite E. cbn [flat_map].
    destruct (rmatch_alts readVerbs (String v verb') Hv q2 t
                [(1, consumed (mkM None (noun ++ ws ++ String v (verb' ++ t)) [])
                       (mkM q (ws ++ String v (verb' ++ t)) []))]) as [q3 Hq3].
    rewrite rmatch_Cap. cbn [append] in Hq3.
    destruct (rmatch (alts readVerbs) _); [destruct Hq3|]. discriminate.
Qed.

Lemma NOUN_VERB_matches_inv (s : string) :
  rmatch NOUN_VERB (mkM None s []) <> [] ->
  exists noun verb ws t,
    In noun readNouns /\ In verb readVerbs /\ blanks ws
    /\ s = (noun ++ ws ++ verb ++ t)%string.
Proof.
  unfold NOUN_VERB. rewrite rmatch_Seq. intros H.
  apply flat_map_nonempty_inv in H as (st1 & H1 & H).
  rewrite rmatch_Cap in H1. apply in_map_iff in H1 as (st1' & <- & H1).
  apply rmatch_alts_inv in H1 as (noun & Hn & Hs & _); [|discriminate].
  cbn [rest] in Hs. rewrite rmatch_Seq in H.
  apply flat_map_nonempty_inv in H as (st2 & H2 & H).
  apply rmatch_plus_space_inv in H2 as (ws & Hws & Hs2 & _). cbn [rest] in Hs2.
  rewrite rmatch_Cap in H.
  destruct (rmatch (alts readVerbs) st2) as [|st3 tl] eqn:E3; [now cbn in H|].
  assert (H3 : In st3 (rmatch (alts readVerbs) st2)) by (rewrite E3; now left).
  apply rmatch_alts_inv in H3 as (verb & Hv & Hs3 & _); [|discriminate].
  exists noun, verb, ws, (rest st3). repeat (split; [assumption|]).
  now rewrite Hs, Hs2, Hs3.
Qed.

Lemma isReadOnly_unfold (command : string) :
  isReadOnly command =
  (match rmatch NOUN_VERB (mkM None (JS.trim command) []) with [] => false | _ => true end)
  || existsb (fun pattern => test pattern (JS.trim command)) (tl READ_ONLY_PATTERNS).
Proof.
  unfold isReadOnly, READ_ONLY_PATTERNS. cbn [existsb tl]. now rewrite test_anchored.
Qed.

(** X17: a command that begins with one of the nouns [pr], [issue],
    [release], [repo], whitespace, and one of the verbs [list], [view],
    [status], [diff], [checks], [ready] is read-only whatever follows
    the verb. *)
Theorem read_only_by_prefix (noun verb ws rest : string) :
  In noun readNouns -> In verb readVerbs -> blanks ws ->
  isReadOnly (noun ++ ws ++ verb ++ rest) = true.
Proof.
  intros Hn Hv Hws. rewrite isReadOnly_unfold.
  assert (Ht : exists t, JS.trim (noun ++ ws ++ verb ++ rest)
                         = (noun ++ ws ++ verb ++ t)%string).
  { pose proof (readNouns_solid noun Hn) as Hsolid.
    unfold readVerbs in Hv. cbn [In] in Hv.
    repeat (destruct Hv as [<-|Hv];
            [match goal with
             | |- context [(?v ++ rest)%string] =>
                 let v0 := eval vm_compute in (take (String.length v - 1) v) in
                 let c := eval vm_compute in
                            (match JS.slice v (String.length v - 1) with
                             | String x _ => x | EmptyString => " "%char end) in
                 exists (JS.trimEnd rest);
                 change (v ++ rest)%string with (v0 ++ String c rest)%string;
                 change (v ++ JS.trimEnd rest)%string
                   with (v0 ++ String c (JS.trimEnd rest))%string;
                 apply trim_word; [exact Hsolid|reflexivity]
             end|]).
    destruct Hv. }
  destruct Ht as [t ->].
  pose proof (NOUN_VERB_matches noun verb ws t Hn Hv Hws) as H.
  destruct (rmatch NOUN_VERB _); [congruence|reflexivity].
Qed.

Lemma read_only_by_prefix_witness :
  isReadOnly "pr view 5 && gh pr merge 5" = true.
Proof.
  apply (read_only_by_prefix "pr" "view" " " " 5 && gh pr merge 5").
  - cbn. auto.
  - cbn. auto.
  - split; [discriminate|reflexivity].
Defined.

Lemma nonempty_In {A} (l : list A) : l <> [] -> exists x, In x l.
Proof. destruct l as [|x l]; [congruence|]. exists x. now left. Qed.

Lemma head_blanks_inv (h : string) (s : string) :
  rmatch (Seq (Lit h) (Plus Space)) (mkM None s []) <> [] ->
  exists ws t, blanks ws /\ s = (h ++ ws ++ t)%string.
Proof.
  rewrite rmatch_Seq. intros H. apply flat_map_nonempty_inv in H as (st & Hin & H).
  rewrite rmatch_Lit in Hin. cbn [prev rest caps] in Hin.
  destruct (lit_step h None s) as [[q u]|] eqn:E; [|destruct Hin].
  destruct Hin as [<-|[]]. apply lit_step_inv in E.
  apply nonempty_In in H as [st2 H2].
  apply rmatch_plus_space_inv in H2 as (ws & Hws & Hu & _). cbn [rest] in Hu.
  exists ws, (rest st2). split; [assumption|]. now rewrite E, Hu.
Qed.

Lemma head_blanks_more_inv (h : string) (r : re) (s : string) :
  rmatch (Seq (Lit h) (Seq (Plus Space) r)) (mkM None s []) <> [] ->
  exists ws t, blanks ws /\ s = (h ++ ws ++ t)%string.
Proof.
  intros H. apply head_blanks_inv. rewrite rmatch_Seq in *.
  apply flat_map_nonempty_inv in H as (st & Hin & H).
  apply (flat_map_nonempty _ _ st Hin).
  rewrite rmatch_Seq in H. apply flat_map_nonempty_inv in H as (st2 & Hin2 & _).
  intros E. rewrite E in Hin2. destruct Hin2.
Qed.

(** X18: a read-only command, trimmed, has one of two shapes: a noun
    of [pr], [issue], [release], [repo], whitespace and a verb of
    [list], [view], [status], [diff], [checks], [ready]; or one of
    [auth], [api], [search], [browse] followed by whitespace.  No
    other command is read-only. *)
Theorem isReadOnly_shapes (command : string) :
  isReadOnly command = true ->
  (exists noun verb ws t,
      In noun readNouns /\ In verb readVerbs /\ blanks ws
      /\ JS.trim command = (noun ++ ws ++ verb ++ t)%string)
  \/ (exists head ws t,
        In head otherReadHeads /\ blanks ws
        /\ JS.trim command = (head ++ ws ++ t)%string).
Proof.
  rewrite isReadOnly_unfold. intros H. apply orb_prop in H as [H|H].
  - left. apply NOUN_VERB_matches_inv.
    destruct (rmatch NOUN_VERB _); [discriminate|discriminate].
  - right. unfold READ_ONLY_PATTERNS in H. cbn [tl existsb] in H.
    rewrite !test_anchored in H. rewrite orb_false_r in H.
    repeat (apply orb_prop in H as [H|H]);
      match type of H with
      | match rmatch (Seq (Lit ?h) (Plus Space)) _ with _ => _ end = true =>
          destruct (head_blanks_inv h (JS.trim command)) as (ws & t & Hws & E);
          [destruct (rmatch _ _); [discriminate H|discriminate]|];
          exists h, ws, t; split; [cbn; tauto|now split]
      | match rmatch (Seq (Lit ?h) (Seq (Plus Space) ?r)) _ with _ => _ end = true =>
          destruct (head_blanks_more_inv h r (JS.trim command)) as (ws & t & Hws & E);
          [destruct (rmatch _ _); [discriminate H|discriminate]|];
          exists h, ws, t; split; [cbn; tauto|now split]
      end.
Qed.

Lemma isReadOnly_shapes_witness :
  (exists noun verb ws t,
      In noun readNouns /\ In verb readVerbs /\ blanks ws
      /\ JS.trim "  issue  view 12 " = (noun ++ ws ++ verb ++ t)%string)
  \/ (exists head ws t,
        In head otherReadHeads /\ blanks ws
        /\ JS.trim "  issue  view 12 " = (head ++ ws ++ t)%string).
Proof. apply (isReadOnly_shapes "  issue  view 12 "). reflexivity. Defined.

Lemma rmatch_NotAhead (a : re) (st : MState) :
  rmatch (NotAhead a) st = match rmatch a st with [] => [st] | _ :: _ => [] end.
Proof. reflexivity. Qed.

(** X19: an [api] command whose text nowhere has [--method] is
    read-only, so it runs without confirmation whatever else it says,
    [-X DELETE] included. *)
Theorem api_without_method_flag_is_read_only (ws : string) (c : ascii) (more : string) :
  blanks ws -> JS.isWhiteSpace c = false ->
  JS.includes (String c more) "--method" = false ->
  isReadOnly ("api" ++ ws ++ String c more) = true.
Proof.
  intros Hws Hc Hno. unfold isReadOnly, READ_ONLY_PATTERNS.
  apply existsb_exists.
  exists (Seq Bol (Seq (Lit "api") (Seq (Plus Space)
            (NotAhead (Seq (Star Dot) (Lit "--method")))))).
  split; [cbn [In]; tauto|].
  assert (Ht : JS.trim ("api" ++ ws ++ String c more)
               = ("api" ++ ws ++ String c (JS.trimEnd more))%string).
  { apply (trim_word "api" ws EmptyString c more); [reflexivity|assumption]. }
  rewrite Ht, test_anchored.
  rewrite rmatch_Seq, rmatch_Lit. cbn [prev rest caps append lit_step].
  change (Ascii.eqb "a" "a") with true. change (Ascii.eqb "p" "p") with true.
  change (Ascii.eqb "i" "i") with true. cbn [flat_map]. rewrite app_nil_r.
  rewrite rmatch_Seq.
  destruct (rmatch_plus_space_head ws c (JS.trimEnd more) Hws Hc (Some "i"%char) [])
    as (q & tl & E).
  rewrite E. cbn [flat_map].
  assert (Hno' : JS.includes (String c (JS.trimEnd more)) "--method" = false).
  { pose proof (includes_trimEnd (String c more) "--method" Hno) as G.
    change (String c more) with (EmptyString ++ String c more)%string in G.
    now rewrite trimEnd_keep in G. }
  rewrite rmatch_NotAhead. unfold Dot.
  rewrite (rmatch_star_lit_absent _ "--method" q _ [] Hno'). reflexivity.
Qed.

Lemma api_without_method_flag_is_read_only_witness :
  isReadOnly "api -X DELETE repos/o/r/issues/1" = true.
Proof.
  apply (api_without_method_flag_is_read_only " " "-" "X DELETE repos/o/r/issues/1").
  - split; [discriminate|reflexivity].
  - reflexivity.
  - reflexivity.
Defined.

End ReadOnlyFacts.

(* ------------------------------------------------------------------ *)
(** ** The github tool: what runs, and when *)

Section ToolRuns.
Import GithubTool.

Lemma nth_error_snoc {A} (l : list A) (p : A) : nth_error (l ++ [p]) (List.length l) = Some p.
Proof. induction l as [|x l IH]; [reflexivity|exact IH]. Qed.

Lemma without_snoc {A} (l : list A) (p : A) : without (List.length l) (l ++ [p]) = l.
Proof.
  unfold without. induction l as [|x l IH]; [reflexivity|].
  cbn [List.length app firstn skipn]. cbn [app]. f_equal. exact IH.
Qed.

(** When the [gh] that [runGh] started settles, its awaiter returns
    [ghResult] and the guard flag is not touched. *)
Lemma runGh_settles (command account configDir : string) (s : Sys) (j : nat)
      (r : ExecResult) :
  nth_error (awaiting s) j = Some (runGh command account configDir) ->
  step s (ExecSettles j r)
  = Some (mkSys (confirmationInProgress s) (without j (awaiting s)),
          Returned (ghResult account r)).
Proof.
  intros Hj. cbn [step]. rewrite Hj. unfold runGh. cbn [runSync settle].
  unfold ghResult, ghOutput. do 3 f_equal. f_equal.
  rewrite append_assoc. cbn [append]. rewrite append_assoc. cbn [append]. f_equal. f_equal.
  destruct (JS.trim _); reflexivity.
Qed.

Lemma runGh_spawns (command account configDir : string) :
  spawns (runGh command account configDir) = Some ("bash", ["-c"; ghLine configDir command]).
Proof. reflexivity. Qed.

(** X20: a read-only command that passes the checks goes straight to
    [gh], whatever the state of the guard.  The call suspends on the
    process [bash -c 'GH_CONFIG_DIR="<config dir of the context>" gh
    <command>'], with the guard flag as it was; and when that process
    settles the caller gets the trimmed stdout and stderr (or a
    placeholder) under the header of the context's account, the exit
    code, and [isError] exactly when the exit code is not zero, and the
    guard flag and the other suspended calls are as before the call. *)
Theorem read_only_round_trip (ctx : Ctx) (command : string) (s : Sys) (r : ExecResult) :
  passesChecks ctx command = true -> isReadOnly command = true ->
  exists s1 q,
    step s (Call ctx command) = Some (s1, Suspended)
    /\ confirmationInProgress s1 = confirmationInProgress s
    /\ awaiting s1 = awaiting s ++ [q]
    /\ spawns q = Some ("bash", ["-c"; ghLine (getConfigDir ctx) command])
    /\ step s1 (ExecSettles (List.length (awaiting s)) r)
       = Some (s, Returned (ghResult (getAccount ctx) r)).
Proof.
  intros Hchk Hro. destruct s as [flag tasks].
  exists (mkSys flag (tasks ++ [runGh command (getAccount ctx) (getConfigDir ctx)])),
         (runGh command (getAccount ctx) (getConfigDir ctx)).
  split.
  { cbn [step awaiting confirmationInProgress].
    rewrite (execute_checked _ _ Hchk), Hro. reflexivity. }
  split; [reflexivity|]. split; [reflexivity|]. split; [apply runGh_spawns|].
  rewrite (runGh_settles command (getAccount ctx) (getConfigDir ctx));
    [|cbn [awaiting]; apply nth_error_snoc].
  cbn [awaiting confirmationInProgress]. now rewrite without_snoc.
Qed.

Lemma read_only_round_trip_witness :
  exists s1 q,
    step promptOpen (Call agentCtx "pr view 5") = Some (s1, Suspended)
    /\ confirmationInProgress s1 = confirmationInProgress promptOpen
    /\ awaiting s1 = awaiting promptOpen ++ [q]
    /\ spawns q = Some ("bash", ["-c"; ghLine (getConfigDir agentCtx) "pr view 5"])
    /\ step s1 (ExecSettles (List.length (awaiting promptOpen)) (mkExec 0 "title" ""))
       = Some (promptOpen, Returned (ghResult (getAccount agentCtx) (mkExec 0 "title" ""))).
Proof.
  apply (read_only_round_trip agentCtx "pr view 5" promptOpen (mkExec 0 "title" ""));
    reflexivity.
Defined.

(** X21: a command that passes the checks and is not read-only, called
    while no confirmation is open, sets the guard flag and suspends on
    the modal, which shows that command and the context's account.
    Wherever that suspended call then stands among the others: when
    the modal resolves to false the call returns the cancellation with
    exit code -1 and starts nothing; when the modal fails the call
    throws the failure and starts nothing; and when the modal resolves
    to true the call suspends on
    [bash -c 'GH_CONFIG_DIR="<config dir read before the modal>" gh
    <command>'], whose result it returns under the account's header.
    In all three cases the guard flag is cleared. *)
Theorem confirmed_command_is_what_runs (ctx : Ctx) (command : string) (s : Sys) :
  passesChecks ctx command = true -> isReadOnly command = false ->
  confirmationInProgress s = false ->
  exists s1 p,
    step s (Call ctx command) = Some (s1, Suspended)
    /\ confirmationInProgress s1 = true
    /\ awaiting s1 = awaiting s ++ [p]
    /\ prompts p = Some (command, getAccount ctx)
    /\ forall s2 i,
         nth_error (awaiting s2) i = Some p ->
         step s2 (ModalSettles i (Resolved false))
         = Some (mkSys false (without i (awaiting s2)),
                 Returned (cancellation (getAccount ctx)))
         /\ (forall e, step s2 (ModalSettles i (Rejected e))
                       = Some (mkSys false (without i (awaiting s2)), Threw e))
         /\ exists q,
              step s2 (ModalSettles i (Resolved true))
              = Some (mkSys false (without i (awaiting s2) ++ [q]), Suspended)
              /\ spawns q = Some ("bash", ["-c"; ghLine (getConfigDir ctx) command])
              /\ forall s3 j r,
                   nth_error (awaiting s3) j = Some q ->
                   step s3 (ExecSettles j r)
                   = Some (mkSys (confirmationInProgress s3) (without j (awaiting s3)),
                           Returned (ghResult (getAccount ctx) r)).
Proof.
  intros Hchk Hro Hflag. destruct s as [flag tasks]. cbn [confirmationInProgress] in Hflag.
  subst flag. cbn [step awaiting confirmationInProgress].
  rewrite (execute_checked _ _ Hchk), Hro. cbn [negb runSync settle].
  eexists _, _. split; [reflexivity|]. cbn [awaiting confirmationInProgress].
  split; [reflexivity|]. split; [reflexivity|]. split; [reflexivity|].
  intros s2 i Hi. cbn [step]. rewrite Hi. cbn [afterModal runSync negb settle].
  split; [reflexivity|]. split; [reflexivity|].
  exists (runGh command (getAccount ctx) (getConfigDir ctx)).
  split; [reflexivity|]. split; [apply runGh_spawns|].
  intros s3 j r Hj.
  exact (runGh_settles command (getAccount ctx) (getConfigDir ctx) s3 j r Hj).
Qed.

Lemma confirmed_command_is_what_runs_witness :
  exists s1 p,
    step init (Call agentCtx "pr merge 5") = Some (s1, Suspended)
    /\ confirmationInProgress s1 = true
    /\ awaiting s1 = awaiting init ++ [p]
    /\ prompts p = Some ("pr merge 5", getAccount agentCtx)
    /\ forall s2 i,
         nth_error (awaiting s2) i = Some p ->
         step s2 (ModalSettles i (Resolved false))
         = Some (mkSys false (without i (awaiting s2)),
                 Returned (cancellation (getAccount agentCtx)))
         /\ (forall e, step s2 (ModalSettles i (Rejected e))
                       = Some (mkSys false (without i (awaiting s2)), Threw e))
         /\ exists q,
              step s2 (ModalSettles i (Resolved true))
              = Some (mkSys false (without i (awaiting s2) ++ [q]), Suspended)
              /\ spawns q
                 = Some ("bash", ["-c"; ghLine (getConfigDir agentCtx) "pr merge 5"])
              /\ forall s3 j r,
                   nth_error (awaiting s3) j = Some q ->
                   step s3 (ExecSettles j r)
                   = Some (mkSys (confirmationInProgress s3) (without j (awaiting s3)),
                           Returned (ghResult (getAccount agentCtx) r)).
Proof.
  apply (confirmed_command_is_what_runs agentCtx "pr merge 5" init); reflexivity.
Defined.

End ToolRuns.

(* ------------------------------------------------------------------ *)
(** ** The confirmation modal: scrolling *)

Section ModalFacts.
Import ConfirmModal.
Variable fg : string -> string -> string.
Variable bold : string -> string.
Variable wrapTextWithAnsi : string -> Z -> list string.
Variable heavyLine : string.
Variables upArrow downArrow arrows : string.
Variable sections : list Entry.

Local Open Scope Z_scope.

Lemma inRange_initial : inRange initialView.
Proof. unfold inRange, initialView, len, MAX_CONTENT_HEIGHT. cbn. lia. Qed.

Lemma react_inRange (v : View) (i : Input) :
  inRange v -> inRange (react fg wrapTextWithAnsi sections v i).
Proof.
  unfold inRange. intros H. destruct i as [width| |key]; cbn [react].
  - unfold rebuild. destruct (Z.eqb width (lastWidth v)); cbn [negb]; [assumption|].
    cbn [scrollOffset contentLines]. lia.
  - exact H.
  - destruct key; cbn [handleInput fst]; try assumption.
    + destruct (Z.ltb_spec 0 (scrollOffset v)); cbn [fst scrollOffset contentLines];
        [lia|assumption].
    + destruct (Z.ltb_spec (scrollOffset v)
                  (Z.max 0 (len (contentLines v) - MAX_CONTENT_HEIGHT)));
        cbn [fst scrollOffset contentLines]; [lia|assumption].
Qed.

Lemma fold_react_inRange (inputs : list Input) :
  forall v, inRange v ->
            inRange (fold_left (react fg wrapTextWithAnsi sections) inputs v).
Proof.
  induction inputs as [|i inputs IH]; intros v H; [exact H|].
  cbn [fold_left]. apply IH. now apply react_inRange.
Qed.

(** X22: whatever the terminal does to the modal (renders at any
    widths, invalidations, key presses), the scroll offset stays
    between 0 and the number of content lines beyond the 20 shown. *)
Theorem modal_scroll_in_range (inputs : list Input) :
  0 <= scrollOffset (fold_left (react fg wrapTextWithAnsi sections) inputs initialView)
  <= Z.max 0 (len (contentLines
                     (fold_left (react fg wrapTextWithAnsi sections) inputs initialView))
              - MAX_CONTENT_HEIGHT).
Proof. apply (fold_react_inRange inputs initialView inRange_initial). Qed.




End ModalFacts.

(* ------------------------------------------------------------------ *)
(** ** The concept loader: what it resolves *)

Section LoaderClosure.
Import Collaboration.
Variable fs : FileSystem.

(** [loop_preserves] for properties that need the counts of the
    markers to be positive, as those of [parseConceptMarkers] are. *)
Lemma loop_preserves_pos (I : Acc -> Prop) (rec : string -> Acc -> option Acc) :
  (forall content a a', rec content a = Some a' -> I a -> I a') ->
  (forall acc name count,
      0 < count -> I acc -> seen acc name = true ->
      I (mkAcc (loaded acc) (bumped acc name count) (missing acc))) ->
  (forall acc name count,
      0 < count -> I acc -> seen acc name = false -> loadConceptFile fs name = None ->
      I (mkAcc (loaded acc) (bumped acc name count) (JsSet.add (missing acc) name))) ->
  (forall acc name count content,
      0 < count -> I acc -> seen acc name = false ->
      loadConceptFile fs name = Some content ->
      I (mkAcc (JsMap.set (loaded acc) name content) (bumped acc name count) (missing acc))) ->
  forall markers acc acc',
    positive markers -> loop rec fs markers acc = Some acc' -> I acc -> I acc'.
Proof.
  intros Hrec Hseen Hmiss Hload.
  induction markers as [|[name count] markers IH]; intros acc acc' Hpos H HI.
  - now injection H as <-.
  - assert (Hc : 0 < count) by (apply (Hpos name); now left).
    assert (Hpos' : positive markers) by (intros k v Hin; apply (Hpos k); now right).
    cbn [loop visit] in H. fold (bumped acc name count) in H. fold (seen acc name) in H.
    destruct (seen acc name) eqn:Eseen.
    + eapply IH; eauto.
    + destruct (loadConceptFile fs name) as [content|] eqn:Efile.
      * destruct (rec content _) as [acc1|] eqn:Erec; [|discriminate].
        eapply IH; eauto.
      * eapply IH; eauto.
Qed.

Lemma parseConceptMarkers_positive (text : string) : positive (parseConceptMarkers text).
Proof.
  unfold positive, parseConceptMarkers.
  apply (tally_positive (markerNames text) []). intros k v [].
Qed.

Lemma load_preserves_pos (I : Acc -> Prop) :
  (forall acc name count,
      0 < count -> I acc -> seen acc name = true ->
      I (mkAcc (loaded acc) (bumped acc name count) (missing acc))) ->
  (forall acc name count,
      0 < count -> I acc -> seen acc name = false -> loadConceptFile fs name = None ->
      I (mkAcc (loaded acc) (bumped acc name count) (JsSet.add (missing acc) name))) ->
  (forall acc name count content,
      0 < count -> I acc -> seen acc name = false ->
      loadConceptFile fs name = Some content ->
      I (mkAcc (JsMap.set (loaded acc) name content) (bumped acc name count) (missing acc))) ->
  forall depth text acc acc', load depth fs text acc = Some acc' -> I acc -> I acc'.
Proof.
  intros Hseen Hmiss Hload. induction depth as [|d IH]; intros text acc acc' H HI;
    [discriminate|].
  cbn [load] in H.
  eapply (loop_preserves_pos I (load d fs)); eauto using parseConceptMarkers_positive.
Qed.

Lemma load_counts_positive (depth : nat) (text : string) (acc acc' : Acc) :
  load depth fs text acc = Some acc' -> positive (counts acc) -> positive (counts acc').
Proof.
  apply (load_preserves_pos (fun a => positive (counts a)));
    intros; cbn [counts]; unfold bumped, positive; intros k v;
    apply set_positive; auto; lia.
Qed.

Lemma seen_set_loaded (acc : Acc) (name content : string) (cs : list (string * nat)) (x : string) :
  seen (mkAcc (JsMap.set (loaded acc) name content) cs (missing acc)) x
  = String.eqb name x || seen acc x.
Proof. unfold seen. cbn [loaded missing]. rewrite has_set. now rewrite orb_assoc. Qed.

Lemma seen_add_missing (acc : Acc) (name : string) (cs : list (string * nat)) (x : string) :
  seen (mkAcc (loaded acc) cs (JsSet.add (missing acc) name)) x
  = String.eqb name x || seen acc x.
Proof.
  unfold seen. cbn [loaded missing]. rewrite set_has_add.
  destruct (String.eqb name x), (JsMap.has (loaded acc) x); reflexivity.
Qed.

Lemma load_countedWhenSeen (depth : nat) (text : string) (acc acc' : Acc) :
  load depth fs text acc = Some acc' -> countedWhenSeen acc -> countedWhenSeen acc'.
Proof.
  apply (load_preserves_pos countedWhenSeen); unfold countedWhenSeen.
  - intros a name count Hc H Hs x Hx. cbn [counts]. unfold bumped. rewrite getOr0_set.
    change (seen (mkAcc (loaded a) (bumped a name count) (missing a)) x) with (seen a x) in Hx.
    destruct (String.eqb name x); [lia|auto].
  - intros a name count Hc H Hs _ x Hx. rewrite seen_add_missing in Hx.
    cbn [counts]. unfold bumped. rewrite getOr0_set.
    destruct (String.eqb name x); [lia|auto].
  - intros a name count content Hc H Hs _ x Hx. rewrite seen_set_loaded in Hx.
    cbn [counts]. unfold bumped. rewrite getOr0_set.
    destruct (String.eqb name x); [lia|auto].
Qed.

Lemma has_bumped (acc : Acc) (name : string) (count : nat) (x : string) :
  JsMap.has (bumped acc name count) x = String.eqb name x || JsMap.has (counts acc) x.
Proof. unfold bumped. apply has_set. Qed.

Lemma load_keysAreSeen (depth : nat) (text : string) (acc acc' : Acc) :
  load depth fs text acc = Some acc' -> keysAreSeen acc -> keysAreSeen acc'.
Proof.
  apply load_preserves; unfold keysAreSeen.
  - intros a name count H Hs x. cbn [counts]. rewrite has_bumped, H.
    change (seen (mkAcc (loaded a) (bumped a name count) (missing a)) x) with (seen a x).
    destruct (String.eqb_spec name x) as [<-|]; [now rewrite Hs|reflexivity].
  - intros a name count H Hs _ x. rewrite seen_add_missing. cbn [counts].
    now rewrite has_bumped, H.
  - intros a name count content H Hs _ x. rewrite seen_set_loaded. cbn [counts].
    now rewrite has_bumped, H.
Qed.

Lemma inDocuments_positive (x : string) (docs : list (string * string)) :
  0 < inDocuments x docs -> exists n c, In (n, c) docs /\ In x (markerNames c).
Proof.
  induction docs as [|[n c] docs IH]; cbn [inDocuments]; [lia|].
  intros H. destruct (Nat.eq_dec (occurrences c x) 0) as [E|E].
  - destruct IH as (n' & c' & Hin & Hx); [lia|]. exists n', c'. split; [now right|assumption].
  - exists n, c. split; [now left|]. apply (count_occ_In string_dec).
    unfold occurrences in E. lia.
Qed.

(** X24: take a call stack that holds [stack] nested calls of the
    loader.  When [stack] exceeds the number of readable concept files
    the call started with empty accumulators returns; and whenever it
    returns without exhausting the stack it has resolved every
    reference: a name whose marker is matched in the root text or in a
    loaded document is loaded with the content of its file when the
    file is readable, and is recorded as missing, and not loaded, when
    it is not.  (Documents nested deeper than the stack are outside
    this statement.) *)
Theorem loader_resolves_references (text : string) (stack : nat) :
  (List.length fs < stack -> exists r, load stack fs text emptyAcc = Some r)
  /\ forall r,
       load stack fs text emptyAcc = Some r ->
       forall x,
         referenced text r x ->
         match loadConceptFile fs x with
         | Some content => JsMap.get (loaded r) x = Some content
         | None => JsMap.has (loaded r) x = false /\ JsSet.has (missing r) x = true
         end.
Proof.
  split.
  - intros Hstack. destruct (load_returns fs stack text emptyAcc) as (r & Hr & _).
    + pose proof (unloaded_le fs (loaded emptyAcc)). lia.
    + now exists r.
  - intros r Hr.
    pose proof (load_faithful fs _ _ _ _ Hr (faithful_empty fs)) as Hfaith.
    destruct (load_ranOver fs _ _ _ _ Hr) as (new & Hl & _ & _ & Hnamed & Hclosed).
    cbn [loaded emptyAcc app] in Hl. subst new.
    intros x Hx.
    assert (Hseen : seen r x = true).
    { destruct Hx as [Hx|(n & c & Hin & Hx)]; [now apply Hnamed|].
      now apply (Hclosed n c x). }
    destruct (loadConceptFile fs x) as [content|] eqn:Efile.
    + now apply (seen_on_disk_loaded fs).
    + destruct Hfaith as [Hload _]. unfold seen, JsMap.has in *.
      destruct (JsMap.get (loaded r) x) as [c|] eqn:E.
      * apply Hload in E. congruence.
      * now split.
Qed.

(** X25: the loader touches nothing that is not referenced: every
    name it loaded or recorded as missing has a marker matched in the
    root text or in a loaded document. *)
Theorem loader_touches_only_referenced (text : string) :
  exists r,
    loadConceptsRecursively fs text emptyAcc = Some r
    /\ forall x,
         JsMap.has (loaded r) x = true \/ JsSet.has (missing r) x = true ->
         referenced text r x.
Proof.
  destruct (load_total fs text emptyAcc) as [r Hr]. exists r. split; [exact Hr|].
  assert (Hc : countedWhenSeen r).
  { apply (load_countedWhenSeen _ _ _ _ Hr). intros x Hx. discriminate. }
  destruct (load_ranOver fs _ _ _ _ Hr) as (new & Hl & _ & Hcount & _ & _).
  cbn [loaded emptyAcc app] in Hl. subst new.
  intros x Hx.
  assert (Hseen : seen r x = true).
  { unfold seen. destruct Hx as [-> | ->]; [reflexivity|apply orb_true_r]. }
  specialize (Hc x Hseen). rewrite Hcount in Hc.
  change (JsMap.getOr0 (counts emptyAcc) x) with 0 in Hc.
  destruct (Nat.eq_dec (occurrences text x) 0) as [E|E].
  - right. apply inDocuments_positive. lia.
  - left. apply (count_occ_In string_dec). unfold occurrences in E. lia.
Qed.

(** X26: the counts the loader returns have a key exactly for the
    names it loaded or recorded as missing, and every count is at
    least one. *)
Theorem loader_counts_what_it_saw (text : string) :
  exists r,
    loadConceptsRecursively fs text emptyAcc = Some r
    /\ (forall x, JsMap.has (counts r) x
                  = JsMap.has (loaded r) x || JsSet.has (missing r) x)
    /\ forall k v, In (k, v) (counts r) -> 1 <= v.
Proof.
  destruct (load_total fs text emptyAcc) as [r Hr]. exists r. split; [exact Hr|]. split.
  - apply (load_keysAreSeen _ _ _ _ Hr). intros x. reflexivity.
  - apply (load_counts_positive _ _ _ _ Hr). intros k v [].
Qed.

End LoaderClosure.

(* ------------------------------------------------------------------ *)
(** ** The concepts of the session *)

Section SessionFacts.
Import Collaboration Session.

Lemma In_delete {V} (m : list (string * V)) (k : string) (e : string * V) :
  In e (JsMap.delete m k) -> In e m.
Proof.
  induction m as [|[k' v'] m IH]; cbn [JsMap.delete]; [tauto|].
  destruct (String.eqb k' k); cbn [In]; tauto.
Qed.

Lemma set_set {V} (m : list (string * V)) (k : string) (v w : V) :
  JsMap.set (JsMap.set m k v) k w = JsMap.set m k w.
Proof.
  induction m as [|[k' v'] m IH]; cbn [JsMap.set].
  - now rewrite String.eqb_refl.
  - destruct (String.eqb k' k) eqn:E; cbn [JsMap.set]; rewrite E; [reflexivity|].
    now rewrite IH.
Qed.

Lemma set_get_id {V} (m : list (string * V)) (k : string) (v : V) :
  JsMap.get m k = Some v -> JsMap.set m k v = m.
Proof.
  induction m as [|[k' v'] m IH]; cbn [JsMap.get JsMap.set]; [discriminate|].
  destruct (String.eqb k' k); intros H.
  - now injection H as ->.
  - now rewrite IH.
Qed.

Lemma length_set {V} (m : list (string * V)) (k : string) (v : V) :
  List.length (JsMap.set m k v)
  = List.length m + (if JsMap.has m k then 0 else 1).
Proof.
  unfold JsMap.has. induction m as [|[k' v'] m IH]; cbn [JsMap.get JsMap.set List.length].
  - reflexivity.
  - destruct (String.eqb k' k); cbn [List.length]; [lia|]. rewrite IH. lia.
Qed.

Lemma loadAll_from (available : list string) :
  forall (session : Concepts) (k : nat),
    let r := fold_left
               (fun (acc : Concepts * nat) name =>
                  if negb (JsMap.has (fst acc) name)
                  then (JsMap.set (fst acc) name 1, S (snd acc))
                  else acc)
               available (session, k) in
    (forall x, JsMap.get (fst r) x
               = match JsMap.get session x with
                 | Some c => Some c
                 | None => if existsb (String.eqb x) available then Some 1 else None
                 end)
    /\ List.length (fst r) + k = List.length session + snd r.
Proof.
  induction available as [|name available IH]; intros session k; cbn [fold_left existsb].
  - cbn [fst snd]. split; [|lia]. intros x. now destruct (JsMap.get session x).
  - cbn [fst snd]. destruct (JsMap.has session name) eqn:Hhas; cbn [negb].
    + destruct (IH session k) as [Hget Hlen]. split; [|exact Hlen].
      intros x. rewrite Hget. destruct (JsMap.get session x) eqn:Ex; [reflexivity|].
      destruct (String.eqb_spec x name) as [->|]; [|reflexivity].
      unfold JsMap.has in Hhas. now rewrite Ex in Hhas.
    + destruct (IH (JsMap.set session name 1) (S k)) as [Hget Hlen]. split.
      * intros x. rewrite Hget. destruct (String.eqb_spec x name) as [->|Hne].
        -- rewrite get_set_same. unfold JsMap.has in Hhas.
           now destruct (JsMap.get session name).
        -- rewrite get_set_other by congruence. reflexivity.
      * rewrite length_set, Hhas in Hlen. cbv iota in Hlen.
        unfold Concepts in *. lia.
Qed.

(** X27: [/concept all] leaves the counts of the loaded concepts as
    they are, loads every other available concept with count one,
    touches no other name, and reports as loaded the number of entries
    the session has gained. *)
Theorem concept_all_loads_the_rest (available : list string) (session : Concepts) :
  (forall x, JsMap.get (fst (loadAll available session)) x
             = match JsMap.get session x with
               | Some c => Some c
               | None => if existsb (String.eqb x) available then Some 1 else None
               end)
  /\ List.length (fst (loadAll available session))
     = List.length session + snd (loadAll available session).
Proof.
  destruct (loadAll_from available session 0) as [Hget Hlen]. split; [exact Hget|].
  unfold loadAll. cbv zeta in Hlen. lia.
Qed.

(** X28: boosting a loaded concept and then reducing it gives the
    session back as it was. *)
Theorem boost_then_reduce (session : Concepts) (name : string) (c : nat) :
  JsMap.get session name = Some c -> 1 <= c ->
  onSelected (onSelected session name (Some Boost)) name (Some Reduce) = session.
Proof.
  intros Hget Hc. unfold onSelected at 2. rewrite Hget.
  unfold onSelected. rewrite get_set_same.
  destruct (Nat.leb_spec (c + 1) 1) as [Hle|_]; [lia|].
  rewrite set_set. replace (c + 1 - 1) with c by lia. now apply set_get_id.
Qed.

Lemma boost_then_reduce_witness :
  onSelected (onSelected [("trust", 2); ("scope", 1)] "scope" (Some Boost))
             "scope" (Some Reduce)
  = [("trust", 2); ("scope", 1)].
Proof.
  apply (boost_then_reduce [("trust", 2); ("scope", 1)] "scope" 1); [reflexivity|lia].
Defined.

Lemma positive_delete (m : Concepts) (k : string) : positive m -> positive (JsMap.delete m k).
Proof. intros H x v Hin. apply (H x). eapply In_delete; eauto. Qed.

Lemma positive_set (m : Concepts) (k : string) (w : nat) :
  positive m -> 0 < w -> positive (JsMap.set m k w).
Proof. intros H Hw x v. now apply set_positive. Qed.

Lemma positive_mergeCounts (cs : list (string * nat)) :
  forall s, positive s -> positive cs -> positive (mergeCounts s cs).
Proof.
  unfold mergeCounts. induction cs as [|[n c] cs IH]; intros s Hs Hcs; [exact Hs|].
  cbn [fold_left fst snd]. apply IH.
  - apply positive_set; [exact Hs|]. assert (0 < c) by (apply (Hcs n); now left). lia.
  - intros k v Hin. apply (Hcs k). now right.
Qed.

Lemma positive_loadAll (available : list string) :
  forall (s : Concepts) (k : nat),
    positive s ->
    positive (fst (fold_left
                     (fun (acc : Concepts * nat) name =>
                        if negb (JsMap.has (fst acc) name)
                        then (JsMap.set (fst acc) name 1, S (snd acc))
                        else acc)
                     available (s, k))).
Proof.
  induction available as [|name available IH]; intros s k Hs; [exact Hs|].
  cbn [fold_left fst snd]. destruct (JsMap.has s name); cbn [negb].
  - now apply IH.
  - apply IH. apply positive_set; [exact Hs|lia].
Qed.

Lemma handle_positive (s : Concepts) (e : Event) :
  positive s -> exists s', handle s e = Some s' /\ positive s'.
Proof.
  intros Hs. destruct e as [available|name action|fs preamble systemPrompt prompt|];
    cbn [handle].
  - eexists. split; [reflexivity|]. now apply positive_loadAll.
  - eexists. split; [reflexivity|]. unfold onSelected.
    destruct (JsMap.get s name) as [c|] eqn:Hget.
    + assert (Hc : 0 < c) by (apply (Hs name), get_In, Hget).
      destruct action as [[| |]|]; try assumption.
      * apply positive_set; [exact Hs|lia].
      * destruct (Nat.leb_spec c 1); [now apply positive_delete|].
        apply positive_set; [exact Hs|lia].
      * now apply positive_delete.
    + apply positive_set; [exact Hs|lia].
  - unfold beforeAgentStart.
    destruct (load_total fs (allText preamble systemPrompt prompt) emptyAcc) as [r Hr].
    rewrite Hr. cbn [option_map fst]. eexists. split; [reflexivity|].
    apply positive_mergeCounts; [exact Hs|].
    apply (load_counts_positive fs _ _ _ _ Hr). intros k v [].
  - exists []. split; [reflexivity|]. intros k v [].
Qed.

(** X29: after any sequence of [/concept all], selections with any
    action or none, prompts with any text and any documents on disk,
    and new sessions, whose handlers have returned, every concept the
    session holds has a count of at least one: reducing a count of one
    unloads the concept. *)
Theorem session_counts_at_least_one (events : list Event) (session : Concepts) :
  handleAll [] events = Some session ->
  forall name count, JsMap.get session name = Some count -> 1 <= count.
Proof.
  assert (H : forall es s s', positive s -> handleAll s es = Some s' -> positive s').
  { induction es as [|e es IH]; intros s s' Hs Hrun; cbn [handleAll] in Hrun.
    - now injection Hrun as <-.
    - destruct (handle_positive s e Hs) as (s1 & E & Hs1). rewrite E in Hrun.
      now apply (IH s1). }
  intros Hrun name count Hget.
  apply (H events [] session ltac:(intros k v []) Hrun name), get_In, Hget.
Qed.

Lemma session_counts_at_least_one_witness :
  handleAll []
    [ConceptAll ["scope"; "trust"];
     ConceptSelected "scope" (Some Boost);
     ConceptSelected "trust" (Some Reduce);
     BeforeAgentStart [("scope", "See `cf:trust`.")] "" "" "Apply `cf:scope`."]
  = Some [("scope", 3); ("trust", 1)]
  /\ JsMap.get [("scope", 3); ("trust", 1)] "trust" = Some 1
  /\ 1 <= 1.
Proof.
  assert (Hrun : handleAll []
                   [ConceptAll ["scope"; "trust"];
                    ConceptSelected "scope" (Some Boost);
                    ConceptSelected "trust" (Some Reduce);
                    BeforeAgentStart [("scope", "See `cf:trust`.")] "" ""
                                     "Apply `cf:scope`."]
                 = Some [("scope", 3); ("trust", 1)]) by (vm_compute; reflexivity).
  split; [exact Hrun|]. split; [reflexivity|].
  apply (session_counts_at_least_one _ _ Hrun "trust" 1). reflexivity.
Defined.

Lemma sumFor_set_add (m : list (string * nat)) (k x : string) (c : nat) :
  sumFor x (JsMap.set m k (JsMap.getOr0 m k + c))
  = sumFor x m + (if String.eqb k x then c else 0).
Proof.
  unfold JsMap.getOr0. induction m as [|[k' v'] m IH]; simpl.
  - destruct (String.eqb k x); lia.
  - destruct (String.eqb k' k) eqn:E; simpl.
    + apply String.eqb_eq in E; subst k'. destruct (String.eqb k x); lia.
    + rewrite IH. lia.
Qed.

Lemma load_singleEntries (fs : FileSystem) (depth : nat) (text : string) (acc acc' : Acc) :
  load depth fs text acc = Some acc' -> singleEntries acc -> singleEntries acc'.
Proof.
  apply load_preserves; unfold singleEntries; intros a name count; intros;
    cbn [counts]; unfold bumped; rewrite sumFor_set_add, getOr0_set;
    match goal with H : forall x, sumFor x _ = _ |- _ => rewrite H end;
    destruct (String.eqb_spec name x) as [->|]; lia.
Qed.

Lemma getOr0_mergeCounts (cs : list (string * nat)) :
  forall s x, JsMap.getOr0 (mergeCounts s cs) x = JsMap.getOr0 s x + sumFor x cs.
Proof.
  unfold mergeCounts. induction cs as [|[n c] cs IH]; intros s x; cbn [fold_left sumFor].
  - lia.
  - rewrite IH. cbn [fst snd]. rewrite getOr0_set.
    destruct (String.eqb_spec n x) as [->|]; lia.
Qed.

(** X30: a prompt adds to the session, for every name, the number of
    matches of its marker in the text made of preamble, system prompt
    and prompt and in the documents loaded for it; the counts from
    earlier prompts stay. *)
Theorem prompt_adds_references (fs : FileSystem) (preamble systemPrompt prompt : string)
      (session : Concepts) :
  exists r session',
    loadConceptsRecursively fs (allText preamble systemPrompt prompt) emptyAcc = Some r
    /\ beforeAgentStart fs preamble systemPrompt prompt session
       = Some (session', missing r)
    /\ forall x,
         JsMap.getOr0 session' x
         = JsMap.getOr0 session x
           + occurrences (allText preamble systemPrompt prompt) x
           + inDocuments x (loaded r).
Proof.
  destruct (load_total fs (allText preamble systemPrompt prompt) emptyAcc) as [r Hr].
  exists r, (mergeCounts session (counts r)). split; [exact Hr|].
  unfold beforeAgentStart. rewrite Hr. split; [reflexivity|].
  intros x. rewrite getOr0_mergeCounts.
  assert (Hsingle : singleEntries r).
  { apply (load_singleEntries fs _ _ _ _ Hr). intros y. reflexivity. }
  rewrite (Hsingle x).
  destruct (load_ranOver fs _ _ _ _ Hr) as (new & Hl & _ & Hcount & _ & _).
  cbn [loaded emptyAcc app] in Hl. subst new. rewrite Hcount.
  change (JsMap.getOr0 (counts emptyAcc) x) with 0. lia.
Qed.

End SessionFacts.

(* ------------------------------------------------------------------ *)
(** ** identity.ts: where the owner patterns match *)

Section OwnerPatterns.
Import RegExp Identity.

Lemma segment_intro (s : string) :
  s <> EmptyString -> allIn notSlash s = true -> segment s = true.
Proof.
  intros Hne Hall. unfold segment. rewrite Hall.
  destruct (String.eqb_spec s EmptyString); [contradiction|reflexivity].
Qed.

(** What [exec] finds for a framed pattern is a segment that stands
    behind the literal, and the capture is that segment. *)
Lemma exec_from_framed_some (l : string) (s : string) :
  forall p i m,
    exec_from (framed l notSlash "/") p s i = Some m ->
    exists seg, group 1 m = Some seg /\ embedsAs l s seg.
Proof.
  assert (Hhere : forall p t i st tl,
             rmatch (framed l notSlash "/") (mkM p t []) = st :: tl ->
             exists seg, group 1 (mkMatch i (consumed (mkM p t []) st) st) = Some seg
                         /\ embedsAs l t seg).
  { intros p t i st tl E.
    apply rmatch_framed_inv in E as (name & tail & Hne & Hall & -> & -> & _);
      [|reflexivity].
    exists name. split; [reflexivity|]. split; [now apply segment_intro|].
    now exists EmptyString, tail. }
  assert (Hshift : forall c t seg, embedsAs l t seg -> embedsAs l (String c t) seg).
  { intros c t seg (Hseg & pre & post & ->). split; [assumption|].
    now exists (String c pre), post. }
  induction s as [|c s IH]; intros p i m H; cbn [exec_from] in H.
  - destruct (rmatch (framed l notSlash "/") (mkM p EmptyString [])) as [|st tl] eqn:E;
      [discriminate|].
    injection H as <-. eapply Hhere; eauto.
  - destruct (rmatch (framed l notSlash "/") (mkM p (String c s) [])) as [|st tl] eqn:E.
    + destruct (IH _ _ _ H) as (seg & Hg & Hemb). exists seg. split; [assumption|].
      now apply Hshift.
    + injection H as <-. eapply Hhere; eauto.
Qed.

(** A framed pattern has a match exactly in the strings that embed a
    segment behind its literal. *)
Lemma exec_framed_none (l s : string) :
  exec (framed l notSlash "/") s = None <-> ~ embeds l s.
Proof.
  split.
  - intros Hnone (seg & Hseg & pre & post & ->).
    apply segment_inv in Hseg as [Hall Hne].
    assert (Hfound : forall p,
               rmatch (framed l notSlash "/") (mkM p (l ++ seg ++ String "/" post) []) <> []).
    { intros p. rewrite (rmatch_framed_start l notSlash "/" p seg post [] eq_refl Hall Hne).
      discriminate. }
    apply (exec_from_found _ _ Hfound pre None 0). exact Hnone.
  - intros Hno. destruct (exec (framed l notSlash "/") s) as [m|] eqn:E; [|reflexivity].
    apply exec_from_framed_some in E as (seg & _ & Hemb). elim Hno. now exists seg.
Qed.

Lemma append_eq_append (a : string) :
  forall b c d,
    (a ++ b = c ++ d)%string ->
    (exists e, c = (a ++ e)%string /\ b = (e ++ d)%string)
    \/ (exists e, a = (c ++ e)%string /\ d = (e ++ b)%string).
Proof.
  induction a as [|x a IH]; intros b c d H.
  - left. exists c. now split.
  - destruct c as [|y c].
    + right. exists (String x a). now split.
    + cbn [append] in H. injection H as <- H.
      destruct (IH _ _ _ H) as [(e & -> & ->)|(e & -> & ->)].
      * left. exists e. now split.
      * right. exists e. now split.
Qed.

Lemma span_first_slash (a b : string) :
  allIn notSlash a = true -> span notSlash (a ++ String "/" b) = (a, String "/" b).
Proof. intros H. now apply span_append. Qed.

(** In [owner/rest] with [rest] free of [/], a segment that stands
    behind [l] and before a [/] is a proper part of the owner. *)
Lemma segment_inside_owner (l owner rest e seg post : string) :
  allIn notSlash l = true -> l <> EmptyString ->
  allIn notSlash owner = true -> allIn notSlash rest = true ->
  allIn notSlash seg = true ->
  (owner ++ String "/" rest = e ++ l ++ seg ++ String "/" post)%string ->
  seg <> owner.
Proof.
  intros Hl Hlne Ho Hr Hs H.
  pose proof (span_first_slash owner rest Ho) as Hleft. rewrite H in Hleft.
  pose proof (span_eq notSlash e) as He. pose proof (span_allIn notSlash e) as He1.
  destruct (snd (span notSlash e)) as [|c t] eqn:E2.
  - rewrite append_nil_r in He. rewrite <- He in He1. clear He E2.
    assert (Hall : allIn notSlash (e ++ l ++ seg) = true)
      by (now rewrite !allIn_append, He1, Hl, Hs).
    replace (e ++ l ++ seg ++ String "/" post)%string
      with ((e ++ l ++ seg) ++ String "/" post)%string in Hleft
      by (now rewrite !append_assoc).
    rewrite (span_first_slash _ post Hall) in Hleft. injection Hleft as Hown _.
    intros ->. apply (f_equal String.length) in Hown. rewrite !length_append in Hown.
    destruct l; [congruence|]. cbn [String.length] in Hown. lia.
  - pose proof (span_stop notSlash e c t E2) as Hc.
    unfold notSlash in Hc. apply negb_false_iff, Ascii.eqb_eq in Hc. subst c.
    rewrite He in Hleft. rewrite append_assoc in Hleft. cbn [append] in Hleft.
    rewrite (span_first_slash _ _ He1) in Hleft. injection Hleft as _ Hrest.
    rewrite <- Hrest in Hr. rewrite !allIn_append in Hr. cbn [allIn] in Hr.
    change (notSlash "/") with false in Hr. cbn [andb] in Hr.
    rewrite !andb_false_r in Hr. discriminate.
Qed.

(** No part of [https://github.com/] other than its end is where
    [git@github.com:] begins. *)
Lemma https_suffix_not_ssh (pre e x y : string) :
  "https://github.com/"%string = (pre ++ e)%string -> e <> EmptyString ->
  ("git@github.com:" ++ x)%string <> (e ++ y)%string.
Proof.
  intros Hpre Hne H.
  do 20 (destruct pre as [|? pre]; cbn [append] in Hpre;
         [subst e; try congruence; cbn [append] in H; discriminate H
         |try discriminate Hpre; injection Hpre as <- Hpre]).
Qed.

(** C3, as the code has it.  An SSH remote [git@github.com:owner/repo],
    with or without [.git], yields its owner.  An HTTPS remote
    [https://github.com/owner/repo], with or without [.git], yields its
    owner exactly when [git@github.com:], a segment and a [/] do not
    stand anywhere in it.  Null is returned exactly for the strings in
    which neither [git@github.com:] nor [https://github.com/] stands
    anywhere followed by a segment and a [/].  And an owner that is
    returned is a segment that stands in the string between one of the
    two prefixes and a [/]. *)
Theorem parseRepoOwner_remote_forms :
  (forall url owner, sshRemote url owner -> parseRepoOwner url = Some owner)
  /\ (forall url owner,
        httpsRemote url owner ->
        (parseRepoOwner url = Some owner <-> ~ embeds "git@github.com:" url))
  /\ (forall url,
        parseRepoOwner url = None
        <-> ~ embeds "git@github.com:" url /\ ~ embeds "https://github.com/" url)
  /\ (forall url owner,
        parseRepoOwner url = Some owner ->
        embedsAs "git@github.com:" url owner \/ embedsAs "https://github.com/" url owner).
Proof.
  assert (Hcases : forall url,
             (~ embeds "git@github.com:" url
              /\ parseRepoOwner url
                 = match exec (framed "https://github.com/" notSlash "/") url with
                   | Some m => group 1 m
                   | None => None
                   end)
             \/ (exists seg, parseRepoOwner url = Some seg
                             /\ embedsAs "git@github.com:" url seg)).
  { intros url. unfold parseRepoOwner.
    change SSH_RE with (framed "git@github.com:" notSlash "/").
    change HTTPS_RE with (framed "https://github.com/" notSlash "/").
    destruct (exec (framed "git@github.com:" notSlash "/") url) as [m|] eqn:E.
    - right. apply exec_from_framed_some in E as (seg & Hg & Hemb). now exists seg.
    - left. split; [now apply exec_framed_none|reflexivity]. }
  split; [|split; [|split]].
  - intros url owner (repo & suffix & Ho & _ & _ & ->). now apply parseRepoOwner_ssh.
  - intros url owner (repo & suffix & Ho & Hr & Hsuffix & ->).
    pose proof (segment_inv _ Ho) as [Hall Hne].
    assert (Hrest : allIn notSlash (repo ++ suffix) = true).
    { apply segment_inv in Hr as [Hr _]. rewrite allIn_append, Hr.
      destruct Hsuffix as [-> | ->]; reflexivity. }
    set (url := ("https://github.com/" ++ owner ++ "/" ++ repo ++ suffix)%string).
    destruct (Hcases url) as [[Hno Hres]|(seg & Hres & Hseg & pre & post & Hurl)].
    + split; [auto|]. intros _. rewrite Hres.
      destruct (exec_framed_start "https://github.com/" notSlash "/" owner
                  (repo ++ suffix) eq_refl Hall Hne) as (m & Hm & Hg).
      change (String "/" (repo ++ suffix)) with ("/" ++ repo ++ suffix)%string in Hm.
      fold url in Hm. now rewrite Hm.
    + split.
      * intros Hown. rewrite Hres in Hown. injection Hown as ->. exfalso.
        apply segment_inv in Hseg as [Hsall _]. unfold url in Hurl.
        destruct (append_eq_append _ _ _ _ Hurl) as [(e & Hpre & Hbody)|(e & Hpre & Hbody)].
        -- exact (segment_inside_owner "git@github.com:" owner (repo ++ suffix) e owner post
                    eq_refl ltac:(discriminate) Hall Hrest Hall Hbody eq_refl).
        -- destruct e as [|c e].
           ++ exact (segment_inside_owner "git@github.com:" owner (repo ++ suffix)
                       EmptyString owner post
                       eq_refl ltac:(discriminate) Hall Hrest Hall (eq_sym Hbody) eq_refl).
           ++ exact (https_suffix_not_ssh pre (String c e)
                       (owner ++ "/" ++ post) (owner ++ "/" ++ repo ++ suffix)
                       Hpre ltac:(discriminate) Hbody).
      * intros Hno. elim Hno. exists seg. split; [assumption|]. now exists pre, post.
  - intros url. destruct (Hcases url) as [[Hno Hres]|(seg & Hres & Hemb)].
    + rewrite Hres. split.
      * intros Hnone. split; [assumption|]. apply exec_framed_none.
        destruct (exec (framed "https://github.com/" notSlash "/") url) as [m|] eqn:E;
          [|reflexivity].
        apply exec_from_framed_some in E as (seg & Hg & _). congruence.
      * intros [_ Hno2]. apply exec_framed_none in Hno2. now rewrite Hno2.
    + rewrite Hres. split; [discriminate|]. intros [Hno _]. elim Hno. now exists seg.
  - intros url owner Hown. destruct (Hcases url) as [[Hno Hres]|(seg & Hres & Hemb)].
    + right. rewrite Hres in Hown.
      destruct (exec (framed "https://github.com/" notSlash "/") url) as [m|] eqn:E;
        [|discriminate].
      apply exec_from_framed_some in E as (seg & Hg & Hemb). congruence.
    + left. congruence.
Qed.

Lemma parseRepoOwner_remote_forms_witness :
  parseRepoOwner "git@github.com:octocat/hello-world" = Some "octocat"
  /\ parseRepoOwner "https://github.com/dyreby/collaboration-framework.git" = Some "dyreby"
  /\ parseRepoOwner "https://github.com/xgit@github.com:/repo" = Some "xgit@github.com:"
  /\ parseRepoOwner "git@gitlab.com:user/repo.git" = None
  /\ parseRepoOwner "https://github.com/owner" = None
  /\ parseRepoOwner "git@github.com:/repo" = None.
Proof.
  destruct parseRepoOwner_remote_forms as (Hssh & Hhttps & Hnone & _).
  split; [|split; [|split; [|split; [|split]]]].
  - apply Hssh. exists "hello-world", "". repeat split; auto.
  - apply (Hhttps "https://github.com/dyreby/collaboration-framework.git" "dyreby").
    + exists "collaboration-framework", ".git". repeat split; auto.
    + apply exec_framed_none. vm_compute. reflexivity.
  - apply (Hhttps "https://github.com/xgit@github.com:/repo" "xgit@github.com:").
    + exists "repo", "". repeat split; auto.
    + apply exec_framed_none. vm_compute. reflexivity.
  - apply Hnone. split; apply exec_framed_none; vm_compute; reflexivity.
  - apply Hnone. split; apply exec_framed_none; vm_compute; reflexivity.
  - apply Hnone. split; apply exec_framed_none; vm_compute; reflexivity.
Defined.

End OwnerPatterns.
